(** * advanced-vector: RawMemory<T> and Vector<T> (vector.h)

    A shallow embedding of the two class templates of vector.h and the
    verification of the container's exception-safety and functional
    properties.

    Conventions of the model.
    - The element type [T] is a parameter.  Its special member functions
      are the fields of the class [Element]: each may read and change an
      ambient world [W] (a throw countdown, a resource counter, ...), and
      each construction or assignment may throw.
    - A raw buffer is a list of slots, [None] for raw memory and [Some x]
      for a slot holding the live object [x].  A [RawMemory] owns its
      buffer exclusively (its copy operations are deleted), so the buffer
      pointer is represented by the region it points to; [nullptr] is the
      empty region.  Pointers into a buffer are offsets from its start.
    - Every operation returns [Ok] (normal return), [Exn] (an exception
      leaves the operation, with the state it leaves behind) or [Fault]
      (undefined behaviour: a failed assertion, an access outside the
      region, use of a slot that holds no object).
    - The machine state carries, beside the world of [T], a log of the
      calls made to [T] and to the allocator, and the list of objects
      whose storage went away without their destructor having run. *)

From stdpp Require Import base numbers list gmap.

(** ** size_t: 64-bit unsigned arithmetic *)

Module SizeT.
Definition modulus : N := 18446744073709551616%N.   (* 2^64 *)

Definition fits (n : nat) : Prop := (N.of_nat n < modulus)%N.

Definition wrap (n : N) : nat := N.to_nat (n mod modulus)%N.

Definition add (a b : nat) : nat := wrap (N.of_nat a + N.of_nat b).

Definition mul (a b : nat) : nat := wrap (N.of_nat a * N.of_nat b).

Definition sub (a b : nat) : nat :=
  wrap (N.of_nat a + modulus - N.of_nat b mod modulus).
End SizeT.

(** ** The element type *)

(** Calls made to the element type and to the allocator. *)
Inductive event (T : Type) : Type :=
| EvAlloc (n : nat)                (* operator new for n elements *)
| EvFree (n : nat)                 (* operator delete of such a region *)
| EvCtor                           (* T(args...) *)
| EvValueInit                      (* T() *)
| EvCopyCtor (src : T)             (* T(const T&) *)
| EvMoveCtor (src : T)             (* T(T&&) *)
| EvCopyAssign (dst src : T)       (* dst = src *)
| EvMoveAssign (dst src : T)       (* dst = std::move(src) *)
| EvDtor (x : T).                  (* ~T() *)

Arguments EvAlloc {T} n.
Arguments EvFree {T} n.
Arguments EvCtor {T}.
Arguments EvValueInit {T}.
Arguments EvCopyCtor {T} src.
Arguments EvMoveCtor {T} src.
Arguments EvCopyAssign {T} dst src.
Arguments EvMoveAssign {T} dst src.
Arguments EvDtor {T} x.

(** The operations of [T].  A constructor returns [None] when it throws.
    A move hands back the state it leaves its source in; an assignment
    hands back the state of its target and whether it completed.
    [operator_new b] tells whether a block of [b] bytes is obtained
    ([false]: std::bad_alloc); [sizeof_T] is sizeof(T). *)
Class Element (T W : Type) : Type := {
  sizeof_T    : nat;
  value_init  : W → W * option T;
  copy_ctor   : T → W → W * option T;
  move_ctor   : T → W → W * (T * option T);
  copy_assign : T → T → W → W * (T * bool);
  move_assign : T → T → W → W * (T * T * bool);
  dtor        : T → W → W;
  operator_new : nat → W → W * bool;
  is_nothrow_move_constructible : bool;
  is_copy_constructible : bool
}.

(** ** Machine state and results *)

Record mach (T W : Type) : Type := Mach {
  world  : W;
  log    : list (event T);
  leaked : list T
}.

Arguments Mach {T W} world log leaked.
Arguments world {T W} m.
Arguments log {T W} m.
Arguments leaked {T W} m.

Inductive res (T W A E : Type) : Type :=
| Ok (a : A) (m : mach T W)
| Exn (e : E) (m : mach T W)
| Fault.

Arguments Ok {T W A E} a m.
Arguments Exn {T W A E} e m.
Arguments Fault {T W A E}.

Section Model.
Context {T W : Type} `{!Element T W}.

Local Abbreviation mach := (mach T W).
Local Abbreviation res := (res T W).
Local Abbreviation slot := (option T).

Definition emit (e : event T) (w : W) (m : mach) : mach :=
  Mach w (log m ++ [e]) (leaked m).

Definition leak (xs : list T) (m : mach) : mach :=
  Mach (world m) (log m) (leaked m ++ xs).

(** *** Calls to the element type *)

Definition new_value (m : mach) : option T * mach :=
  let '(w, r) := value_init (world m) in (r, emit EvValueInit w m).

Definition new_copy (x : T) (m : mach) : option T * mach :=
  let '(w, r) := copy_ctor x (world m) in (r, emit (EvCopyCtor x) w m).

Definition new_move (x : T) (m : mach) : T * option T * mach :=
  let '(w, r) := move_ctor x (world m) in (r, emit (EvMoveCtor x) w m).

Definition assign_copy (d x : T) (m : mach) : T * bool * mach :=
  let '(w, r) := copy_assign d x (world m) in (r, emit (EvCopyAssign d x) w m).

Definition assign_move (d x : T) (m : mach) : T * T * bool * mach :=
  let '(w, r) := move_assign d x (world m) in (r, emit (EvMoveAssign d x) w m).

Definition destroy (x : T) (m : mach) : mach :=
  emit (EvDtor x) (dtor x (world m)) m.

(** *** Slots *)

(** The objects alive in a region. *)
Definition live_objects (buf : list slot) : list T := omap id buf.

(** Placement new: the object [x] now occupies slot [i].  An object that
    was there has its storage reused without having been destroyed. *)
Definition place (buf : list slot) (i : nat) (x : T) (m : mach)
  : option (list slot * mach) :=
  match buf !! i with
  | None => None
  | Some None => Some (<[i := Some x]> buf, m)
  | Some (Some old) => Some (<[i := Some x]> buf, leak [old] m)
  end.

(** std::destroy_at *)
Definition destroy_at (buf : list slot) (i : nat) (m : mach)
  : option (list slot * mach) :=
  match buf !! i with
  | Some (Some x) => Some (<[i := None]> buf, destroy x m)
  | _ => None
  end.

(** std::destroy_n(first, n) *)
Fixpoint destroy_n (buf : list slot) (first n : nat) (m : mach)
  : option (list slot * mach) :=
  match n with
  | 0 => Some (buf, m)
  | S n' =>
    match destroy_at buf first m with
    | Some (buf1, m1) => destroy_n buf1 (S first) n' m1
    | None => None
    end
  end.

(** *** The algorithms of <memory> and <algorithm> used by vector.h

    They follow the C++ standard: an uninitialized_* algorithm that is
    left by an exception destroys the objects it has constructed so far
    (as [first, cur) in the order of construction) and rethrows. *)

(** The catch block of the uninitialized_* algorithms:
    std::destroy(result, cur); throw; *)
Definition rollback {A S : Type} (dst : list slot) (result cur : nat)
    (k : list slot → S) (m : mach) : res A S :=
  match destroy_n dst result (cur - result) m with
  | Some (dst1, m1) => Exn (k dst1) m1
  | None => Fault
  end.

Fixpoint uninitialized_copy_loop (src : list slot) (first n : nat)
    (dst : list slot) (result cur : nat) (m : mach)
  : res (list slot) (list slot) :=
  match n with
  | 0 => Ok dst m
  | S n' =>
    match src !! first with
    | Some (Some x) =>
      match new_copy x m with
      | (Some y, m1) =>
        match place dst cur y m1 with
        | Some (dst1, m2) =>
          uninitialized_copy_loop src (S first) n' dst1 result (S cur) m2
        | None => Fault
        end
      | (None, m1) => rollback dst result cur id m1
      end
    | _ => Fault
    end
  end.

(** std::uninitialized_copy_n(first, n, result), from one region into
    another. *)
Definition uninitialized_copy_n (src : list slot) (first n : nat)
    (dst : list slot) (result : nat) (m : mach)
  : res (list slot) (list slot) :=
  uninitialized_copy_loop src first n dst result result m.

Fixpoint uninitialized_move_loop (src : list slot) (first n : nat)
    (dst : list slot) (result cur : nat) (m : mach)
  : res (list slot * list slot) (list slot * list slot) :=
  match n with
  | 0 => Ok (src, dst) m
  | S n' =>
    match src !! first with
    | Some (Some x) =>
      match new_move x m with
      | (x', Some y, m1) =>
        match place dst cur y m1 with
        | Some (dst1, m2) =>
          uninitialized_move_loop (<[first := Some x']> src) (S first) n'
                                  dst1 result (S cur) m2
        | None => Fault
        end
      | (x', None, m1) =>
        rollback dst result cur (λ d, (<[first := Some x']> src, d)) m1
      end
    | _ => Fault
    end
  end.

(** std::uninitialized_move_n(first, n, result): the sources stay alive,
    in the state their move constructor left them in. *)
Definition uninitialized_move_n (src : list slot) (first n : nat)
    (dst : list slot) (result : nat) (m : mach)
  : res (list slot * list slot) (list slot * list slot) :=
  uninitialized_move_loop src first n dst result result m.

Fixpoint uninitialized_value_construct_loop (dst : list slot)
    (first cur n : nat) (m : mach) : res (list slot) (list slot) :=
  match n with
  | 0 => Ok dst m
  | S n' =>
    match new_value m with
    | (Some y, m1) =>
      match place dst cur y m1 with
      | Some (dst1, m2) =>
        uninitialized_value_construct_loop dst1 first (S cur) n' m2
      | None => Fault
      end
    | (None, m1) => rollback dst first cur id m1
    end
  end.

(** std::uninitialized_value_construct_n(first, n) *)
Definition uninitialized_value_construct_n (dst : list slot)
    (first n : nat) (m : mach) : res (list slot) (list slot) :=
  uninitialized_value_construct_loop dst first first n m.

(** std::copy_n(first, count, result), from one region into another:
    element-wise copy assignment. *)
Fixpoint copy_n (src : list slot) (first n : nat)
    (dst : list slot) (result : nat) (m : mach)
  : res (list slot) (list slot) :=
  match n with
  | 0 => Ok dst m
  | S n' =>
    match src !! first, dst !! result with
    | Some (Some x), Some (Some d) =>
      match assign_copy d x m with
      | (d', ok, m1) =>
        let dst1 := <[result := Some d']> dst in
        if ok then copy_n src (S first) n' dst1 (S result) m1
        else Exn dst1 m1
      end
    | _, _ => Fault
    end
  end.

(** One step of std::move and std::move_backward: the object in slot [d]
    is move-assigned from the object in slot [s] of the same region. *)
Definition move_assign_at (buf : list slot) (s d : nat) (m : mach)
  : res (list slot) (list slot) :=
  if decide (s = d) then Fault else
  match buf !! s, buf !! d with
  | Some (Some x), Some (Some y) =>
    match assign_move y x m with
    | (y', x', ok, m1) =>
      let buf1 := <[s := Some x']> (<[d := Some y']> buf) in
      if ok then Ok buf1 m1 else Exn buf1 m1
    end
  | _, _ => Fault
  end.

Fixpoint move_loop (buf : list slot) (first n d_first : nat) (m : mach)
  : res (list slot) (list slot) :=
  match n with
  | 0 => Ok buf m
  | S n' =>
    match move_assign_at buf first d_first m with
    | Ok buf1 m1 => move_loop buf1 (S first) n' (S d_first) m1
    | r => r
    end
  end.

(** std::move(first, last, d_first) within one region.  The range must
    be valid, and d_first must not lie in [first, last). *)
Definition std_move (buf : list slot) (first last d_first : nat)
    (m : mach) : res (list slot) (list slot) :=
  if decide (last < first) then Fault
  else if decide (first ≤ d_first < last) then Fault
  else move_loop buf first (last - first) d_first m.

Fixpoint move_backward_loop (buf : list slot) (n last d_last : nat)
    (m : mach) : res (list slot) (list slot) :=
  match n with
  | 0 => Ok buf m
  | S n' =>
    match last, d_last with
    | S last', S d_last' =>
      match move_assign_at buf last' d_last' m with
      | Ok buf1 m1 => move_backward_loop buf1 n' last' d_last' m1
      | r => r
      end
    | _, _ => Fault
    end
  end.

(** std::move_backward(first, last, d_last) within one region.  The
    range must be valid, and d_last must not lie in (first, last]. *)
Definition std_move_backward (buf : list slot) (first last d_last : nat)
    (m : mach) : res (list slot) (list slot) :=
  if decide (last < first) then Fault
  else if decide (first < d_last ≤ last) then Fault
  else move_backward_loop buf (last - first) last d_last m.

(** ** RawMemory<T> (vector.h, lines 9-95) *)

Record RawMemory : Type := {
  buffer_   : list slot;
  capacity_ : nat
}.

(** RawMemory() = default *)
Definition RawMemory_default : RawMemory :=
  {| buffer_ := []; capacity_ := 0 |}.

(** Allocate(n): operator new(n * sizeof(T)) for n != 0, else nullptr.
    The byte count is a size_t product: operator new is asked for
    [SizeT.mul n sizeof_T] bytes.  The region the result stands for has
    [n] slots: that is the extent of the block when the product has not
    wrapped ([allocatable n], below), and a count derived from the length
    of a vector that exists does not wrap.  When the product wraps, the
    block is smaller than the region of the model; the theorems about a
    count chosen by the caller (Reserve, Resize, Vector(size)) assume
    [allocatable]. *)
Definition Allocate (n : nat) (m : mach) : res (list slot) unit :=
  if decide (n ≠ 0) then
    let '(w, ok) := operator_new (SizeT.mul n sizeof_T) (world m) in
    let m1 := emit (EvAlloc n) w m in
    if ok then Ok (replicate n None) m1 else Exn () m1
  else Ok [] m.

(** Deallocate(buffer): operator delete.  No destructor is run: objects
    still alive in the region are lost. *)
Definition Deallocate (buffer : list slot) (m : mach) : mach :=
  match buffer with
  | [] => m
  | _ :: _ =>
    leak (live_objects buffer) (emit (EvFree (length buffer)) (world m) m)
  end.

(** explicit RawMemory(size_t capacity) *)
Definition RawMemory_new (capacity : nat) (m : mach) : res RawMemory unit :=
  match Allocate capacity m with
  | Ok b m1 => Ok {| buffer_ := b; capacity_ := capacity |} m1
  | Exn e m1 => Exn e m1
  | Fault => Fault
  end.

(** ~RawMemory() *)
Definition RawMemory_dtor (this : RawMemory) (m : mach) : mach :=
  Deallocate (buffer_ this) m.

(** operator+(offset): assert(offset <= capacity_) *)
Definition RawMemory_plus (this : RawMemory) (offset : nat) : option nat :=
  if decide (offset ≤ capacity_ this) then Some offset else None.

(** operator[](index): assert(index < capacity_) *)
Definition RawMemory_index (this : RawMemory) (index : nat) : option nat :=
  if decide (index < capacity_ this) then Some index else None.

(** Swap(other), for two distinct objects. *)
Definition RawMemory_Swap (this other : RawMemory) : RawMemory * RawMemory :=
  ({| buffer_ := buffer_ other; capacity_ := capacity_ other |},
   {| buffer_ := buffer_ this; capacity_ := capacity_ this |}).

Definition set_region (b : list slot) (this : RawMemory) : RawMemory :=
  {| buffer_ := b; capacity_ := capacity_ this |}.

(** CopyOrMoveData(data, count, new_place), from the region [src] into
    the region [dst]; both regions are handed back. *)
Definition CopyOrMoveData (src : list slot) (data count : nat)
    (dst : list slot) (new_place : nat) (m : mach)
  : res (list slot * list slot) (list slot * list slot) :=
  if is_nothrow_move_constructible || negb is_copy_constructible then
    uninitialized_move_n src data count dst new_place m
  else
    match uninitialized_copy_n src data count dst new_place m with
    | Ok d m1 => Ok (src, d) m1
    | Exn d m1 => Exn (src, d) m1
    | Fault => Fault
    end.

(** ** Vector<T> (vector.h, lines 98-342) *)

Record Vector : Type := {
  data_ : RawMemory;
  size_ : nat
}.

Definition region (this : Vector) : list slot := buffer_ (data_ this).

Definition set_buffer (b : list slot) (this : Vector) : Vector :=
  {| data_ := set_region b (data_ this); size_ := size_ this |}.

Definition set_capacity (c : nat) (this : Vector) : Vector :=
  {| data_ := {| buffer_ := region this; capacity_ := c |};
     size_ := size_ this |}.

Definition set_size (n : nat) (this : Vector) : Vector :=
  {| data_ := data_ this; size_ := n |}.

(** Pointer arithmetic p - k; [None] when it leaves the region at its
    start. *)
Definition ptr_back (p k : nat) : option nat :=
  if decide (k ≤ p) then Some (p - k) else None.

(** begin(), cbegin(); end(), cend(): offsets from the start of data_. *)
Definition begin (this : Vector) : nat := 0.
Definition end_ (this : Vector) : nat := size_ this.

(** Size(), Capacity() *)
Definition Size (this : Vector) : nat := size_ this.
Definition Capacity (this : Vector) : nat := capacity_ (data_ this).

(** operator[](index): assert(index < size_); return data_[index]. *)
Definition operator_index (this : Vector) (index : nat) : option T :=
  if decide (index < size_ this) then
    match RawMemory_index (data_ this) index with
    | Some i => region this !! i ≫= id
    | None => None
    end
  else None.

(** Vector() = default *)
Definition Vector_default : Vector :=
  {| data_ := RawMemory_default; size_ := 0 |}.

(** Vector(size_t size) *)
Definition Vector_sized (size : nat) (m : mach) : res Vector unit :=
  match RawMemory_new size m with
  | Fault => Fault
  | Exn e m1 => Exn e m1
  | Ok data m1 =>
    match uninitialized_value_construct_n (buffer_ data) 0 size m1 with
    | Fault => Fault
    | Exn b m2 => Exn () (RawMemory_dtor (set_region b data) m2)
    | Ok b m2 => Ok {| data_ := set_region b data; size_ := size |} m2
    end
  end.

(** Vector(const Vector& other) *)
Definition Vector_copy (other : Vector) (m : mach) : res Vector unit :=
  match RawMemory_new (size_ other) m with
  | Fault => Fault
  | Exn e m1 => Exn e m1
  | Ok data m1 =>
    match uninitialized_copy_n (region other) 0 (size_ other)
                               (buffer_ data) 0 m1 with
    | Fault => Fault
    | Exn b m2 => Exn () (RawMemory_dtor (set_region b data) m2)
    | Ok b m2 => Ok {| data_ := set_region b data; size_ := size_ other |} m2
    end
  end.

(** ~Vector() *)
Definition Vector_dtor (this : Vector) (m : mach) : option mach :=
  match destroy_n (region this) 0 (size_ this) m with
  | Some (b, m1) => Some (RawMemory_dtor (set_region b (data_ this)) m1)
  | None => None
  end.

(** Swap(other), for two distinct objects. *)
Definition Swap (this other : Vector) : Vector * Vector :=
  let '(d, od) := RawMemory_Swap (data_ this) (data_ other) in
  ({| data_ := d; size_ := size_ other |},
   {| data_ := od; size_ := size_ this |}).

(** Reserve(new_capacity) *)
Definition Reserve (new_capacity : nat) (this : Vector) (m : mach)
  : res Vector Vector :=
  if decide (new_capacity ≤ capacity_ (data_ this)) then Ok this m else
  match RawMemory_new new_capacity m with
  | Fault => Fault
  | Exn _ m1 => Exn this m1
  | Ok new_data m1 =>
    match CopyOrMoveData (region this) 0 (size_ this)
                         (buffer_ new_data) 0 m1 with
    | Fault => Fault
    | Exn (src, dst) m2 =>
      Exn (set_buffer src this) (RawMemory_dtor (set_region dst new_data) m2)
    | Ok (src, dst) m2 =>
      match destroy_n src 0 (size_ this) m2 with
      | None => Fault
      | Some (src1, m3) =>
        let '(d, nd) := RawMemory_Swap (set_region src1 (data_ this))
                                       (set_region dst new_data) in
        Ok {| data_ := d; size_ := size_ this |} (RawMemory_dtor nd m3)
      end
    end
  end.

(** Resize(new_size) *)
Definition Resize (new_size : nat) (this : Vector) (m : mach)
  : res Vector Vector :=
  if decide (new_size ≤ size_ this) then
    match destroy_n (region this) new_size
                    (SizeT.sub (size_ this) new_size) m with
    | Some (b, m1) => Ok (set_size new_size (set_buffer b this)) m1
    | None => Fault
    end
  else
    match Reserve new_size this m with
    | Fault => Fault
    | Exn this1 m1 => Exn this1 m1
    | Ok this1 m1 =>
      match uninitialized_value_construct_n (region this1) (size_ this1)
              (SizeT.sub new_size (size_ this1)) m1 with
      | Fault => Fault
      | Exn b m2 => Exn (set_buffer b this1) m2
      | Ok b m2 => Ok (set_size new_size (set_buffer b this1)) m2
      end
    end.

(** PopBack() noexcept *)
Definition PopBack (this : Vector) (m : mach) : option (Vector * mach) :=
  match ptr_back (size_ this) 1 with
  | None => None
  | Some p =>
    match destroy_n (region this) p 1 m with
    | Some (b, m1) =>
      Some (set_size (SizeT.sub (size_ this) 1) (set_buffer b this), m1)
    | None => None
    end
  end.

(** Erase(pos): the vector and the iterator returned. *)
Definition Erase (pos : nat) (this : Vector) (m : mach)
  : res (Vector * nat) Vector :=
  let it := begin this + (pos - begin this) in
  match std_move (region this) (it + 1) (end_ this) it m with
  | Fault => Fault
  | Exn b m1 => Exn (set_buffer b this) m1
  | Ok b m1 =>
    match ptr_back (size_ this) 1 with
    | None => Fault
    | Some p =>
      match destroy_n b p 1 m1 with
      | None => Fault
      | Some (b1, m2) =>
        Ok (set_size (SizeT.sub (size_ this) 1) (set_buffer b1 this), it) m2
      end
    end
  end.

(** *** Emplace, Insert, PushBack *)

(** What a reference argument is bound to: an object outside the vector,
    or the element in slot [i] of the vector itself. *)
Inductive operand : Type :=
| Outside (x : T)
| Own (i : nat).

(** The argument pack of Emplace: arguments of some other constructor of
    [T] (given by what that constructor does), a [const T&], or a
    [T&&]. *)
Inductive ctor_args : Type :=
| Args (mk : W → W * option T)
| CopyOf (r : operand)
| MoveOf (r : operand).

(** T(std::forward<Args>(args)...), evaluated while the vector's region
    is [buf]: the new object and the region (a move from an own element
    changes it). *)
Definition construct (a : ctor_args) (buf : list slot) (m : mach)
  : res (T * list slot) (list slot) :=
  match a with
  | Args mk =>
    let '(w, r) := mk (world m) in
    let m1 := emit EvCtor w m in
    match r with
    | Some y => Ok (y, buf) m1
    | None => Exn buf m1
    end
  | CopyOf (Outside x) =>
    match new_copy x m with
    | (Some y, m1) => Ok (y, buf) m1
    | (None, m1) => Exn buf m1
    end
  | CopyOf (Own i) =>
    match buf !! i with
    | Some (Some x) =>
      match new_copy x m with
      | (Some y, m1) => Ok (y, buf) m1
      | (None, m1) => Exn buf m1
      end
    | _ => Fault
    end
  | MoveOf (Outside x) =>
    match new_move x m with
    | (_, Some y, m1) => Ok (y, buf) m1
    | (_, None, m1) => Exn buf m1
    end
  | MoveOf (Own i) =>
    match buf !! i with
    | Some (Some x) =>
      match new_move x m with
      | (x', Some y, m1) => Ok (y, <[i := Some x']> buf) m1
      | (x', None, m1) => Exn (<[i := Some x']> buf) m1
      end
    | _ => Fault
    end
  end.

(** cend() - pos, used as a count: [None] when pos is past the end. *)
Definition ptr_diff (last pos : nat) : option nat :=
  if decide (pos ≤ last) then Some (last - pos) else None.

(** EmplaceWithRealloc(pos, args...) *)
Definition EmplaceWithRealloc (pos : nat) (a : ctor_args) (this : Vector)
    (m : mach) : res (Vector * nat) Vector :=
  let new_size := SizeT.add (size_ this) 1 in
  let new_capacity :=
    if decide (0 < size_ this) then SizeT.mul (size_ this) 2 else 1 in
  let offset := pos - begin this in
  match RawMemory_new new_capacity m with
  | Fault => Fault
  | Exn _ m1 => Exn this m1
  | Ok new_data m1 =>
    match RawMemory_plus new_data offset with
    | None => Fault
    | Some p =>
      match construct a (region this) m1 with
      | Fault => Fault
      | Exn b m2 => Exn (set_buffer b this) (RawMemory_dtor new_data m2)
      | Ok (x, b) m2 =>
        match place (buffer_ new_data) p x m2 with
        | None => Fault
        | Some (nb, m3) =>
          match CopyOrMoveData b 0 offset nb 0 m3 with
          | Fault => Fault
          | Exn (b1, nb1) m4 =>
            (* catch (...) { std::destroy_n(new_data + offset, 1); throw; } *)
            match destroy_n nb1 offset 1 m4 with
            | None => Fault
            | Some (nb2, m5) =>
              Exn (set_buffer b1 this)
                  (RawMemory_dtor (set_region nb2 new_data) m5)
            end
          | Ok (b1, nb1) m4 =>
            match ptr_diff (end_ this) pos with
            | None => Fault
            | Some count =>
              match CopyOrMoveData b1 offset count nb1 (offset + 1) m4 with
              | Fault => Fault
              | Exn (b2, nb2) m5 =>
                (* catch (...) { std::destroy_n(new_data, offset); throw; } *)
                match destroy_n nb2 0 offset m5 with
                | None => Fault
                | Some (nb3, m6) =>
                  Exn (set_buffer b2 this)
                      (RawMemory_dtor (set_region nb3 new_data) m6)
                end
              | Ok (b2, nb2) m5 =>
                match destroy_n b2 0 (size_ this) m5 with
                | None => Fault
                | Some (b3, m6) =>
                  let '(d, nd) :=
                    RawMemory_Swap (set_region b3 (data_ this))
                                   (set_region nb2 new_data) in
                  Ok ({| data_ := d; size_ := new_size |}, begin this + offset)
                     (RawMemory_dtor nd m6)
                end
              end
            end
          end
        end
      end
    end
  end.

(** EmplaceWithoutRealloc(pos, args...) *)
Definition EmplaceWithoutRealloc (pos : nat) (a : ctor_args) (this : Vector)
    (m : mach) : res (Vector * nat) Vector :=
  let new_size := SizeT.add (size_ this) 1 in
  let offset := pos - begin this in
  if decide (pos = end_ this) then
    (* new (data_ + size_) T(std::forward<Args>(args)...) *)
    match RawMemory_plus (data_ this) (size_ this) with
    | None => Fault
    | Some p =>
      match construct a (region this) m with
      | Fault => Fault
      | Exn b m1 => Exn (set_buffer b this) m1
      | Ok (x, b) m1 =>
        match place b p x m1 with
        | None => Fault
        | Some (b1, m2) =>
          Ok (set_size new_size (set_buffer b1 this), begin this + offset) m2
        end
      end
    end
  else
    (* T&& temp = T(std::forward<Args>(args)...) *)
    match construct a (region this) m with
    | Fault => Fault
    | Exn b m1 => Exn (set_buffer b this) m1
    | Ok (temp, b) m1 =>
      (* new (data_ + size_) T(std::move(data_[size_ - 1])) *)
      match RawMemory_plus (data_ this) (size_ this),
            RawMemory_index (data_ this) (SizeT.sub (size_ this) 1) with
      | Some p, Some l =>
        match b !! l with
        | Some (Some x) =>
          match new_move x m1 with
          | (x', None, m2) =>
            Exn (set_buffer (<[l := Some x']> b) this) (destroy temp m2)
          | (x', Some y, m2) =>
            match place (<[l := Some x']> b) p y m2 with
            | None => Fault
            | Some (b1, m3) =>
              let first := begin this + offset in
              let last := begin this + SizeT.sub (size_ this) 1 in
              match std_move_backward b1 first last (end_ this) m3 with
              | Fault => Fault
              | Exn b2 m4 => Exn (set_buffer b2 this) (destroy temp m4)
              | Ok b2 m4 =>
                (* data_[offset] = std::move(temp) *)
                match RawMemory_index (data_ this) offset with
                | None => Fault
                | Some o =>
                  match b2 !! o with
                  | Some (Some d) =>
                    match assign_move d temp m4 with
                    | (d', temp', ok, m5) =>
                      let b3 := <[o := Some d']> b2 in
                      if ok then
                        Ok (set_size new_size (set_buffer b3 this),
                            begin this + offset) (destroy temp' m5)
                      else Exn (set_buffer b3 this) (destroy temp' m5)
                    end
                  | _ => Fault
                  end
                end
              end
            end
          end
        | _ => Fault
        end
      | _, _ => Fault
      end
    end.

(** Emplace(pos, args...) *)
Definition Emplace (pos : nat) (a : ctor_args) (this : Vector) (m : mach)
  : res (Vector * nat) Vector :=
  if decide (size_ this = Capacity this) then EmplaceWithRealloc pos a this m
  else EmplaceWithoutRealloc pos a this m.

(** Insert(pos, const T& value) *)
Definition Insert_copy (pos : nat) (value : operand) (this : Vector)
    (m : mach) : res (Vector * nat) Vector :=
  Emplace pos (CopyOf value) this m.

(** Insert(pos, T&& value) *)
Definition Insert_move (pos : nat) (value : operand) (this : Vector)
    (m : mach) : res (Vector * nat) Vector :=
  Emplace pos (MoveOf value) this m.

(** EmplaceBack(args...): the vector and the slot of the element the
    returned reference is bound to. *)
Definition EmplaceBack (a : ctor_args) (this : Vector) (m : mach)
  : res (Vector * nat) Vector :=
  Emplace (end_ this) a this m.

Definition forget {A B S : Type} (r : res (A * B) S) : res A S :=
  match r with
  | Ok (a, _) m => Ok a m
  | Exn e m => Exn e m
  | Fault => Fault
  end.

(** PushBack(const T& value) *)
Definition PushBack_copy (value : operand) (this : Vector) (m : mach)
  : res Vector Vector :=
  forget (EmplaceBack (CopyOf value) this m).

(** PushBack(T&& value) *)
Definition PushBack_move (value : operand) (this : Vector) (m : mach)
  : res Vector Vector :=
  forget (EmplaceBack (MoveOf value) this m).

(** *** Operations on two vector objects

    The objects live at addresses in a store, so that both operands may
    be one and the same object. *)

Definition addr : Type := nat.

(** The body of operator=(const Vector& rhs) for this != &rhs. *)
Definition copy_assign_distinct (this rhs : Vector) (m : mach)
  : res Vector Vector :=
  if decide (capacity_ (data_ this) < size_ rhs) then
    (* Vector rhs_copy(rhs); Swap(rhs_copy); *)
    match Vector_copy rhs m with
    | Fault => Fault
    | Exn _ m1 => Exn this m1
    | Ok rhs_copy m1 =>
      let '(this1, rhs_copy1) := Swap this rhs_copy in
      match Vector_dtor rhs_copy1 m1 with
      | Some m2 => Ok this1 m2
      | None => Fault
      end
    end
  else
    let count := size_ rhs `min` size_ this in
    match copy_n (region rhs) 0 count (region this) 0 m with
    | Fault => Fault
    | Exn b m1 => Exn (set_buffer b this) m1
    | Ok b m1 =>
      if decide (size_ rhs < size_ this) then
        match RawMemory_plus (data_ this) (size_ rhs) with
        | None => Fault
        | Some p =>
          match destroy_n b p (SizeT.sub (size_ this) (size_ rhs)) m1 with
          | None => Fault
          | Some (b1, m2) => Ok (set_size (size_ rhs) (set_buffer b1 this)) m2
          end
        end
      else
        match uninitialized_copy_n (region rhs) (size_ this)
                (SizeT.sub (size_ rhs) (size_ this)) b (size_ this) m1 with
        | Fault => Fault
        | Exn b1 m2 => Exn (set_buffer b1 this) m2
        | Ok b1 m2 => Ok (set_size (size_ rhs) (set_buffer b1 this)) m2
        end
    end.

(** operator=(const Vector& rhs) on the objects at [this] and [rhs]. *)
Definition operator_assign (this rhs : addr) (s : gmap addr Vector)
    (m : mach) : res (gmap addr Vector) (gmap addr Vector) :=
  match s !! this, s !! rhs with
  | Some v, Some r =>
    if decide (this ≠ rhs) then
      match copy_assign_distinct v r m with
      | Ok v1 m1 => Ok (<[this := v1]> s) m1
      | Exn v1 m1 => Exn (<[this := v1]> s) m1
      | Fault => Fault
      end
    else Ok s m
  | _, _ => Fault
  end.

(** operator=(Vector&& rhs) noexcept on the objects at [this] and [rhs]:
      data_ = std::move(rhs.data_);
      size_ = std::exchange(rhs.size_, 0);
    where RawMemory's move assignment is
      buffer_ = std::exchange(other.buffer_, nullptr);
      capacity_ = std::exchange(other.capacity_, 0);
    The region [buffer_] pointed to before is not released: it and the
    objects in it are lost. *)
Definition operator_assign_move (this rhs : addr) (s : gmap addr Vector)
    (m : mach) : option (gmap addr Vector * mach) :=
  r ← s !! rhs;
  let s1 := <[rhs := set_buffer [] r]> s in
  v ← s1 !! this;
  let m1 := leak (live_objects (region v)) m in
  let s2 := <[this := set_buffer (region r) v]> s1 in
  r2 ← s2 !! rhs;
  let s3 := <[rhs := set_capacity 0 r2]> s2 in
  v3 ← s3 !! this;
  let s4 := <[this := set_capacity (capacity_ (data_ r2)) v3]> s3 in
  r4 ← s4 !! rhs;
  let s5 := <[rhs := set_size 0 r4]> s4 in
  v5 ← s5 !! this;
  Some (<[this := set_size (size_ r4) v5]> s5, m1).

(** Swap(Vector& other) noexcept on the objects at [this] and [other]. *)
Definition Swap_at (this other : addr) (s : gmap addr Vector)
  : option (gmap addr Vector) :=
  v ← s !! this;
  o ← s !! other;
  Some (<[other := v]> (<[this := o]> s)).

(** Vector(Vector&& other) noexcept, constructing the object at the
    address [this] (whose storage holds no object yet) from the object at
    [other]:
      data_(std::move(other.data_))
      size_ = std::exchange(other.size_, 0);
    where RawMemory(RawMemory&& other) is
      buffer_ = std::exchange(other.buffer_, nullptr);
      capacity_ = std::exchange(other.capacity_, 0);
    The members of the new object start as their default member
    initializers leave them. *)
Definition Vector_move_at (this other : addr) (s : gmap addr Vector)
    (m : mach) : res (gmap addr Vector) unit :=
  match s !! this with
  | Some _ => Fault
  | None =>
    let s0 := <[this := Vector_default]> s in
    match s0 !! other with
    | None => Fault
    | Some o =>
      let s1 := <[other := set_buffer [] o]> s0 in
      match s1 !! this with
      | None => Fault
      | Some v =>
        let s2 := <[this := set_buffer (region o) v]> s1 in
        match s2 !! other with
        | None => Fault
        | Some o2 =>
          let s3 := <[other := set_capacity 0 o2]> s2 in
          match s3 !! this with
          | None => Fault
          | Some v3 =>
            let s4 := <[this := set_capacity (capacity_ (data_ o2)) v3]> s3 in
            match s4 !! other with
            | None => Fault
            | Some o4 =>
              let s5 := <[other := set_size 0 o4]> s4 in
              match s5 !! this with
              | None => Fault
              | Some v5 => Ok (<[this := set_size (size_ o4) v5]> s5) m
              end
            end
          end
        end
      end
    end
  end.

End Model.

Arguments RawMemory : clear implicits.
Arguments Vector : clear implicits.
Arguments operand : clear implicits.
Arguments ctor_args : clear implicits.

(** ** Element types used in the examples *)

(** An [int]-like type: nothing throws, a move leaves its source as it
    is, allocation always succeeds. *)
#[export] Instance int_element : Element nat unit := {|
  sizeof_T := 4;
  value_init w := (w, Some 0);
  copy_ctor x w := (w, Some x);
  move_ctor x w := (w, (x, Some x));
  copy_assign d x w := (w, (x, true));
  move_assign d x w := (w, (x, x, true));
  dtor x w := w;
  operator_new n w := (w, true);
  is_nothrow_move_constructible := true;
  is_copy_constructible := true
|}.

(** A copyable type whose constructions and assignments throw once a
    countdown has run out (the world is the number of operations that
    still succeed); it has no non-throwing move. *)
#[export] Instance fragile_element : Element nat nat := {|
  sizeof_T := 4;
  value_init w := match w with 0 => (0, None) | S w' => (w', Some 0) end;
  copy_ctor x w := match w with 0 => (0, None) | S w' => (w', Some x) end;
  move_ctor x w := match w with 0 => (0, (x, None)) | S w' => (w', (x, Some x)) end;
  copy_assign d x w := match w with 0 => (0, (d, false)) | S w' => (w', (x, true)) end;
  move_assign d x w :=
    match w with 0 => (0, (d, x, false)) | S w' => (w', (x, x, true)) end;
  dtor x w := w;
  operator_new n w := (w, true);
  is_nothrow_move_constructible := false;
  is_copy_constructible := true
|}.

(** A move-only handle ([None] is the empty, moved-from handle) whose move
    operations throw once the countdown has run out.  Its copy operations
    are deleted; they stand here as operations that always fail, and the
    container does not call them. *)
#[export] Instance handle_element : Element (option nat) nat := {|
  sizeof_T := 8;
  value_init w := (w, Some None);
  copy_ctor x w := (w, None);
  move_ctor x w := match w with 0 => (0, (x, None)) | S w' => (w', (None, Some x)) end;
  copy_assign d x w := (w, (d, false));
  move_assign d x w :=
    match w with 0 => (0, (d, x, false)) | S w' => (w', (x, None, true)) end;
  dtor x w := w;
  operator_new n w := (w, true);
  is_nothrow_move_constructible := false;
  is_copy_constructible := false
|}.

(** A copyable resource (the flag tells whether it is engaged) whose copy
    constructions and assignments throw once the countdown has run out;
    its move construction never throws in fact, but is not declared
    noexcept, and leaves the source disengaged. *)
#[export] Instance resource_element : Element (bool * nat) nat := {|
  sizeof_T := 16;
  value_init w := (w, Some (false, 0));
  copy_ctor x w := match w with 0 => (0, None) | S w' => (w', Some x) end;
  move_ctor x w := (w, ((false, x.2), Some x));
  copy_assign d x w := match w with 0 => (0, (d, false)) | S w' => (w', (x, true)) end;
  move_assign d x w := (w, (x, (false, x.2), true));
  dtor x w := w;
  operator_new n w := (w, true);
  is_nothrow_move_constructible := false;
  is_copy_constructible := true
|}.

(** ** Vocabulary of the specifications *)

Section Vocabulary.
Context {T W : Type} `{!Element T W}.

(** A run of live objects, and a run of raw slots. *)
Definition cells (xs : list T) : list (option T) := Some <$> xs.
Definition raw (n : nat) : list (option T) := replicate n None.

(** The vector holding [xs] in a region of [cap] slots: the slots below
    the length hold the elements, the slots from the length on are raw
    memory. *)
Definition vector_of (xs : list T) (cap : nat) : Vector T :=
  {| data_ := {| buffer_ := cells xs ++ raw (cap - length xs);
                 capacity_ := cap |};
     size_ := length xs |}.

(** The elements of a vector, read off its region. *)
Definition elements (this : Vector T) : list T :=
  omap id (take (size_ this) (region this)).

(** The invariant of the container: the length is at most the capacity,
    which is the size of the region; the slots below the length hold the
    elements and the slots from the length on are raw memory. *)
Definition canonical (this : Vector T) : Prop :=
  ∃ xs cap, this = vector_of xs cap ∧ length xs ≤ cap ∧ SizeT.fits cap.

(** The state an insertion in the middle leaves behind when its shift
    throws: slot [size_] holds an object that the length does not count. *)
Definition stranded (this : Vector T) : Prop :=
  ∃ ws cap, this = set_size (length ws - 1) (vector_of ws cap)
            ∧ 0 < length ws ≤ cap ∧ SizeT.fits cap.

(** Running the destructors of [xs] in turn. *)
Definition destroy_all (xs : list T) (m : mach T W) : mach T W :=
  foldl (λ m x, destroy x m) m xs.

(** [m'] is reached from [m] by calls that all satisfy [P]. *)
Definition log_grows (P : event T → Prop) (m m' : mach T W) : Prop :=
  ∃ evs, log m' = log m ++ evs ∧ Forall P evs.

(** The machine state an outcome ends in. *)
Definition final {A E : Type} (r : res T W A E) : option (mach T W) :=
  match r with
  | Ok _ m => Some m
  | Exn _ m => Some m
  | Fault => None
  end.

(** Value semantics of [T]: a completed copy or move construction makes
    an object equal to its source, a completed assignment makes the
    target equal to the source. *)
Definition copy_ctor_copies : Prop :=
  ∀ x w w' y, copy_ctor x w = (w', Some y) → y = x.
Definition move_ctor_moves : Prop :=
  ∀ x w w' x' y, move_ctor x w = (w', (x', Some y)) → y = x.
Definition copy_assign_copies : Prop :=
  ∀ d x w w' d', copy_assign d x w = (w', (d', true)) → d' = x.
Definition move_assign_moves : Prop :=
  ∀ d x w w' d' x', move_assign d x w = (w', (d', x', true)) → d' = x.

Definition value_semantics : Prop :=
  copy_ctor_copies ∧ move_ctor_moves ∧ copy_assign_copies ∧ move_assign_moves.

(** [n] objects of [T] take a number of bytes that size_t can hold: the
    product n * sizeof(T) of Allocate(n) does not wrap. *)
Definition allocatable (n : nat) : Prop := SizeT.fits (n * sizeof_T).

(** [x'] is a state the move constructor can leave the source [x] in. *)
Definition moved_from (x x' : T) : Prop :=
  ∃ w, (move_ctor x w).2.1 = x'.

(** [z] is a value the default constructor T() can produce. *)
Definition value_initialized (z : T) : Prop :=
  ∃ w w', value_init w = (w', Some z).

(** An element type none of whose operations throws, with an allocator
    that always delivers. *)
Definition never_throws : Prop :=
  (∀ w, (value_init w).2 ≠ None)
  ∧ (∀ x w, (copy_ctor x w).2 ≠ None)
  ∧ (∀ x w, (move_ctor x w).2.2 ≠ None)
  ∧ (∀ d x w, (copy_assign d x w).2.2 = true)
  ∧ (∀ d x w, (move_assign d x w).2.2 = true)
  ∧ (∀ n w, (operator_new n w).2 = true).

(** The outcome is not an exception. *)
Definition no_exception {A E : Type} (r : res T W A E) : Prop :=
  match r with
  | Exn _ _ => False
  | _ => True
  end.

(** What std::is_nothrow_move_constructible_v<T> promises. *)
Definition nothrow_move_sound : Prop :=
  is_nothrow_move_constructible = true →
  ∀ x w, (move_ctor x w).2.2 ≠ None.

(** The condition of the [if constexpr] in CopyOrMoveData. *)
Definition relocates_by_move : bool :=
  is_nothrow_move_constructible || negb is_copy_constructible.


Definition is_copy_construction (e : event T) : Prop :=
  match e with EvCopyCtor _ => True | _ => False end.
Definition is_move_construction (e : event T) : Prop :=
  match e with EvMoveCtor _ => True | _ => False end.
Definition is_allocation (e : event T) : Prop :=
  match e with EvAlloc _ => True | _ => False end.
Definition is_release (e : event T) : Prop :=
  match e with EvFree _ => True | _ => False end.
Definition is_destruction (e : event T) : Prop :=
  match e with EvDtor _ => True | _ => False end.
Definition is_copy_assignment (e : event T) : Prop :=
  match e with EvCopyAssign _ _ => True | _ => False end.
Definition is_move_assignment (e : event T) : Prop :=
  match e with EvMoveAssign _ _ => True | _ => False end.
Definition is_construction (e : event T) : Prop :=
  match e with
  | EvCtor | EvCopyCtor _ | EvMoveCtor _ => True
  | _ => False
  end.

(** The number of calls of a constructor with arguments, of a copy or
    of a move constructor in a log. *)
Fixpoint constructions (evs : list (event T)) : nat :=
  match evs with
  | [] => 0
  | (EvCtor | EvCopyCtor _ | EvMoveCtor _) :: rest => S (constructions rest)
  | _ :: rest => constructions rest
  end.

(** The call that constructs the new element of an Emplace. *)
Definition construction_event (a : ctor_args T W) (buf : list (option T))
  : option (event T) :=
  match a with
  | Args _ => Some EvCtor
  | CopyOf (Outside x) => Some (EvCopyCtor x)
  | MoveOf (Outside x) => Some (EvMoveCtor x)
  | CopyOf (Own i) => EvCopyCtor <$> (buf !! i ≫= id)
  | MoveOf (Own i) => EvMoveCtor <$> (buf !! i ≫= id)
  end.

(** [supplies a xs V ys]: constructing from the arguments [a] while the
    vector holds [xs] can yield the value [V] and leave the vector
    holding [ys] (which is [xs], unless [a] moves from an own element). *)
Definition supplies (a : ctor_args T W) (xs : list T) (V : T) (ys : list T)
  : Prop :=
  match a with
  | Args mk => (∃ w w', mk w = (w', Some V)) ∧ ys = xs
  | CopyOf (Outside x) => V = x ∧ ys = xs
  | MoveOf (Outside x) => V = x ∧ ys = xs
  | CopyOf (Own i) => xs !! i = Some V ∧ ys = xs
  | MoveOf (Own i) => xs !! i = Some V ∧ ∃ x', ys = <[i := x']> xs
  end.

(** The arguments are usable while the vector holds [n] elements: a
    reference to an own element designates one of them. *)
Definition valid_args (a : ctor_args T W) (n : nat) : Prop :=
  match a with
  | CopyOf (Own i) | MoveOf (Own i) => i < n
  | _ => True
  end.

(** The constructor the arguments select does not throw. *)
Definition args_never_throw (a : ctor_args T W) : Prop :=
  match a with
  | Args mk => ∀ w, (mk w).2 ≠ None
  | _ => True
  end.

(** [left_by a xs ys]: constructing from the arguments [a] while the
    vector holds [xs] leaves it holding [ys]: the same elements, except
    that an own element the new one is moved from is left in the state
    its move constructor leaves it in. *)
Definition left_by (a : ctor_args T W) (xs ys : list T) : Prop :=
  match a with
  | MoveOf (Own i) => ys = xs ∨ ∃ x', ys = <[i := x']> xs
  | _ => ys = xs
  end.

(** The capacity an insertion into a full vector of length [n]
    allocates. *)
Definition grown (n : nat) : nat := 1 `max` (2 * n).

(** The capacity after [n] appends to an empty vector: 0, 1, 2, 4, 4,
    8, 8, 8, 8, 16, ... *)
Definition capacity_after (n : nat) : nat :=
  match n with
  | 0 => 0
  | S _ => 2 ^ Nat.log2_up n
  end.

(** Appending one element after the other. *)
Fixpoint push_all (args : list (ctor_args T W)) (this : Vector T)
    (m : mach T W) : res T W (Vector T) (Vector T) :=
  match args with
  | [] => Ok this m
  | a :: rest =>
    match EmplaceBack a this m with
    | Ok (this1, _) m1 => push_all rest this1 m1
    | Exn this1 m1 => Exn this1 m1
    | Fault => Fault
    end
  end.

End Vocabulary.

Arguments cells : simpl never.
Arguments raw : simpl never.

Definition start {T W : Type} (w : W) : mach T W := Mach w [] [].

(** * Proofs *)

(** ** size_t arithmetic without overflow *)

Lemma fits_le a b : a ≤ b → SizeT.fits b → SizeT.fits a.
Proof. unfold SizeT.fits, SizeT.modulus. lia. Qed.

Lemma wrap_fits n : SizeT.fits n → SizeT.wrap (N.of_nat n) = n.
Proof.
  unfold SizeT.fits, SizeT.wrap. intros Hn.
  rewrite N.mod_small by done. apply Nat2N.id.
Qed.

Lemma size_t_add a b : SizeT.fits (a + b) → SizeT.add a b = a + b.
Proof.
  intros Hf. unfold SizeT.add. rewrite <- Nat2N.inj_add. by apply wrap_fits.
Qed.

Lemma size_t_mul a b : SizeT.fits (a * b) → SizeT.mul a b = a * b.
Proof.
  intros Hf. unfold SizeT.mul. rewrite <- Nat2N.inj_mul. by apply wrap_fits.
Qed.

Lemma size_t_sub a b : b ≤ a → SizeT.fits a → SizeT.sub a b = a - b.
Proof.
  unfold SizeT.sub, SizeT.fits, SizeT.wrap. intros Hle Hf.
  rewrite (N.mod_small (N.of_nat b)) by lia.
  replace (N.of_nat a + SizeT.modulus - N.of_nat b)%N
    with (N.of_nat (a - b) + 1 * SizeT.modulus)%N by lia.
  rewrite N.Div0.mod_add. rewrite N.mod_small by lia. apply Nat2N.id.
Qed.

Section Regions.
Context {T : Type}.
Implicit Types (xs ys : list T) (pre post buf : list (option T)).

(** ** Regions *)

Lemma length_cells xs : length (cells xs) = length xs.
Proof. apply length_fmap. Qed.

Lemma length_raw n : length (raw (T:=T) n) = n.
Proof. apply length_replicate. Qed.

Lemma cells_app xs ys : cells (xs ++ ys) = cells xs ++ cells ys.
Proof. apply fmap_app. Qed.

Lemma cells_cons x xs : cells (x :: xs) = Some x :: cells xs.
Proof. done. Qed.

Lemma cells_nil : cells (@nil T) = [].
Proof. done. Qed.

Lemma raw_S n : raw (T:=T) (S n) = None :: raw n.
Proof. done. Qed.

Lemma raw_add n k : raw (T:=T) (n + k) = raw n ++ raw k.
Proof. apply replicate_add. Qed.

Lemma live_objects_cells xs : live_objects (cells xs) = xs.
Proof.
  unfold live_objects, cells. induction xs as [|x xs IH]; [done|].
  csimpl. by rewrite IH.
Qed.

Lemma live_objects_raw n : live_objects (raw (T:=T) n) = [].
Proof. unfold live_objects, raw. induction n as [|n IH]; [done|]. csimpl. by rewrite IH. Qed.

Lemma live_objects_app buf1 buf2 :
  live_objects (buf1 ++ buf2) = live_objects buf1 ++ live_objects buf2.
Proof. apply omap_app. Qed.

(** The slot just behind [pre]. *)
Lemma lookup_behind pre (c : option T) post :
  (pre ++ c :: post) !! length pre = Some c.
Proof. by apply list_lookup_middle. Qed.

Lemma insert_behind pre (c c' : option T) post :
  <[length pre := c']> (pre ++ c :: post) = pre ++ c' :: post.
Proof. rewrite insert_app_r_alt by lia. by rewrite Nat.sub_diag. Qed.

Lemma lookup_at pre (c : option T) post i :
  length pre = i → (pre ++ c :: post) !! i = Some c.
Proof. intros <-. apply lookup_behind. Qed.

Lemma insert_at pre (c c' : option T) post i :
  length pre = i → <[i := c']> (pre ++ c :: post) = pre ++ c' :: post.
Proof. intros <-. apply insert_behind. Qed.

Lemma snoc_app pre (c : option T) post : pre ++ c :: post = (pre ++ [c]) ++ post.
Proof. by rewrite <- app_assoc. Qed.

Lemma app_tail_eq pre post post' : post = post' → pre ++ post = pre ++ post'.
Proof. by intros ->. Qed.

Lemma cons_tail_eq (c : option T) post post' :
  post = post' → c :: post = c :: post'.
Proof. by intros ->. Qed.

Lemma raw_add_sub k n : k ≤ n → raw (T:=T) n = raw k ++ raw (n - k).
Proof. intros Hk. rewrite <- raw_add. f_equal. lia. Qed.

Lemma raw_eq n k : n = k → raw (T:=T) n = raw k.
Proof. by intros ->. Qed.
End Regions.

Ltac len :=
  do 3 (rewrite ?length_app, ?length_drop, ?length_take, ?length_insert,
          ?length_cells, ?length_raw in *; cbn [length] in * );
  lia.

Ltac norm_cells :=
  repeat (progress (rewrite ?cells_app, ?cells_cons, ?cells_nil, <- ?app_assoc;
                    cbn [app])).

Ltac buf_eq :=
  norm_cells; repeat first [apply app_tail_eq | apply cons_tail_eq];
  first [done | apply raw_eq; len].

Ltac vec :=
  unfold set_size, set_buffer, set_region, region;
  cbn [vector_of data_ size_ capacity_ buffer_].

Section Proofs.
Context {T W : Type} `{!Element T W}.
Implicit Types (xs ys zs us vs ws : list T) (m : mach T W).
Implicit Types (buf pre post : list (option T)).

(** ** The log *)

Lemma log_grows_refl P m : log_grows P m m.
Proof. exists []. by rewrite app_nil_r. Qed.

Lemma log_grows_trans P m1 m2 m3 :
  log_grows P m1 m2 → log_grows P m2 m3 → log_grows P m1 m3.
Proof.
  intros (e1 & H1 & F1) (e2 & H2 & F2). exists (e1 ++ e2).
  split; [by rewrite H2, H1, app_assoc | by apply Forall_app].
Qed.

Lemma log_grows_weaken (P Q : event T → Prop) m m' :
  (∀ e, P e → Q e) → log_grows P m m' → log_grows Q m m'.
Proof.
  intros HPQ (evs & H1 & F1). exists evs. split; [done|].
  eapply Forall_impl; eauto.
Qed.

Ltac weaken_log H :=
  eapply log_grows_weaken; [|exact H]; intros ?; simpl; tauto.

Lemma log_grows_emit (P : event T → Prop) e w m : P e → log_grows P m (emit e w m).
Proof. intros He. exists [e]. split; [done | by constructor]. Qed.

Lemma log_grows_leak P xs m : log_grows P m (leak xs m).
Proof. exists []. by rewrite app_nil_r. Qed.

(** ** destroy_n *)

Lemma destroy_all_log xs m : log (destroy_all xs m) = log m ++ (EvDtor <$> xs).
Proof.
  revert m. induction xs as [|x xs IH]; intros m; simpl.
  - by rewrite app_nil_r.
  - rewrite IH. simpl. by rewrite <- app_assoc.
Qed.

Lemma destroy_all_leaked xs m : leaked (destroy_all xs m) = leaked m.
Proof. revert m. induction xs as [|x xs IH]; intros m; simpl; [done|]. by rewrite IH. Qed.

Lemma destroy_all_app xs ys m :
  destroy_all (xs ++ ys) m = destroy_all ys (destroy_all xs m).
Proof. apply foldl_app. Qed.

Lemma destroy_n_cells xs pre post m :
  destroy_n (pre ++ cells xs ++ post) (length pre) (length xs) m
  = Some (pre ++ raw (length xs) ++ post, destroy_all xs m).
Proof.
  revert pre m. induction xs as [|x xs IH]; intros pre m; [done|].
  cbn [destroy_n length]. unfold destroy_at. rewrite cells_cons, raw_S. cbn [app].
  rewrite lookup_behind, insert_behind.
  rewrite snoc_app.
  replace (S (length pre)) with (length (pre ++ [None (A:=T)]))
    by (rewrite length_app; simpl; lia).
  rewrite IH. by rewrite <- app_assoc.
Qed.

Lemma destroy_n_front xs post m :
  destroy_n (cells xs ++ post) 0 (length xs) m
  = Some (raw (length xs) ++ post, destroy_all xs m).
Proof. apply (destroy_n_cells xs []). Qed.

(** ** std::uninitialized_copy_n *)

Lemma place_raw pre post x m :
  place (pre ++ None :: post) (length pre) x m = Some (pre ++ Some x :: post, m).
Proof. unfold place. by rewrite lookup_behind, insert_behind. Qed.

Lemma place_at pre post k x m :
  length pre = k →
  place (pre ++ None :: post) k x m = Some (pre ++ Some x :: post, m).
Proof. intros <-. apply place_raw. Qed.

Lemma destroy_n_at xs pre post i k m :
  length pre = i → length xs = k →
  destroy_n (pre ++ cells xs ++ post) i k m
  = Some (pre ++ raw k ++ post, destroy_all xs m).
Proof. intros <- <-. apply destroy_n_cells. Qed.

Lemma destroy_n_front_at xs post k m :
  length xs = k →
  destroy_n (cells xs ++ post) 0 k m = Some (raw k ++ post, destroy_all xs m).
Proof. intros <-. apply destroy_n_front. Qed.

Lemma destroy_one pre post k x m :
  length pre = k →
  destroy_n (pre ++ Some x :: post) k 1 m = Some (pre ++ None :: post, destroy x m).
Proof. intros <-. apply (destroy_n_cells [x]). Qed.

Lemma uninitialized_copy_loop_spec xs spre spost done dpre dpost m :
  match uninitialized_copy_loop (spre ++ cells xs ++ spost) (length spre)
          (length xs) (dpre ++ cells done ++ raw (length xs) ++ dpost)
          (length dpre) (length dpre + length done) m with
  | Ok d m' =>
      ∃ ys, length ys = length xs
            ∧ d = dpre ++ cells (done ++ ys) ++ dpost
            ∧ leaked m' = leaked m
            ∧ log m' = log m ++ (EvCopyCtor <$> xs)
            ∧ (copy_ctor_copies → ys = xs)
  | Exn d m' =>
      d = dpre ++ raw (length done + length xs) ++ dpost
      ∧ leaked m' = leaked m
  | Fault => False
  end.
Proof.
  revert spre done m. induction xs as [|x xs IH]; intros spre done m;
    cbn [uninitialized_copy_loop length].
  - exists []. rewrite !app_nil_r. by repeat split.
  - rewrite cells_cons, raw_S. cbn [app]. rewrite lookup_behind. unfold new_copy.
    destruct (copy_ctor x (world m)) as [w [y|]] eqn:Hc.
    + assert (Hcur : length dpre + length done = length (dpre ++ cells done))
        by (by rewrite length_app, length_cells).
      rewrite Hcur, (app_assoc dpre), place_raw.
      rewrite (snoc_app spre), <- Hcur.
      specialize (IH (spre ++ [Some x]) (done ++ [y]) (emit (EvCopyCtor x) w m)).
      rewrite !length_app in IH. simpl in IH.
      replace (S (length spre)) with (length spre + 1) by lia.
      replace (S (length dpre + length done))
        with (length dpre + (length done + 1)) by lia.
      replace ((dpre ++ cells done) ++ Some y :: raw (length xs) ++ dpost)
        with (dpre ++ cells (done ++ [y]) ++ raw (length xs) ++ dpost)
        by (by rewrite cells_app, <- !app_assoc).
      destruct (uninitialized_copy_loop _ _ _ _ _ _ _) as [d m'|d m'|]; [| |done].
      * destruct IH as (ys & Hlen & -> & Hleak & Hlog & Hval).
        exists (y :: ys). simpl. rewrite <- app_assoc. simpl.
        repeat split; [lia | done | | ].
        -- rewrite Hlog. simpl. by rewrite <- app_assoc.
        -- intros Hcopy. rewrite (Hval Hcopy). f_equal. eapply Hcopy, Hc.
      * destruct IH as [-> Hleak]. split; [|done]. f_equal. f_equal. f_equal. lia.
    + unfold rollback.
      replace (length dpre + length done - length dpre) with (length done) by lia.
      rewrite destroy_n_cells. split.
      * by rewrite raw_add, <- app_assoc.
      * by rewrite destroy_all_leaked.
Qed.

Lemma uninitialized_copy_n_spec xs spre spost dpre dpost m :
  match uninitialized_copy_n (spre ++ cells xs ++ spost) (length spre)
          (length xs) (dpre ++ raw (length xs) ++ dpost) (length dpre) m with
  | Ok d m' =>
      ∃ ys, length ys = length xs
            ∧ d = dpre ++ cells ys ++ dpost
            ∧ leaked m' = leaked m
            ∧ log m' = log m ++ (EvCopyCtor <$> xs)
            ∧ (copy_ctor_copies → ys = xs)
  | Exn d m' => d = dpre ++ raw (length xs) ++ dpost ∧ leaked m' = leaked m
  | Fault => False
  end.
Proof.
  pose proof (uninitialized_copy_loop_spec xs spre spost [] dpre dpost m) as H.
  simpl in H. rewrite Nat.add_0_r in H. exact H.
Qed.

Lemma uninitialized_copy_loop_full xs spre spost got dpre dpost m :
  match uninitialized_copy_loop (spre ++ cells xs ++ spost) (length spre)
          (length xs) (dpre ++ cells got ++ raw (length xs) ++ dpost)
          (length dpre) (length dpre + length got) m with
  | Ok d m' => True
  | Exn d m' =>
      ∃ ys, length ys < length xs
        ∧ log m' = log m ++ (EvCopyCtor <$> take (S (length ys)) xs)
                     ++ (EvDtor <$> (got ++ ys))
        ∧ (copy_ctor_copies → ys = take (length ys) xs)
  | Fault => False
  end.
Proof.
  revert spre got m. induction xs as [|x xs IH]; intros spre got m;
    cbn [uninitialized_copy_loop length]; [done|].
  rewrite cells_cons, raw_S. cbn [app]. rewrite lookup_behind. unfold new_copy.
  destruct (copy_ctor x (world m)) as [w [y|]] eqn:Hc.
  + assert (Hcur : length dpre + length got = length (dpre ++ cells got))
      by (by rewrite length_app, length_cells).
    rewrite Hcur, (app_assoc dpre), place_raw.
    rewrite (snoc_app spre), <- Hcur.
    specialize (IH (spre ++ [Some x]) (got ++ [y]) (emit (EvCopyCtor x) w m)).
    rewrite !length_app in IH. simpl in IH.
    replace (S (length spre)) with (length spre + 1) by lia.
    replace (S (length dpre + length got))
      with (length dpre + (length got + 1)) by lia.
    replace ((dpre ++ cells got) ++ Some y :: raw (length xs) ++ dpost)
      with (dpre ++ cells (got ++ [y]) ++ raw (length xs) ++ dpost)
      by (by rewrite cells_app, <- !app_assoc).
    destruct (uninitialized_copy_loop _ _ _ _ _ _ _) as [d m'|d m'|]; [done| |done].
    destruct IH as (ys & Hlen & Hlog & Hval).
    exists (y :: ys). split_and!; [simpl; lia | |].
    * rewrite Hlog. simpl. by rewrite <- !app_assoc.
    * intros Hcopy. simpl. rewrite <- (Hval Hcopy). f_equal. eapply Hcopy, Hc.
  + unfold rollback.
    replace (length dpre + length got - length dpre) with (length got) by lia.
    rewrite destroy_n_cells.
    exists []. split_and!; [simpl; lia | | done].
    rewrite destroy_all_log, app_nil_r. simpl. by rewrite <- app_assoc.
Qed.


(** ** std::uninitialized_move_n *)

Lemma uninitialized_move_loop_spec xs spre spost done dpre dpost m :
  match uninitialized_move_loop (spre ++ cells xs ++ spost) (length spre)
          (length xs) (dpre ++ cells done ++ raw (length xs) ++ dpost)
          (length dpre) (length dpre + length done) m with
  | Ok (s, d) m' =>
      ∃ xs' ys, length xs' = length xs ∧ length ys = length xs
            ∧ s = spre ++ cells xs' ++ spost
            ∧ d = dpre ++ cells (done ++ ys) ++ dpost
            ∧ leaked m' = leaked m
            ∧ log m' = log m ++ (EvMoveCtor <$> xs)
            ∧ (move_ctor_moves → ys = xs)
  | Exn (s, d) m' =>
      (∃ xs', length xs' = length xs ∧ s = spre ++ cells xs' ++ spost)
      ∧ d = dpre ++ raw (length done + length xs) ++ dpost
      ∧ leaked m' = leaked m
      ∧ ∃ x w, (move_ctor x w).2.2 = None
  | Fault => False
  end.
Proof.
  revert spre done m. induction xs as [|x xs IH]; intros spre done m;
    cbn [uninitialized_move_loop length].
  - exists [], []. rewrite !app_nil_r. by repeat split.
  - rewrite cells_cons, raw_S. cbn [app]. rewrite lookup_behind.
    unfold new_move.
    destruct (move_ctor x (world m)) as [w [x' [y|]]] eqn:Hc;
      rewrite insert_behind.
    + assert (Hcur : length dpre + length done = length (dpre ++ cells done))
        by (by rewrite length_app, length_cells).
      rewrite Hcur, (app_assoc dpre), place_raw.
      rewrite (snoc_app spre), <- Hcur.
      specialize (IH (spre ++ [Some x']) (done ++ [y]) (emit (EvMoveCtor x) w m)).
      rewrite !length_app in IH. simpl in IH.
      replace (S (length spre)) with (length spre + 1) by lia.
      replace (S (length dpre + length done))
        with (length dpre + (length done + 1)) by lia.
      replace ((dpre ++ cells done) ++ Some y :: raw (length xs) ++ dpost)
        with (dpre ++ cells (done ++ [y]) ++ raw (length xs) ++ dpost)
        by (by rewrite cells_app, <- !app_assoc).
      destruct (uninitialized_move_loop _ _ _ _ _ _ _)
        as [[s d] m'|[s d] m'|]; [| |done].
      * destruct IH as (xs' & ys & Hlen' & Hlen & -> & -> & Hleak & Hlog & Hval).
        exists (x' :: xs'), (y :: ys). simpl. rewrite <- !app_assoc. simpl.
        split_and!; [lia | lia | done | done | done | | ].
        -- rewrite Hlog. simpl. by rewrite <- app_assoc.
        -- intros Hmove. rewrite (Hval Hmove). f_equal. eapply Hmove, Hc.
      * destruct IH as ((xs' & Hlen' & ->) & -> & Hleak & Hthrow).
        split_and!; [| | done | done].
        -- exists (x' :: xs'). simpl. rewrite <- app_assoc. split; [lia | done].
        -- f_equal. f_equal. f_equal. lia.
    + unfold rollback.
      replace (length dpre + length done - length dpre) with (length done) by lia.
      rewrite destroy_n_cells. split_and!.
      * exists (x' :: xs). done.
      * by rewrite raw_add, <- app_assoc.
      * by rewrite destroy_all_leaked.
      * exists x, (world m). by rewrite Hc.
Qed.

Lemma uninitialized_move_n_spec xs spre spost dpre dpost m :
  match uninitialized_move_n (spre ++ cells xs ++ spost) (length spre)
          (length xs) (dpre ++ raw (length xs) ++ dpost) (length dpre) m with
  | Ok (s, d) m' =>
      ∃ xs' ys, length xs' = length xs ∧ length ys = length xs
            ∧ s = spre ++ cells xs' ++ spost
            ∧ d = dpre ++ cells ys ++ dpost
            ∧ leaked m' = leaked m
            ∧ log m' = log m ++ (EvMoveCtor <$> xs)
            ∧ (move_ctor_moves → ys = xs)
  | Exn (s, d) m' =>
      (∃ xs', length xs' = length xs ∧ s = spre ++ cells xs' ++ spost)
      ∧ d = dpre ++ raw (length xs) ++ dpost
      ∧ leaked m' = leaked m
      ∧ ∃ x w, (move_ctor x w).2.2 = None
  | Fault => False
  end.
Proof.
  pose proof (uninitialized_move_loop_spec xs spre spost [] dpre dpost m) as H.
  simpl in H. rewrite Nat.add_0_r in H. exact H.
Qed.

(** The sources of a move that throws: those whose relocation has been
    attempted are as their move constructor left them, the others are
    untouched. *)
Lemma uninitialized_move_loop_sources xs spre spost got dpre dpost m :
  match uninitialized_move_loop (spre ++ cells xs ++ spost) (length spre)
          (length xs) (dpre ++ cells got ++ raw (length xs) ++ dpost)
          (length dpre) (length dpre + length got) m with
  | Exn (s, d) m' =>
      ∃ k xs', k ≤ length xs ∧ length xs' = length xs
        ∧ s = spre ++ cells xs' ++ spost
        ∧ Forall2 moved_from (take k xs) (take k xs')
        ∧ drop k xs' = drop k xs
  | _ => True
  end.
Proof.
  revert spre got m. induction xs as [|x xs IH]; intros spre got m;
    cbn [uninitialized_move_loop length]; [done|].
  rewrite cells_cons, raw_S. cbn [app]. rewrite lookup_behind.
  unfold new_move.
  destruct (move_ctor x (world m)) as [w [x' [y|]]] eqn:Hc;
    rewrite insert_behind.
  - assert (Hcur : length dpre + length got = length (dpre ++ cells got))
      by (by rewrite length_app, length_cells).
    rewrite Hcur, (app_assoc dpre), place_raw.
    rewrite (snoc_app spre), <- Hcur.
    specialize (IH (spre ++ [Some x']) (got ++ [y]) (emit (EvMoveCtor x) w m)).
    rewrite !length_app in IH. simpl in IH.
    replace (S (length spre)) with (length spre + 1) by lia.
    replace (S (length dpre + length got))
      with (length dpre + (length got + 1)) by lia.
    replace ((dpre ++ cells got) ++ Some y :: raw (length xs) ++ dpost)
      with (dpre ++ cells (got ++ [y]) ++ raw (length xs) ++ dpost)
      by (by rewrite cells_app, <- !app_assoc).
    destruct (uninitialized_move_loop _ _ _ _ _ _ _)
      as [[s d] m'|[s d] m'|]; [done| |done].
    destruct IH as (k & xs' & Hk & Hlen & -> & Hmoved & Hrest).
    exists (S k), (x' :: xs'). simpl. rewrite <- app_assoc. simpl.
    split_and!; [lia | lia | done | | done].
    constructor; [|done]. exists (world m). by rewrite Hc.
  - unfold rollback.
    replace (length dpre + length got - length dpre) with (length got) by lia.
    rewrite destroy_n_cells.
    exists 1, (x' :: xs). simpl. split_and!; [lia | done | done | | done].
    rewrite take_0. constructor; [|constructor]. exists (world m). by rewrite Hc.
Qed.


(** ** What the algorithms write to the log *)

Lemma destroy_n_log buf first n m buf' m' :
  destroy_n buf first n m = Some (buf', m') → log_grows is_destruction m m'.
Proof.
  revert buf first m. induction n as [|n IH]; intros buf first m; simpl.
  - intros [= <- <-]. apply log_grows_refl.
  - unfold destroy_at. destruct (buf !! first) as [[x|]|]; [|done|done].
    intros Hd. eapply log_grows_trans; [|by eapply IH].
    apply log_grows_emit; simpl; tauto.
Qed.

Lemma rollback_log {A S} dst result cur (k : list (option T) → S) m m' :
  final (rollback (A:=A) dst result cur k m) = Some m' →
  log_grows is_destruction m m'.
Proof.
  unfold rollback.
  destruct (destroy_n _ _ _ _) as [[d m1]|] eqn:Hd; [|done].
  intros [= <-]. by eapply destroy_n_log.
Qed.

Lemma uninitialized_copy_loop_log src first n dst result cur m m' :
  final (uninitialized_copy_loop src first n dst result cur m) = Some m' →
  log_grows (λ e, is_copy_construction e ∨ is_destruction e) m m'.
Proof.
  revert src first dst cur m. induction n as [|n IH]; intros src first dst cur m; simpl.
  - intros [= <-]. apply log_grows_refl.
  - destruct (src !! first) as [[x|]|]; [|done|done]. unfold new_copy.
    destruct (copy_ctor x (world m)) as [w [y|]].
    + unfold place. destruct (dst !! cur) as [[old|]|]; [| |done]; intros Hf.
      * eapply log_grows_trans; [|by eapply IH].
        eapply log_grows_trans; [|apply log_grows_leak].
        apply log_grows_emit; simpl; tauto.
      * eapply log_grows_trans; [|by eapply IH]. apply log_grows_emit; simpl; tauto.
    + intros Hf. eapply log_grows_trans;
        [|eapply log_grows_weaken; [|by eapply rollback_log]; simpl; tauto].
      apply log_grows_emit; simpl; tauto.
Qed.

Lemma uninitialized_move_loop_log src first n dst result cur m m' :
  final (uninitialized_move_loop src first n dst result cur m) = Some m' →
  log_grows (λ e, is_move_construction e ∨ is_destruction e) m m'.
Proof.
  revert src first dst cur m. induction n as [|n IH]; intros src first dst cur m; simpl.
  - intros [= <-]. apply log_grows_refl.
  - destruct (src !! first) as [[x|]|]; [|done|done]. unfold new_move.
    destruct (move_ctor x (world m)) as [w [x' [y|]]].
    + unfold place. destruct (dst !! cur) as [[old|]|]; [| |done]; intros Hf.
      * eapply log_grows_trans; [|by eapply IH].
        eapply log_grows_trans; [|apply log_grows_leak].
        apply log_grows_emit; simpl; tauto.
      * eapply log_grows_trans; [|by eapply IH]. apply log_grows_emit; simpl; tauto.
    + intros Hf. eapply log_grows_trans;
        [|eapply log_grows_weaken; [|by eapply rollback_log]; simpl; tauto].
      apply log_grows_emit; simpl; tauto.
Qed.

Lemma CopyOrMoveData_log src data count dst new_place m m' :
  final (CopyOrMoveData src data count dst new_place m) = Some m' →
  log_grows (λ e, (if relocates_by_move then is_move_construction e
                   else is_copy_construction e) ∨ is_destruction e) m m'.
Proof.
  unfold CopyOrMoveData, relocates_by_move.
  destruct (is_nothrow_move_constructible || negb is_copy_constructible).
  - apply uninitialized_move_loop_log.
  - intros Hf. apply (uninitialized_copy_loop_log src data count dst new_place new_place).
    unfold uninitialized_copy_n in Hf.
    by destruct (uninitialized_copy_loop _ _ _ _ _ _ _).
Qed.

Lemma Deallocate_log buf m : log_grows is_release m (Deallocate buf m).
Proof.
  destruct buf; simpl; [apply log_grows_refl|].
  eapply log_grows_trans; [|apply log_grows_leak].
  apply log_grows_emit; simpl; tauto.
Qed.

(** For a count whose size in bytes size_t can hold, the region Allocate
    returns has the extent of the block operator new was asked for. *)
Lemma Allocate_extent n m buf m' :
  allocatable n → Allocate n m = Ok buf m' →
  length buf * sizeof_T = SizeT.mul n sizeof_T.
Proof.
  intros Ha. rewrite (size_t_mul _ _ Ha). unfold Allocate. case_decide.
  - destruct (operator_new _ (world m)) as [w [|]]; [|done].
    intros [= <- _]. by rewrite length_replicate.
  - intros [= <- _]. simpl. lia.
Qed.

Lemma Allocate_log n m m' :
  final (Allocate n m) = Some m' → log_grows is_allocation m m'.
Proof.
  unfold Allocate. case_decide.
  - destruct (operator_new _ (world m)) as [w [|]]; intros [= <-];
      apply log_grows_emit; simpl; tauto.
  - intros [= <-]. apply log_grows_refl.
Qed.


(** ** CopyOrMoveData *)

Lemma CopyOrMoveData_spec xs spre spost dpre dpost m :
  match CopyOrMoveData (spre ++ cells xs ++ spost) (length spre) (length xs)
          (dpre ++ raw (length xs) ++ dpost) (length dpre) m with
  | Ok (s, d) m' =>
      ∃ xs' ys, length xs' = length xs ∧ length ys = length xs
            ∧ s = spre ++ cells xs' ++ spost
            ∧ d = dpre ++ cells ys ++ dpost
            ∧ leaked m' = leaked m
            ∧ (relocates_by_move = false → xs' = xs)
            ∧ (copy_ctor_copies → move_ctor_moves → ys = xs)
  | Exn (s, d) m' =>
      (∃ xs', length xs' = length xs ∧ s = spre ++ cells xs' ++ spost
              ∧ (relocates_by_move = false → xs' = xs))
      ∧ d = dpre ++ raw (length xs) ++ dpost
      ∧ leaked m' = leaked m
      ∧ (relocates_by_move = true → ∃ x w, (move_ctor x w).2.2 = None)
  | Fault => False
  end.
Proof.
  unfold CopyOrMoveData, relocates_by_move.
  destruct (is_nothrow_move_constructible || negb is_copy_constructible).
  - pose proof (uninitialized_move_n_spec xs spre spost dpre dpost m) as H.
    destruct (uninitialized_move_n _ _ _ _ _ _) as [[s d] m'|[s d] m'|]; [| |done].
    + destruct H as (xs' & ys & ? & ? & ? & ? & ? & ? & ?).
      exists xs', ys. split_and!; auto; done.
    + destruct H as ((xs' & ? & ?) & ? & ? & ?).
      split_and!; try done. exists xs'. by split_and!.
  - pose proof (uninitialized_copy_n_spec xs spre spost dpre dpost m) as H.
    destruct (uninitialized_copy_n _ _ _ _ _ _) as [d m'|d m'|]; [| |done].
    + destruct H as (ys & ? & ? & ? & ? & ?).
      exists xs, ys. split_and!; auto; done.
    + destruct H as (? & ?). split_and!; try done. exists xs. by split_and!.
Qed.


(** ** Vectors in canonical form *)

Lemma region_vector_of xs cap :
  region (vector_of xs cap) = cells xs ++ raw (cap - length xs).
Proof. done. Qed.

Lemma vector_of_eq zs cap b n :
  b = cells zs ++ raw (cap - length zs) → n = length zs →
  {| data_ := {| buffer_ := b; capacity_ := cap |}; size_ := n |}
  = vector_of zs cap.
Proof. by intros -> ->. Qed.

Lemma Deallocate_leaked buf m :
  leaked (Deallocate buf m) = leaked m ++ live_objects buf.
Proof. destruct buf; simpl; [by rewrite app_nil_r | done]. Qed.

Lemma Deallocate_raw n m : leaked (Deallocate (raw n) m) = leaked m.
Proof.
  unfold Deallocate. destruct (raw n) eqn:Hr; [done|].
  rewrite <- Hr. simpl. rewrite live_objects_raw. apply app_nil_r.
Qed.

Lemma Deallocate_raw_log n m :
  log (Deallocate (raw n) m)
  = log m ++ (if decide (n = 0) then [] else [EvFree n]).
Proof.
  unfold Deallocate, raw. destruct n as [|n]; cbn [replicate].
  - by rewrite app_nil_r.
  - rewrite decide_False by done. cbn [leak emit log length].
    by rewrite length_replicate.
Qed.


(** ** Reserve *)

Lemma Reserve_spec xs cap n m :
  length xs ≤ cap →
  match Reserve n (vector_of xs cap) m with
  | Ok v m' =>
      leaked m' = leaked m
      ∧ (n ≤ cap ∧ v = vector_of xs cap ∧ m' = m
         ∨ cap < n ∧ ∃ ys, length ys = length xs ∧ v = vector_of ys n
                          ∧ (copy_ctor_copies → move_ctor_moves → ys = xs))
  | Exn v m' =>
      cap < n ∧ leaked m' = leaked m
      ∧ ∃ xs', length xs' = length xs ∧ v = vector_of xs' cap
               ∧ (xs' = xs ∨ relocates_by_move = true
                              ∧ ∃ x w, (move_ctor x w).2.2 = None)
  | Fault => False
  end.
Proof.
  intros Hcap. unfold Reserve. cbn [vector_of data_ size_ capacity_].
  case_decide as Hn; [naive_solver|].
  unfold RawMemory_new, Allocate. case_decide; [|lia].
  destruct (operator_new _ (world m)) as [w [|]]; cbn [buffer_].
  - rewrite region_vector_of.
    pose proof (CopyOrMoveData_spec xs [] (raw (cap - length xs)) []
                  (raw (n - length xs)) (emit (EvAlloc n) w m)) as HC.
    cbn [app length] in HC.
    replace (raw (length xs) ++ raw (n - length xs)) with (raw (T:=T) n) in HC
      by (rewrite <- raw_add; f_equal; lia).
    destruct (CopyOrMoveData _ _ _ _ _ _) as [[s d] m'|[s d] m'|]; [| |done].
    + destruct HC as (xs' & ys & Hl' & Hl & -> & -> & Hleak & Hsame & Hval).
      rewrite <- Hl'.
      rewrite destroy_n_front.
      unfold RawMemory_Swap, RawMemory_dtor, set_region. cbn [buffer_ capacity_].
      rewrite <- raw_add, Deallocate_raw, destroy_all_leaked. split; [done|].
      right. split; [lia|]. exists ys. split_and!; [congruence| |done].
      unfold vector_of. by rewrite Hl, Hl'.
    + destruct HC as ((xs' & Hl' & -> & Hsame) & -> & Hleak & Hthrow).
      unfold RawMemory_dtor, set_region. cbn [buffer_].
      rewrite Deallocate_raw. split_and!; [lia | done |].
      exists xs'. split_and!; try done.
      * unfold vector_of, set_buffer, set_region. cbn. by rewrite Hl'.
      * destruct relocates_by_move; [right|left]; auto.
  - split_and!; [lia | done |]. exists xs. split_and!; try done. by left.
Qed.

Lemma Reserve_sources xs cap n m v m' :
  length xs ≤ cap →
  Reserve n (vector_of xs cap) m = Exn v m' →
  ∃ k xs', k ≤ length xs ∧ length xs' = length xs ∧ v = vector_of xs' cap
    ∧ Forall2 moved_from (take k xs) (take k xs')
    ∧ drop k xs' = drop k xs.
Proof.
  intros Hcap HE.
  destruct (relocates_by_move) eqn:Hmove; cycle 1.
  { pose proof (Reserve_spec xs cap n m Hcap) as HS. rewrite HE in HS.
    destruct HS as (_ & _ & xs' & Hl & -> & [->|[Hm _]]); [|congruence].
    exists 0, xs. rewrite !take_0. by split_and!; [lia| | | |]. }
  revert HE. unfold Reserve. cbn [vector_of data_ size_ capacity_].
  case_decide as Hn; [done|].
  unfold RawMemory_new, Allocate. case_decide; [|lia].
  destruct (operator_new _ (world m)) as [w [|]]; cbn [buffer_]; cycle 1.
  { intros [= <- _]. exists 0, xs. rewrite !take_0. by split_and!; [lia| | | |]. }
  rewrite region_vector_of. unfold CopyOrMoveData.
  unfold relocates_by_move in Hmove. rewrite Hmove.
  unfold uninitialized_move_n.
  pose proof (uninitialized_move_loop_sources xs [] (raw (cap - length xs)) []
                [] (raw (n - length xs)) (emit (EvAlloc n) w m)) as HL.
  rewrite cells_nil in HL. cbn [app length] in HL.
  replace (raw (length xs) ++ raw (n - length xs)) with (raw (T:=T) n) in HL
    by (rewrite <- raw_add; f_equal; lia).
  change (replicate n None) with (raw (T:=T) n).
  destruct (uninitialized_move_loop _ _ _ _ _ _ _) as [[s d] m1|[s d] m1|];
    [|intros [= <- _]|done].
  - by destruct (destroy_n _ _ _ _) as [[??]|].
  - destruct HL as (k & xs' & Hk & Hl & -> & Hmoved & Hrest).
    exists k, xs'. split_and!; [done | done | | done | done].
    unfold vector_of, set_buffer, set_region. cbn. by rewrite Hl.
Qed.


(** ** Constructing the new element of an Emplace *)

Lemma lookup_cells xs post i x :
  xs !! i = Some x → (cells xs ++ post) !! i = Some (Some x).
Proof.
  intros Hx. apply lookup_app_l_Some. unfold cells.
  by rewrite list_lookup_fmap, Hx.
Qed.

Lemma insert_cells xs post i x :
  i < length xs →
  <[i := Some x]> (cells xs ++ post) = cells (<[i := x]> xs) ++ post.
Proof.
  intros Hi. rewrite insert_app_l by (by rewrite length_cells).
  unfold cells. by rewrite list_fmap_insert.
Qed.

Lemma left_by_refl (a : ctor_args T W) xs : left_by a xs xs.
Proof. destruct a as [|[]|[]]; simpl; auto. Qed.

Lemma construct_spec a xs post m :
  valid_args a (length xs) →
  match construct a (cells xs ++ post) m with
  | Ok (V, b) m' =>
      ∃ ys e w, length ys = length xs ∧ b = cells ys ++ post
        ∧ construction_event a (cells xs ++ post) = Some e
        ∧ m' = emit e w m
        ∧ left_by a xs ys
        ∧ (copy_ctor_copies → move_ctor_moves → supplies a xs V ys)
  | Exn b m' =>
      ∃ ys e w, length ys = length xs ∧ b = cells ys ++ post
        ∧ construction_event a (cells xs ++ post) = Some e
        ∧ m' = emit e w m
        ∧ left_by a xs ys
  | Fault => False
  end.
Proof.
  intros Hv. destruct a as [mk|[x|i]|[x|i]];
    cbn [construct construction_event left_by].
  - destruct (mk (world m)) as [w [y|]] eqn:Hmk.
    + exists xs, EvCtor, w. split_and!; try done. intros _ _. split; eauto.
    + exists xs, EvCtor, w. by split_and!.
  - unfold new_copy. destruct (copy_ctor x (world m)) as [w [y|]] eqn:Hc.
    + exists xs, (EvCopyCtor x), w. split_and!; try done.
      intros Hcopy _. split; [|done]. eapply Hcopy, Hc.
    + exists xs, (EvCopyCtor x), w. by split_and!.
  - simpl in Hv. destruct (lookup_lt_is_Some_2 xs i Hv) as [x Hx].
    rewrite (lookup_cells _ _ _ _ Hx). unfold new_copy. cbn [mbind option_bind id fmap option_fmap option_map].
    destruct (copy_ctor x (world m)) as [w [y|]] eqn:Hc.
    + exists xs, (EvCopyCtor x), w. split_and!; try done.
      intros Hcopy _. split; [|done]. by rewrite (Hcopy _ _ _ _ Hc).
    + exists xs, (EvCopyCtor x), w. by split_and!.
  - unfold new_move. destruct (move_ctor x (world m)) as [w [x' [y|]]] eqn:Hc.
    + exists xs, (EvMoveCtor x), w. split_and!; try done.
      intros _ Hmove. split; [|done]. eapply Hmove, Hc.
    + exists xs, (EvMoveCtor x), w. by split_and!.
  - simpl in Hv. destruct (lookup_lt_is_Some_2 xs i Hv) as [x Hx].
    rewrite (lookup_cells _ _ _ _ Hx). unfold new_move. cbn [mbind option_bind id fmap option_fmap option_map].
    destruct (move_ctor x (world m)) as [w [x' [y|]]] eqn:Hc;
      rewrite insert_cells by done.
    + exists (<[i := x']> xs), (EvMoveCtor x), w.
      rewrite length_insert. split_and!; try done; [eauto|].
      intros _ Hmove. split; [|eauto]. by rewrite (Hmove _ _ _ _ _ Hc).
    + exists (<[i := x']> xs), (EvMoveCtor x), w.
      rewrite length_insert. split_and!; try done. eauto.
Qed.


(** ** EmplaceWithRealloc *)

Lemma lt_grown n : n < grown n.
Proof. unfold grown. lia. Qed.

Lemma new_capacity_grown n :
  SizeT.fits (grown n) →
  (if decide (0 < n) then SizeT.mul n 2 else 1) = grown n.
Proof.
  intros Hf. unfold grown in *. case_decide.
  - rewrite size_t_mul; [lia|]. eapply fits_le; [|done]. lia.
  - lia.
Qed.

Lemma new_size_succ n : SizeT.fits (grown n) → SizeT.add n 1 = S n.
Proof.
  intros Hf. rewrite size_t_add; [lia|]. eapply fits_le; [|done].
  unfold grown. lia.
Qed.

Lemma raw_split n k : k < n → raw (T:=T) n = raw k ++ None :: raw (n - k - 1).
Proof.
  intros Hk. rewrite <- raw_S, <- raw_add. f_equal. lia.
Qed.

(** ** Counting the constructor calls *)

Lemma construction_event_is_construction (a : ctor_args T W) buf e :
  construction_event a buf = Some e → is_construction e.
Proof.
  destruct a as [mk|[x|i]|[x|i]]; cbn [construction_event].
  - by intros [= <-].
  - by intros [= <-].
  - destruct (buf !! i ≫= id); [|done]. by intros [= <-].
  - by intros [= <-].
  - destruct (buf !! i ≫= id); [|done]. by intros [= <-].
Qed.

Lemma constructions_app (evs1 evs2 : list (event T)) :
  constructions (evs1 ++ evs2) = constructions evs1 + constructions evs2.
Proof.
  induction evs1 as [|e evs1 IH]; [done|]. destruct e; simpl; rewrite IH; lia.
Qed.

Lemma constructions_one (e : event T) : is_construction e → constructions [e] = 1.
Proof. by destruct e. Qed.

Lemma constructions_none (evs : list (event T)) :
  Forall (λ e, ¬ is_construction e) evs → constructions evs = 0.
Proof.
  induction 1 as [|e evs He _ IH]; [done|]. destruct e; simpl in *; tauto.
Qed.

Lemma log_grows_constructions (P : event T → Prop) m m' :
  (∀ e, P e → ¬ is_construction e) → log_grows P m m' →
  constructions (log m') = constructions (log m).
Proof.
  intros HP (evs & -> & Hall).
  rewrite constructions_app, (constructions_none evs); [lia|].
  eapply Forall_impl; eauto.
Qed.

Lemma constructions_emit e w m :
  constructions (log (emit e w m)) = constructions (log m) + constructions [e].
Proof. apply constructions_app. Qed.

Lemma destroy_n_constructions buf first n m buf' m' :
  destroy_n buf first n m = Some (buf', m') →
  constructions (log m') = constructions (log m).
Proof.
  intros Hd. eapply log_grows_constructions; [|by eapply destroy_n_log].
  intros e. destruct e; simpl; tauto.
Qed.

Lemma destroy_all_constructions xs m :
  constructions (log (destroy_all xs m)) = constructions (log m).
Proof.
  rewrite destroy_all_log, constructions_app,
    (constructions_none (EvDtor <$> xs)); [lia|].
  apply Forall_fmap, Forall_true. intros x. cbn. tauto.
Qed.

Lemma Deallocate_constructions buf m :
  constructions (log (Deallocate buf m)) = constructions (log m).
Proof.
  eapply log_grows_constructions; [|apply Deallocate_log].
  intros e. destruct e; simpl; tauto.
Qed.

Lemma place_same_log buf i x m buf' m' :
  place buf i x m = Some (buf', m') → log m' = log m.
Proof.
  unfold place. destruct (buf !! i) as [[old|]|]; [| |done]; by intros [= <- <-].
Qed.

Lemma rollback_constructions {A S} dst result cur (k : list (option T) → S) m
    (r : S) m' :
  rollback (A:=A) dst result cur k m = Exn r m' →
  constructions (log m') = constructions (log m).
Proof.
  unfold rollback. destruct (destroy_n _ _ _ _) as [[d m1]|] eqn:Hd; [|done].
  intros [= _ <-]. by eapply destroy_n_constructions.
Qed.

Lemma uninitialized_copy_loop_count src first n dst result cur m :
  match uninitialized_copy_loop src first n dst result cur m with
  | Ok _ m' => constructions (log m') = constructions (log m) + n
  | Exn _ m' =>
      constructions (log m) < constructions (log m') ≤ constructions (log m) + n
  | Fault => True
  end.
Proof.
  revert src first dst cur m. induction n as [|n IH]; intros src first dst cur m;
    cbn [uninitialized_copy_loop]; [lia|].
  destruct (src !! first) as [[x|]|]; [|done|done]. unfold new_copy.
  destruct (copy_ctor x (world m)) as [w [y|]].
  - destruct (place _ _ _ _) as [[dst1 m2]|] eqn:Hp; [|done].
    apply place_same_log in Hp. specialize (IH src (S first) dst1 (S cur) m2).
    rewrite Hp, constructions_emit in IH. cbn [constructions] in IH.
    destruct (uninitialized_copy_loop _ _ _ _ _ _ _); [lia | lia | done].
  - destruct (rollback _ _ _ _ _) as [|r m'|] eqn:Hr; [| |done].
    + unfold rollback in Hr. by destruct (destroy_n _ _ _ _) as [[??]|].
    + apply rollback_constructions in Hr. rewrite Hr, constructions_emit.
      cbn [constructions]. lia.
Qed.

Lemma uninitialized_move_loop_count src first n dst result cur m :
  match uninitialized_move_loop src first n dst result cur m with
  | Ok _ m' => constructions (log m') = constructions (log m) + n
  | Exn _ m' =>
      constructions (log m) < constructions (log m') ≤ constructions (log m) + n
  | Fault => True
  end.
Proof.
  revert src first dst cur m. induction n as [|n IH]; intros src first dst cur m;
    cbn [uninitialized_move_loop]; [lia|].
  destruct (src !! first) as [[x|]|]; [|done|done]. unfold new_move.
  destruct (move_ctor x (world m)) as [w [x' [y|]]].
  - destruct (place _ _ _ _) as [[dst1 m2]|] eqn:Hp; [|done].
    apply place_same_log in Hp.
    specialize (IH (<[first := Some x']> src) (S first) dst1 (S cur) m2).
    rewrite Hp, constructions_emit in IH. cbn [constructions] in IH.
    destruct (uninitialized_move_loop _ _ _ _ _ _ _); [lia | lia | done].
  - destruct (rollback _ _ _ _ _) as [|r m'|] eqn:Hr; [| |done].
    + unfold rollback in Hr. by destruct (destroy_n _ _ _ _) as [[??]|].
    + apply rollback_constructions in Hr. rewrite Hr, constructions_emit.
      cbn [constructions]. lia.
Qed.

(** A relocation that returns has made one constructor call per element;
    one that throws has made at least one and at most as many. *)
Lemma CopyOrMoveData_count src data count dst new_place m :
  match CopyOrMoveData src data count dst new_place m with
  | Ok _ m' => constructions (log m') = constructions (log m) + count
  | Exn _ m' =>
      constructions (log m) < constructions (log m')
      ≤ constructions (log m) + count
  | Fault => True
  end.
Proof.
  unfold CopyOrMoveData, uninitialized_move_n, uninitialized_copy_n.
  destruct (is_nothrow_move_constructible || negb is_copy_constructible).
  - apply uninitialized_move_loop_count.
  - pose proof (uninitialized_copy_loop_count src data count dst new_place
                  new_place m) as H.
    by destruct (uninitialized_copy_loop _ _ _ _ _ _ _).
Qed.

Lemma cells_take_drop xs k : cells xs = cells (take k xs) ++ cells (drop k xs).
Proof. by rewrite <- cells_app, take_drop. Qed.

Lemma EmplaceWithRealloc_spec pos a xs cap m :
  length xs ≤ cap → pos ≤ length xs → valid_args a (length xs) →
  SizeT.fits (grown (length xs)) →
  match EmplaceWithRealloc pos a (vector_of xs cap) m with
  | Ok (v, it) m' =>
      it = pos ∧ leaked m' = leaked m
      ∧ ∃ V zs, length zs = S (length xs)
          ∧ v = vector_of zs (grown (length xs))
          ∧ (copy_ctor_copies → move_ctor_moves →
             ∃ ys, supplies a xs V ys ∧ zs = take pos ys ++ V :: drop pos ys)
  | Exn v m' =>
      (∃ ys ys0, length ys = length xs ∧ v = vector_of ys cap
         ∧ left_by a xs ys0
         ∧ (ys = ys0 ∨ relocates_by_move = true
                       ∧ ∃ x w, (move_ctor x w).2.2 = None))
      ∧ (leaked m' = leaked m
           ∧ constructions (log m') ≤ constructions (log m) + pos + 1
         ∨ pos < length xs
           ∧ constructions (log m) + pos + 1 < constructions (log m')
           ∧ ∃ V, leaked m' = leaked m ++ [V]
               ∧ (copy_ctor_copies → move_ctor_moves →
                  ∃ ys, supplies a xs V ys))
  | Fault => False
  end.
Proof.
  intros Hcap Hpos Hv Hfit. unfold EmplaceWithRealloc.
  cbn [vector_of size_ data_]. rewrite new_capacity_grown, new_size_succ by done.
  unfold begin, end_. cbn [size_ vector_of]. rewrite Nat.sub_0_r.
  pose proof (lt_grown (length xs)) as Hg.
  unfold RawMemory_new, Allocate. case_decide; [|lia].
  change (replicate (grown (length xs)) None) with (raw (T:=T) (grown (length xs))).
  destruct (operator_new _ _) as [w0 [|]]; cycle 1.
  { split; [|left; split; [done|]].
    - exists xs, xs. split_and!; try done.
      + apply left_by_refl.
      + by left.
    - rewrite constructions_emit. cbn [constructions]. lia. }
  set (m1 := emit _ w0 m).
  assert (Hc1 : constructions (log m1) = constructions (log m))
    by (subst m1; rewrite constructions_emit; cbn [constructions]; lia).
  unfold RawMemory_plus. cbn [capacity_ buffer_]. case_decide; [|lia].
  rewrite region_vector_of.
  pose proof (construct_spec a xs (raw (cap - length xs)) m1 Hv) as HC.
  destruct (construct _ _ _) as [[V b] m2|b m2|]; [| |done]; cycle 1.
  { destruct HC as (ys & e & w & Hl & -> & He & -> & Hkeep).
    unfold RawMemory_dtor. cbn [buffer_].
    split; [|left; split; [by rewrite Deallocate_raw|]].
    - exists ys, ys. split_and!; try done.
      + unfold set_buffer, set_region, vector_of. cbn. by rewrite Hl.
      + by left.
    - apply construction_event_is_construction in He.
      rewrite Deallocate_constructions, constructions_emit,
        (constructions_one e He), Hc1. lia. }
  destruct HC as (ys & e & w & Hl & -> & He & -> & Hkeep & Hsup).
  set (m2 := emit e w m1).
  assert (Hm2 : leaked m2 = leaked m) by done.
  assert (Hc2 : constructions (log m2) = constructions (log m) + 1).
  { apply construction_event_is_construction in He. subst m2.
    by rewrite constructions_emit, (constructions_one e He), Hc1. }
  rewrite (raw_split (grown (length xs)) pos) by lia.
  rewrite place_at by apply length_raw.
  (* the prefix *)
  rewrite (cells_take_drop ys pos), <- app_assoc.
  pose proof (CopyOrMoveData_spec (take pos ys) []
                (cells (drop pos ys) ++ raw (cap - length xs)) []
                (Some V :: raw (grown (length xs) - pos - 1)) m2) as HP.
  rewrite length_take_le in HP by lia. cbn [app length] in HP.
  match goal with
  | |- context [CopyOrMoveData ?s ?d ?c ?t ?p m2] =>
      pose proof (CopyOrMoveData_count s d c t p m2) as HPc
  end.
  destruct (CopyOrMoveData _ _ _ _ _ _) as [[s d] m3|[s d] m3|]; [| |done]; cycle 1.
  { destruct HP as ((xs1 & Hl1 & -> & Hsame) & -> & Hleak3 & Hthrow).
    rewrite destroy_one by apply length_raw.
    unfold RawMemory_dtor, set_region. cbn [buffer_].
    split.
    - exists (xs1 ++ drop pos ys), ys. split_and!.
      + len.
      + vec. apply vector_of_eq; [|len].
        rewrite cells_app, <- app_assoc. do 3 f_equal. len.
      + done.
      + destruct relocates_by_move; [right; auto|left].
        rewrite Hsame by done. apply take_drop.
    - left. split.
      + rewrite <- raw_S, <- raw_add, Deallocate_raw. cbn [destroy emit leaked].
        by rewrite Hleak3.
      + rewrite Deallocate_constructions. unfold destroy.
        rewrite constructions_emit. cbn [constructions]. lia. }
  destruct HP as (xs1 & ys1 & Hlx1 & Hly1 & -> & -> & Hleak3 & Hsame1 & Hval1).
  (* the suffix *)
  unfold ptr_diff. case_decide; [|lia].
  pose proof (CopyOrMoveData_spec (drop pos ys) (cells xs1)
                (raw (cap - length xs)) (cells ys1 ++ [Some V])
                (raw (grown (length xs) - length xs - 1)) m3) as HS.
  rewrite length_drop, length_app, !length_cells, Hlx1, Hly1, Hl in HS.
  cbn [length] in HS.
  replace ((cells ys1 ++ [Some V]) ++
           raw (length xs - pos) ++ raw (grown (length xs) - length xs - 1))
    with (cells ys1 ++ Some V :: raw (grown (length xs) - pos - 1)) in HS
    by (rewrite <- app_assoc; cbn [app]; rewrite <- raw_add; do 3 f_equal; lia).
  match goal with
  | |- context [CopyOrMoveData ?s ?d ?c ?t ?p m3] =>
      pose proof (CopyOrMoveData_count s d c t p m3) as HSc
  end.
  destruct (CopyOrMoveData _ _ _ _ _ _) as [[s d] m4|[s d] m4|]; [| |done]; cycle 1.
  { destruct HS as ((xs2 & Hl2 & -> & Hsame) & -> & Hleak4 & Hthrow).
    rewrite destroy_n_front_at by done.
    unfold RawMemory_dtor, set_region. cbn [buffer_].
    split.
    - exists (xs1 ++ xs2), ys. split_and!.
      + len.
      + vec. apply vector_of_eq; [|len].
        rewrite cells_app, <- app_assoc. do 3 f_equal. len.
      + done.
      + destruct relocates_by_move; [right; auto|left].
        rewrite Hsame, Hsame1 by done. apply take_drop.
    - right. split_and!; [lia | |].
      { rewrite Deallocate_constructions, destroy_all_constructions. lia. }
      exists V. split; [|intros Hcc Hmc; exists ys; by apply Hsup].
      rewrite Deallocate_leaked, destroy_all_leaked, Hleak4, Hleak3, Hm2.
      rewrite live_objects_app, live_objects_raw. cbn [app].
      unfold live_objects. csimpl. fold (live_objects (raw (T:=T) (grown (length xs) - pos - 1))).
      by rewrite live_objects_raw. }
  destruct HS as (xs2 & ys2 & Hlx2 & Hly2 & -> & -> & Hleak4 & Hsame2 & Hval2).
  rewrite app_assoc, <- cells_app.
  rewrite destroy_n_front_at by len.
  unfold RawMemory_Swap, RawMemory_dtor. vec.
  rewrite <- raw_add, Deallocate_raw, destroy_all_leaked, Hleak4, Hleak3.
  split_and!; [done | done |].
  exists V, (ys1 ++ V :: ys2). split_and!.
  - len.
  - apply vector_of_eq; [|len].
    rewrite <- app_assoc. cbn [app]. rewrite cells_app, cells_cons, <- app_assoc.
    cbn [app]. do 4 f_equal. len.
  - intros Hcopy Hmove. exists ys. split; [by apply Hsup|].
    by rewrite Hval1, Hval2.
Qed.




(** ** Move assignment between neighbouring slots *)

Lemma lookup_behind_2 pre (c1 c2 : option T) post :
  (pre ++ c1 :: c2 :: post) !! S (length pre) = Some c2.
Proof.
  rewrite (snoc_app pre c1).
  replace (S (length pre)) with (length (pre ++ [c1])) by len.
  apply lookup_behind.
Qed.

Lemma insert_behind_2 pre (c1 c2 c : option T) post :
  <[S (length pre) := c]> (pre ++ c1 :: c2 :: post) = pre ++ c1 :: c :: post.
Proof.
  rewrite (snoc_app pre c1).
  replace (S (length pre)) with (length (pre ++ [c1])) by len.
  by rewrite insert_behind, <- app_assoc.
Qed.

(** The source is the slot just before the target (std::move_backward). *)
Lemma move_assign_at_down pre u z post m :
  match move_assign_at (pre ++ Some u :: Some z :: post)
          (length pre) (S (length pre)) m with
  | Ok b m' =>
      ∃ u' z', b = pre ++ Some u' :: Some z' :: post
        ∧ leaked m' = leaked m ∧ (move_assign_moves → z' = u)
  | Exn b m' =>
      ∃ u' z', b = pre ++ Some u' :: Some z' :: post ∧ leaked m' = leaked m
  | Fault => False
  end.
Proof.
  unfold move_assign_at. case_decide; [lia|].
  rewrite lookup_behind, lookup_behind_2. unfold assign_move.
  destruct (move_assign z u (world m)) as [w [[z' u'] ok]] eqn:Ha.
  rewrite insert_behind_2, insert_behind.
  destruct ok; exists u', z'; split_and!; try done.
  intros Hmove. eapply Hmove, Ha.
Qed.

(** The source is the slot just after the target (std::move). *)
Lemma move_assign_at_up pre z u post m :
  match move_assign_at (pre ++ Some z :: Some u :: post)
          (S (length pre)) (length pre) m with
  | Ok b m' =>
      ∃ z' u', b = pre ++ Some z' :: Some u' :: post
        ∧ leaked m' = leaked m ∧ (move_assign_moves → z' = u)
  | Exn b m' =>
      ∃ z' u', b = pre ++ Some z' :: Some u' :: post ∧ leaked m' = leaked m
  | Fault => False
  end.
Proof.
  unfold move_assign_at. case_decide; [lia|].
  rewrite lookup_behind, lookup_behind_2. unfold assign_move.
  destruct (move_assign z u (world m)) as [w [[z' u'] ok]] eqn:Ha.
  rewrite insert_behind, insert_behind_2.
  destruct ok; exists z', u'; split_and!; try done.
  intros Hmove. eapply Hmove, Ha.
Qed.

(** ** std::move_backward *)

Lemma move_backward_loop_spec us pre z post m :
  match move_backward_loop (pre ++ cells (us ++ [z]) ++ post) (length us)
          (length pre + length us) (S (length pre + length us)) m with
  | Ok b m' =>
      ∃ r vs, length vs = length us ∧ b = pre ++ cells (r :: vs) ++ post
        ∧ leaked m' = leaked m ∧ (move_assign_moves → vs = us)
  | Exn b m' =>
      ∃ ws, length ws = S (length us) ∧ b = pre ++ cells ws ++ post
        ∧ leaked m' = leaked m
  | Fault => False
  end.
Proof.
  revert z post m. induction us as [|u us IH] using rev_ind; intros z post m.
  - cbn [length move_backward_loop]. exists z, []. by split_and!.
  - rewrite length_app. cbn [length].
    replace (length us + 1) with (S (length us)) by lia.
    rewrite Nat.add_succ_r. cbn [move_backward_loop].
    replace (pre ++ cells ((us ++ [u]) ++ [z]) ++ post)
      with ((pre ++ cells us) ++ Some u :: Some z :: post)
      by (by norm_cells).
    pose proof (move_assign_at_down (pre ++ cells us) u z post m) as HA.
    rewrite length_app, length_cells in HA.
    destruct (move_assign_at _ _ _ _) as [b m1|b m1|]; [| |done].
    + destruct HA as (u' & z' & -> & Hleak & Hval).
      specialize (IH u' (Some z' :: post) m1).
      replace ((pre ++ cells us) ++ Some u' :: Some z' :: post)
        with (pre ++ cells (us ++ [u']) ++ Some z' :: post)
        by (by norm_cells).
      destruct (move_backward_loop _ _ _ _ _) as [b m'|b m'|]; [| |done].
      * destruct IH as (r & vs & Hlen & -> & Hleak' & Hval').
        exists r, (vs ++ [z']). split_and!.
        -- len.
        -- by norm_cells.
        -- congruence.
        -- intros Hmove. by rewrite Hval', Hval.
      * destruct IH as (ws & Hlen & -> & Hleak').
        exists (ws ++ [z']). split_and!.
        -- len.
        -- by norm_cells.
        -- congruence.
    + destruct HA as (u' & z' & -> & Hleak).
      exists (us ++ [u'; z']). split_and!; [len| |done].
      by norm_cells.
Qed.


(** ** EmplaceWithoutRealloc *)

Lemma raw_pos n : 0 < n → raw (T:=T) n = None :: raw (n - 1).
Proof. intros Hn. rewrite <- raw_S. f_equal. lia. Qed.

Lemma set_size_vector_of_eq zs cap b n :
  b = cells zs ++ raw (cap - length zs) →
  {| data_ := {| buffer_ := b; capacity_ := cap |}; size_ := n |}
  = set_size n (vector_of zs cap).
Proof. by intros ->. Qed.

Lemma snoc_inv xs : 0 < length xs → ∃ ys x, xs = ys ++ [x].
Proof.
  destruct xs as [|x xs _] using rev_ind; [simpl; lia|]. eauto.
Qed.

Lemma EmplaceWithoutRealloc_spec pos a xs cap m :
  length xs < cap → pos ≤ length xs → valid_args a (length xs) →
  SizeT.fits cap →
  match EmplaceWithoutRealloc pos a (vector_of xs cap) m with
  | Ok (v, it) m' =>
      it = pos ∧ leaked m' = leaked m
      ∧ ∃ V zs, length zs = S (length xs) ∧ v = vector_of zs cap
          ∧ (value_semantics →
             ∃ ys, supplies a xs V ys ∧ zs = take pos ys ++ V :: drop pos ys)
  | Exn v m' =>
      leaked m' = leaked m
      ∧ ∃ ws, length ws = length xs ∧ v = vector_of ws cap
              ∨ pos < length xs ∧ length ws = S (length xs)
                ∧ v = set_size (length xs) (vector_of ws cap)
  | Fault => False
  end.
Proof.
  intros Hcap Hpos Hv Hfit. unfold EmplaceWithoutRealloc.
  unfold begin, end_. vec. rewrite Nat.sub_0_r. cbn [Nat.add].
  rewrite size_t_add by (apply (fits_le _ cap); [lia|done]).
  replace (length xs + 1) with (S (length xs)) by lia.
  pose proof (construct_spec a xs (raw (cap - length xs)) m Hv) as HC.
  case_decide as Hend.
  - (* at the end *)
    subst pos.
    unfold RawMemory_plus. cbn [capacity_]. (case_decide; [|lia]).
    destruct (construct _ _ _) as [[V b] m1|b m1|]; [| |done]; cycle 1.
    { destruct HC as (ys & e & w & Hl & -> & He & -> & Hkeep).
      split; [done|]. exists ys. left. split; [done|].
      vec. apply vector_of_eq; [|done]. by rewrite Hl. }
    destruct HC as (ys & e & w & Hl & -> & He & -> & Hkeep & Hsup).
    rewrite (raw_pos (cap - length xs)) by lia.
    rewrite place_at by (by rewrite length_cells).
    split_and!; [done | done |].
    exists V, (ys ++ [V]). split_and!; [len | |].
    + vec. apply vector_of_eq; [|len]. buf_eq.
    + intros (Hcopy & Hmove & _). exists ys. split; [by apply Hsup|].
      by rewrite take_ge, drop_ge by lia.
  - (* in the middle *)
    unfold RawMemory_plus. cbn [capacity_].
    destruct (construct _ _ _) as [[V b] m1|b m1|]; [| |done]; cycle 1.
    { destruct HC as (ys & e & w & Hl & -> & He & -> & Hkeep).
      split; [done|]. exists ys. left. split; [done|].
      vec. apply vector_of_eq; [|done]. by rewrite Hl. }
    destruct HC as (ys & e & w & Hl & -> & He & -> & Hkeep & Hsup).
    set (m1 := emit e w m).
    assert (Hm1 : leaked m1 = leaked m) by done.
    rewrite size_t_sub by (first [lia | apply (fits_le _ cap); [lia|done]]).
    unfold RawMemory_index. cbn [capacity_].
    (case_decide; [|lia]). (case_decide; [|lia]).
    destruct (snoc_inv ys) as (ys0 & x & ->); [lia|].
    rewrite length_app in Hl. cbn [length] in Hl.
    assert (Hl0 : length ys0 = length xs - 1) by lia.
    rewrite cells_app, cells_cons, cells_nil, <- app_assoc. cbn [app].
    rewrite <- Hl0, <- (length_cells ys0), lookup_behind.
    unfold new_move.
    destruct (move_ctor x (world m1)) as [w2 [x' [y|]]] eqn:Hmc;
      rewrite insert_behind.
    2:{ split; [done|]. exists (ys0 ++ [x']). left. split; [len|].
        vec. apply vector_of_eq; [|len]. buf_eq. }
    set (m2 := emit (EvMoveCtor x) w2 m1).
    rewrite (raw_pos (cap - length xs)) by lia.
    rewrite (snoc_app (cells ys0)), place_at by len.
    (* the shift *)
    unfold std_move_backward. rewrite length_cells.
    (case_decide; [lia|]). (case_decide; [lia|]).
    pose proof (move_backward_loop_spec (drop pos ys0) (cells (take pos ys0)) x'
                  (Some y :: raw (cap - length xs - 1)) m2) as HB.
    rewrite length_cells, length_take_le, length_drop in HB by lia.
    replace (pos + (length ys0 - pos)) with (length ys0) in HB by lia.
    replace (S (length ys0)) with (length xs) in HB by lia.
    replace (cells (take pos ys0) ++ cells (drop pos ys0 ++ [x']) ++
             Some y :: raw (cap - length xs - 1))
      with ((cells ys0 ++ [Some x']) ++ Some y :: raw (cap - length xs - 1)) in HB
      by (rewrite (cells_take_drop ys0 pos) at 1; by norm_cells).
    destruct (move_backward_loop _ _ _ _ _) as [b2 m4|b2 m4|]; [| |done]; cycle 1.
    { destruct HB as (ws & Hlw & -> & Hleak4).
      split; [cbn; rewrite Hleak4; reflexivity|].
      exists (take pos ys0 ++ ws ++ [y]). right. split_and!; [lia | len |].
      vec. apply set_size_vector_of_eq. buf_eq. }
    destruct HB as (r & vs & Hlv & -> & Hleak4 & Hvs).
    case_decide; [|lia].
    rewrite cells_cons. cbn [app].
    rewrite (lookup_at (cells (take pos ys0))) by len. unfold assign_move.
    destruct (move_assign r V (world m4)) as [w5 [[d' temp'] ok]] eqn:Hma.
    rewrite (insert_at (cells (take pos ys0))) by len.
    destruct ok.
    + split_and!; [lia | cbn; rewrite Hleak4; reflexivity |].
      exists V, (take pos ys0 ++ d' :: vs ++ [y]). split_and!; [len | |].
      * vec. apply vector_of_eq; [buf_eq | len].
      * intros (Hcopy & Hmove & Hca & Hmas). exists (ys0 ++ [x]).
        split; [by apply Hsup|].
        rewrite (Hmas _ _ _ _ _ _ Hma), (Hvs Hmas), (Hmove _ _ _ _ _ Hmc).
        rewrite take_app_le, drop_app_le by lia. done.
    + split; [cbn; rewrite Hleak4; reflexivity|].
      exists (take pos ys0 ++ d' :: vs ++ [y]). right. split_and!; [lia | |].
      { len. }
      vec. apply set_size_vector_of_eq. buf_eq.
Qed.


(** ** std::move and Erase *)

Lemma move_loop_spec us pre z post m :
  match move_loop (pre ++ cells (z :: us) ++ post) (S (length pre))
          (length us) (length pre) m with
  | Ok b m' =>
      ∃ vs r, length vs = length us ∧ b = pre ++ cells (vs ++ [r]) ++ post
        ∧ leaked m' = leaked m ∧ (move_assign_moves → vs = us)
  | Exn b m' =>
      ∃ ws, length ws = S (length us) ∧ b = pre ++ cells ws ++ post
        ∧ leaked m' = leaked m
  | Fault => False
  end.
Proof.
  revert pre z m. induction us as [|u us IH]; intros pre z m;
    cbn [length move_loop].
  - exists [], z. by split_and!.
  - rewrite !cells_cons. cbn [app].
    pose proof (move_assign_at_up pre z u (cells us ++ post) m) as HA.
    destruct (move_assign_at _ _ _ _) as [b m1|b m1|]; [| |done].
    + destruct HA as (z' & u' & -> & Hleak & Hval).
      specialize (IH (pre ++ [Some z']) u' m1).
      rewrite length_app in IH. cbn [length] in IH.
      replace (length pre + 1) with (S (length pre)) in IH by lia.
      replace ((pre ++ [Some z']) ++ cells (u' :: us) ++ post)
        with (pre ++ Some z' :: Some u' :: cells us ++ post) in IH
        by (by norm_cells).
      destruct (move_loop _ _ _ _ _) as [b m'|b m'|]; [| |done].
      * destruct IH as (vs & r & Hlen & -> & Hleak' & Hval').
        exists (z' :: vs), r. split_and!.
        -- len.
        -- by norm_cells.
        -- congruence.
        -- intros Hmove. by rewrite Hval', Hval.
      * destruct IH as (ws & Hlen & -> & Hleak').
        exists (z' :: ws). split_and!.
        -- len.
        -- by norm_cells.
        -- congruence.
    + destruct HA as (z' & u' & -> & Hleak).
      exists (z' :: u' :: us). split_and!; [len| |done].
      by norm_cells.
Qed.

Lemma Erase_spec pos xs cap m :
  length xs ≤ cap → pos < length xs → SizeT.fits cap →
  match Erase pos (vector_of xs cap) m with
  | Ok (v, it) m' =>
      it = pos ∧ leaked m' = leaked m
      ∧ ∃ zs, S (length zs) = length xs ∧ v = vector_of zs cap
          ∧ (move_assign_moves → zs = take pos xs ++ drop (S pos) xs)
  | Exn v m' =>
      leaked m' = leaked m
      ∧ ∃ ws, length ws = length xs ∧ v = vector_of ws cap
          ∧ take pos ws = take pos xs
  | Fault => False
  end.
Proof.
  intros Hcap Hpos Hfit. unfold Erase, begin, end_. vec.
  rewrite Nat.sub_0_r. cbn [Nat.add].
  unfold std_move. (case_decide; [lia|]). (case_decide; [lia|]).
  destruct (lookup_lt_is_Some_2 xs pos Hpos) as [z Hz].
  assert (Hreg : cells xs = cells (take pos xs) ++ cells (z :: drop (S pos) xs))
    by (by rewrite <- cells_app, take_drop_middle).
  rewrite Hreg.
  pose proof (move_loop_spec (drop (S pos) xs) (cells (take pos xs)) z
                (raw (cap - length xs)) m) as HM.
  rewrite length_cells, length_take_le, length_drop in HM by lia.
  replace (pos + 1) with (S pos) by lia.
  rewrite <- app_assoc.
  destruct (move_loop _ _ _ _ _) as [b m1|b m1|]; [| |done]; cycle 1.
  { destruct HM as (ws & Hlw & -> & Hleak). split; [done|].
    exists (take pos xs ++ ws). split_and!; [len | |].
    - vec. apply vector_of_eq; [buf_eq|len].
    - apply take_app_length'. rewrite length_take. lia. }
  destruct HM as (vs & r & Hlv & -> & Hleak & Hval).
  unfold ptr_back. (case_decide; [|lia]).
  rewrite cells_app, cells_cons, cells_nil, <- !app_assoc. cbn [app].
  rewrite !app_assoc.
  rewrite destroy_one by len.
  rewrite size_t_sub by (first [lia | apply (fits_le _ cap); [lia|done]]).
  split_and!; [done | cbn; congruence |].
  exists (take pos xs ++ vs). split_and!; [len| |].
  - vec. apply vector_of_eq; [|len]. rewrite <- raw_S. buf_eq.
  - intros Hmove. by rewrite Hval.
Qed.


(** ** std::copy_n *)

Lemma copy_n_spec xs ds spre spost dpre dpost m :
  length ds = length xs →
  match copy_n (spre ++ cells xs ++ spost) (length spre) (length xs)
          (dpre ++ cells ds ++ dpost) (length dpre) m with
  | Ok d m' =>
      ∃ ds', length ds' = length xs ∧ d = dpre ++ cells ds' ++ dpost
        ∧ leaked m' = leaked m
        ∧ log m' = log m ++ zip_with EvCopyAssign ds xs
        ∧ (copy_assign_copies → ds' = xs)
  | Exn d m' =>
      ∃ ds', length ds' = length xs ∧ d = dpre ++ cells ds' ++ dpost
        ∧ leaked m' = leaked m
  | Fault => False
  end.
Proof.
  revert ds spre dpre m. induction xs as [|x xs IH]; intros ds spre dpre m Hlen;
    destruct ds as [|d0 ds]; try done; cbn [length copy_n].
  - exists []. rewrite app_nil_r. by split_and!.
  - rewrite !cells_cons. cbn [app]. rewrite !lookup_behind. unfold assign_copy.
    destruct (copy_assign d0 x (world m)) as [w [d' ok]] eqn:Ha.
    rewrite insert_behind. destruct ok.
    + specialize (IH ds (spre ++ [Some x]) (dpre ++ [Some d'])
                    (emit (EvCopyAssign d0 x) w m)).
      rewrite !length_app in IH. cbn [length] in IH.
      replace (length spre + 1) with (S (length spre)) in IH by lia.
      replace (length dpre + 1) with (S (length dpre)) in IH by lia.
      rewrite <- !app_assoc in IH. cbn [app] in IH.
      destruct (copy_n _ _ _ _ _ _) as [d m'|d m'|].
      * destruct IH as (ds' & Hl & -> & Hleak & Hlog & Hval); [by simplify_eq/=|].
        exists (d' :: ds'). split_and!; [len | by norm_cells | done | |].
        -- rewrite Hlog. cbn. by rewrite <- app_assoc.
        -- intros Hcopy. rewrite (Hval Hcopy). f_equal. eapply Hcopy, Ha.
      * destruct IH as (ds' & Hl & -> & Hleak); [by simplify_eq/=|].
        exists (d' :: ds'). split_and!; [len | by norm_cells | done].
      * apply IH. by simplify_eq/=.
    + exists (d' :: ds). split_and!; [len | by norm_cells | done].
Qed.

(** ** Copy construction and destruction of a vector *)

Lemma Vector_copy_spec ys rcap m :
  length ys ≤ rcap →
  match Vector_copy (vector_of ys rcap) m with
  | Ok v m' =>
      leaked m' = leaked m
      ∧ ∃ zs, length zs = length ys ∧ v = vector_of zs (length ys)
          ∧ (copy_ctor_copies → zs = ys)
          ∧ (length ys ≠ 0 →
             log m' = log m ++ EvAlloc (length ys) :: (EvCopyCtor <$> ys))
  | Exn _ m' => leaked m' = leaked m
  | Fault => False
  end.
Proof.
  intros Hcap. unfold Vector_copy, RawMemory_new, Allocate. vec.
  assert (Hdst : ∀ m0,
    match uninitialized_copy_n (cells ys ++ raw (rcap - length ys)) 0
            (length ys) (raw (length ys)) 0 m0 with
    | Ok d m' =>
        ∃ zs, length zs = length ys ∧ d = cells zs ∧ leaked m' = leaked m0
          ∧ log m' = log m0 ++ (EvCopyCtor <$> ys)
          ∧ (copy_ctor_copies → zs = ys)
    | Exn d m' => d = raw (length ys) ∧ leaked m' = leaked m0
    | Fault => False
    end).
  { intros m0.
    pose proof (uninitialized_copy_n_spec ys [] (raw (rcap - length ys)) [] [] m0) as HU.
    cbn [app length] in HU. rewrite !app_nil_r in HU.
    destruct (uninitialized_copy_n _ _ _ _ _ _) as [d m'|d m'|]; [| |done].
    - destruct HU as (zs & ? & ? & ? & ? & ?). exists zs.
      rewrite app_nil_r in *. by split_and!.
    - done. }
  case_decide as Hn.
  - destruct (operator_new _ _) as [w [|]]; [|done]. cbn [buffer_].
    change (replicate (length ys) None) with (raw (T:=T) (length ys)).
    specialize (Hdst (emit (EvAlloc (length ys)) w m)).
    destruct (uninitialized_copy_n _ _ _ _ _ _) as [d m'|d m'|]; [| |done].
    + destruct Hdst as (zs & Hl & -> & Hleak & Hlog & Hval).
      split; [done|]. exists zs. split_and!; try done.
      * vec. apply vector_of_eq; [|done]. rewrite Hl, Nat.sub_diag.
        by rewrite app_nil_r.
      * intros _. rewrite Hlog. cbn. by rewrite <- app_assoc.
    + destruct Hdst as [-> Hleak]. unfold RawMemory_dtor. vec.
      by rewrite Deallocate_raw.
  - assert (length ys = 0) as Hz by lia. cbn [buffer_].
    destruct ys; [|done]. cbn. split; [done|]. exists []. by split_and!.
Qed.

Lemma Vector_dtor_spec xs cap m :
  Vector_dtor (vector_of xs cap) m
  = Some (Deallocate (raw (length xs) ++ raw (cap - length xs))
                     (destroy_all xs m)).
Proof. unfold Vector_dtor. vec. by rewrite destroy_n_front. Qed.


(** ** Copy assignment *)

Lemma Deallocate_log_exact buf m :
  ∃ evs, log (Deallocate buf m) = log m ++ evs ∧ Forall is_release evs.
Proof. apply Deallocate_log. Qed.

Lemma copy_assign_distinct_spec xs cap ys rcap m :
  length xs ≤ cap → length ys ≤ rcap → SizeT.fits cap → SizeT.fits rcap →
  match copy_assign_distinct (vector_of xs cap) (vector_of ys rcap) m with
  | Ok v m' =>
      leaked m' = leaked m
      ∧ ∃ zs, length zs = length ys
          ∧ v = vector_of zs (if decide (cap < length ys) then length ys else cap)
          ∧ (copy_ctor_copies → copy_assign_copies → zs = ys)
          ∧ ∃ evs, Forall is_release evs
              ∧ log m' = log m ++
                  if decide (cap < length ys) then
                    EvAlloc (length ys) :: (EvCopyCtor <$> ys)
                      ++ (EvDtor <$> xs) ++ evs
                  else
                    zip_with EvCopyAssign xs ys
                      ++ (if decide (length ys < length xs)
                          then EvDtor <$> drop (length ys) xs
                          else EvCopyCtor <$> drop (length xs) ys)
  | Exn v m' =>
      leaked m' = leaked m
      ∧ ∃ ws, length ws = length xs ∧ v = vector_of ws cap
              ∧ (cap < length ys → ws = xs)
  | Fault => False
  end.
Proof.
  intros Hcap Hrcap Hfit Hrfit. unfold copy_assign_distinct.
  cbn [vector_of data_ capacity_ size_].
  fold (vector_of xs cap). fold (vector_of ys rcap).
  case_decide as Hgrow.
  - (* a temporary copy, swapped in *)
    pose proof (Vector_copy_spec ys rcap m Hrcap) as HV.
    destruct (Vector_copy _ _) as [v m1|[] m1|]; [| |done]; cycle 1.
    { split; [done|]. exists xs. by split_and!. }
    destruct HV as (Hleak & zs & Hl & -> & Hval & Hlog).
    unfold Swap, RawMemory_Swap. vec.
    pose proof (Vector_dtor_spec xs cap m1) as HD. unfold vector_of in HD.
    rewrite HD. clear HD.
    destruct (Deallocate_log_exact (raw (length xs) ++ raw (cap - length xs))
                (destroy_all xs m1)) as (evs & Hevs & Hrel).
    split.
    { by rewrite <- raw_add, Deallocate_raw, destroy_all_leaked. }
    exists zs. split_and!; [done | done | by auto |].
    exists evs. split; [done|].
    rewrite Hevs, destroy_all_log, Hlog by lia.
    rewrite <- !app_assoc. done.
  - (* the storage is reused *)
    rewrite !region_vector_of.
    set (k := length ys `min` length xs).
    rewrite (cells_take_drop ys k), (cells_take_drop xs k), <- !app_assoc.
    pose proof (copy_n_spec (take k ys) (take k xs) []
                  (cells (drop k ys) ++ raw (rcap - length ys)) []
                  (cells (drop k xs) ++ raw (cap - length xs)) m) as HN.
    rewrite !length_take in HN. cbn [app length] in HN.
    replace (k `min` length ys) with k in HN by lia.
    destruct (copy_n _ _ _ _ _ _) as [b m1|b m1|]; cycle 1.
    { destruct HN as (ds' & Hl & -> & Hleak); [lia|]. split; [done|].
      exists (ds' ++ drop k xs). split_and!; [len | | lia].
      vec. apply vector_of_eq; [buf_eq|len]. }
    { apply HN. lia. }
    destruct HN as (ds' & Hl & -> & Hleak & Hlog & Hval); [lia|].
    case_decide as Hshrink.
    + (* the surplus tail is destroyed *)
      unfold RawMemory_plus. cbn [capacity_]. (case_decide; [|lia]).
      rewrite size_t_sub by (first [lia | apply (fits_le _ cap); [lia|done]]).
      rewrite (destroy_n_at (drop k xs)) by len.
      split; [by rewrite destroy_all_leaked, Hleak|].
      exists ds'. split_and!; [lia | | |].
      * vec. apply vector_of_eq; [|lia]. rewrite <- raw_add. buf_eq.
      * intros _ Hca. rewrite (Hval Hca). apply take_ge. lia.
      * exists []. split; [done|]. rewrite destroy_all_log, Hlog.
        subst k. rewrite Nat.min_l by lia. rewrite <- app_assoc. f_equal.
        f_equal. rewrite (take_ge ys) by lia.
        by rewrite zip_with_take_l' by lia.
    + (* the extra elements are copy-constructed *)
      assert (Hk : k = length xs) by lia.
      rewrite size_t_sub by (first [lia | apply (fits_le _ rcap); [lia|done]]).
      rewrite (drop_ge xs k) by lia. rewrite cells_nil. cbn [app].
      rewrite (raw_add_sub (length ys - length xs) (cap - length xs)) by lia.
      pose proof (uninitialized_copy_n_spec (drop k ys) (cells (take k ys))
                    (raw (rcap - length ys)) (cells ds')
                    (raw (cap - length xs - (length ys - length xs))) m1) as HU.
      rewrite !length_cells, length_take, length_drop, Hl in HU.
      replace (k `min` length ys) with (length xs) in HU by lia.
      rewrite Hk in HU. rewrite Hk.
      destruct (uninitialized_copy_n _ _ _ _ _ _) as [b m2|b m2|]; [| |done].
      * destruct HU as (zs & Hlz & -> & Hleak2 & Hlog2 & Hval2).
        split; [congruence|]. exists (ds' ++ zs). split_and!; [len | | |].
        -- vec. apply vector_of_eq; [buf_eq|len].
        -- intros Hcc Hca. rewrite (Hval Hca), (Hval2 Hcc), <- Hk. apply take_drop.
        -- exists []. split; [done|]. rewrite Hlog2, Hlog.
           rewrite <- app_assoc. f_equal. f_equal.
           rewrite (take_ge xs) by lia.
           by rewrite zip_with_take_r' by lia.
      * destruct HU as (-> & Hleak2). split; [congruence|].
        exists ds'. split_and!; [lia | | lia].
        vec. apply vector_of_eq; [|lia]. rewrite <- raw_add. buf_eq.
Qed.


(** ** The log of Reserve and of the Emplace family *)

Lemma construct_log a buf m m' :
  final (construct a buf m) = Some m' →
  ∃ e w, construction_event a buf = Some e ∧ m' = emit e w m.
Proof.
  destruct a as [mk|[x|i]|[x|i]]; cbn [construct construction_event].
  - destruct (mk (world m)) as [w [y|]]; intros [= <-]; eauto.
  - unfold new_copy. destruct (copy_ctor x (world m)) as [w [y|]];
      intros [= <-]; eauto.
  - destruct (buf !! i) as [[x|]|]; [|done|done]. unfold new_copy.
    destruct (copy_ctor x (world m)) as [w [y|]]; intros [= <-]; cbn; eauto.
  - unfold new_move. destruct (move_ctor x (world m)) as [w [x' [y|]]];
      intros [= <-]; eauto.
  - destruct (buf !! i) as [[x|]|]; [|done|done]. unfold new_move.
    destruct (move_ctor x (world m)) as [w [x' [y|]]]; intros [= <-]; cbn; eauto.
Qed.

Lemma place_log (P : event T → Prop) buf i x m buf' m' :
  place buf i x m = Some (buf', m') → log_grows P m m'.
Proof.
  unfold place. destruct (buf !! i) as [[old|]|]; [| |done]; intros [= <- <-].
  - apply log_grows_leak.
  - apply log_grows_refl.
Qed.

Lemma move_assign_at_log buf s d m m' :
  final (move_assign_at buf s d m) = Some m' →
  log_grows is_move_assignment m m'.
Proof.
  unfold move_assign_at. case_decide; [done|].
  destruct (buf !! s) as [[x|]|]; [|done|done].
  destruct (buf !! d) as [[y|]|]; [|done|done]. unfold assign_move.
  destruct (move_assign y x (world m)) as [w [[y' x'] [|]]]; intros [= <-];
    apply log_grows_emit; simpl; tauto.
Qed.

Lemma move_backward_loop_log buf n last d_last m m' :
  final (move_backward_loop buf n last d_last m) = Some m' →
  log_grows is_move_assignment m m'.
Proof.
  revert buf last d_last m. induction n as [|n IH]; intros buf last d_last m; simpl.
  - intros [= <-]. apply log_grows_refl.
  - destruct last as [|last]; [done|]. destruct d_last as [|d_last]; [done|].
    destruct (move_assign_at _ _ _ _) as [b m1|b m1|] eqn:Hs; [| |done].
    + intros Hf. eapply log_grows_trans; [|by eapply IH].
      eapply move_assign_at_log. by rewrite Hs.
    + intros [= <-]. eapply move_assign_at_log. by rewrite Hs.
Qed.

Lemma move_loop_log buf first n d_first m m' :
  final (move_loop buf first n d_first m) = Some m' →
  log_grows is_move_assignment m m'.
Proof.
  revert buf first d_first m. induction n as [|n IH]; intros buf first d_first m; simpl.
  - intros [= <-]. apply log_grows_refl.
  - destruct (move_assign_at _ _ _ _) as [b m1|b m1|] eqn:Hs; [| |done].
    + intros Hf. eapply log_grows_trans; [|by eapply IH].
      eapply move_assign_at_log. by rewrite Hs.
    + intros [= <-]. eapply move_assign_at_log. by rewrite Hs.
Qed.

(** Reserve allocates, relocates by the constructor CopyOrMoveData
    selects, destroys and releases; nothing else. *)
Lemma Reserve_log n this m m' :
  final (Reserve n this m) = Some m' →
  log_grows (λ e, is_allocation e ∨ is_release e ∨ is_destruction e
                  ∨ if relocates_by_move then is_move_construction e
                    else is_copy_construction e) m m'.
Proof.
  unfold Reserve. case_decide; [intros [= <-]; apply log_grows_refl|].
  unfold RawMemory_new.
  destruct (Allocate n m) as [b m1|[] m1|] eqn:Ha; [| |done].
  - assert (log_grows is_allocation m m1) as H1
      by (eapply Allocate_log; by rewrite Ha).
    cbn [buffer_].
    destruct (CopyOrMoveData _ _ _ _ _ _) as [[s d] m2|[s d] m2|] eqn:Hc; [| |done].
    + assert (log_grows _ m1 m2) as H2
        by (eapply CopyOrMoveData_log; by rewrite Hc).
      destruct (destroy_n s 0 (size_ this) m2) as [[s1 m3]|] eqn:Hd; [|done].
      cbn. intros [= <-].
      eapply log_grows_trans; [weaken_log H1|].
      eapply log_grows_trans; [weaken_log H2|].
      eapply log_grows_trans; [weaken_log (destroy_n_log _ _ _ _ _ _ Hd)|].
      weaken_log (Deallocate_log s1 m3).
    + assert (log_grows _ m1 m2) as H2
        by (eapply CopyOrMoveData_log; by rewrite Hc).
      cbn. intros [= <-].
      eapply log_grows_trans; [weaken_log H1|].
      eapply log_grows_trans; [weaken_log H2|].
      weaken_log (Deallocate_log d m2).
  - intros [= <-].
    assert (log_grows is_allocation m m1) as H1
      by (eapply Allocate_log; by rewrite Ha).
    weaken_log H1.
Qed.


Lemma construct_grows a buf m m' :
  final (construct a buf m) = Some m' → log_grows is_construction m m'.
Proof.
  intros Hf. destruct (construct_log a buf m m' Hf) as (e & w & He & ->).
  apply log_grows_emit. by eapply construction_event_is_construction.
Qed.

Lemma std_move_backward_log buf first last d_last m m' :
  final (std_move_backward buf first last d_last m) = Some m' →
  log_grows is_move_assignment m m'.
Proof.
  unfold std_move_backward. repeat case_decide; try done.
  apply move_backward_loop_log.
Qed.

Lemma std_move_log buf first last d_first m m' :
  final (std_move buf first last d_first m) = Some m' →
  log_grows is_move_assignment m m'.
Proof.
  unfold std_move. repeat case_decide; try done. apply move_loop_log.
Qed.

Lemma log_grows_emit_r (P : event T → Prop) e w m m0 :
  log_grows P m m0 → P e → log_grows P m (emit e w m0).
Proof.
  intros H0 He. eapply log_grows_trans; [exact H0|]. by apply log_grows_emit.
Qed.

Lemma log_grows_Deallocate_r (P : event T → Prop) buf m m0 :
  log_grows P m m0 → (∀ e, is_release e → P e) →
  log_grows P m (Deallocate buf m0).
Proof.
  intros H0 HP. eapply log_grows_trans; [exact H0|].
  eapply log_grows_weaken; [exact HP | apply Deallocate_log].
Qed.

(** An insertion without reallocation constructs, move-assigns and
    destroys; it does not allocate. *)
Lemma EmplaceWithoutRealloc_log pos a this m m' :
  final (EmplaceWithoutRealloc pos a this m) = Some m' →
  log_grows (λ e, is_construction e ∨ is_move_assignment e ∨ is_destruction e)
            m m'.
Proof.
  unfold EmplaceWithoutRealloc. case_decide.
  - destruct (RawMemory_plus _ _); [|done].
    destruct (construct _ _ _) as [[x b] m1|b m1|] eqn:Hc; [| |done].
    + assert (log_grows is_construction m m1) as H1
        by (eapply construct_grows; by rewrite Hc).
      destruct (place _ _ _ _) as [[b1 m2]|] eqn:Hp; [|done]. intros [= <-].
      eapply log_grows_trans; [weaken_log H1|]. by eapply place_log.
    + assert (log_grows is_construction m m1) as H1
        by (eapply construct_grows; by rewrite Hc).
      intros [= <-]. weaken_log H1.
  - destruct (construct _ _ _) as [[temp b] m1|b m1|] eqn:Hc; [| |done]; cycle 1.
    { assert (log_grows is_construction m m1) as H1
        by (eapply construct_grows; by rewrite Hc).
      intros [= <-]. weaken_log H1. }
    assert (log_grows is_construction m m1) as H1
      by (eapply construct_grows; by rewrite Hc).
    destruct (RawMemory_plus _ _); [|done].
    destruct (RawMemory_index _ _); [|done].
    destruct (b !! _) as [[x|]|]; [|done|done]. unfold new_move.
    destruct (move_ctor x (world m1)) as [w2 [x' [y|]]]; cycle 1.
    { intros [= <-]. unfold destroy.
      repeat (apply log_grows_emit_r; [|simpl; tauto]). weaken_log H1. }
    destruct (place _ _ _ _) as [[b1 m3]|] eqn:Hp; [|done].
    assert (log_grows is_construction (emit (EvMoveCtor x) w2 m1) m3) as H3
      by (by eapply place_log).
    destruct (std_move_backward _ _ _ _ _) as [b2 m4|b2 m4|] eqn:Hs; [| |done];
      (assert (log_grows is_move_assignment m3 m4) as H4
         by (eapply std_move_backward_log; by rewrite Hs)); cycle 1.
    { intros [= <-]. unfold destroy. apply log_grows_emit_r; [|simpl; tauto].
      eapply log_grows_trans; [|weaken_log H4].
      eapply log_grows_trans; [|weaken_log H3].
      apply log_grows_emit_r; [|simpl; tauto]. weaken_log H1. }
    destruct (RawMemory_index _ _); [|done].
    destruct (b2 !! _) as [[d|]|]; [|done|done]. unfold assign_move.
    destruct (move_assign d temp (world m4)) as [w5 [[d' temp'] ok]].
    assert (log_grows (λ e, is_construction e ∨ is_move_assignment e
                            ∨ is_destruction e) m m4) as H5.
    { eapply log_grows_trans; [|weaken_log H4].
      eapply log_grows_trans; [|weaken_log H3].
      apply log_grows_emit_r; [|simpl; tauto]. weaken_log H1. }
    destruct ok; intros [= <-]; unfold destroy;
      repeat (apply log_grows_emit_r; [|simpl; tauto]); exact H5.
Qed.

(** An insertion with reallocation allocates once, before anything else,
    and constructs the new element before it relocates any other. *)
Lemma EmplaceWithRealloc_log pos a this m m' :
  SizeT.fits (grown (size_ this)) →
  final (EmplaceWithRealloc pos a this m) = Some m' →
  ∃ evs, log m' = log m ++ EvAlloc (grown (size_ this)) :: evs
    ∧ Forall (λ e, ¬ is_allocation e) evs
    ∧ (evs = [] ∨ ∃ e rest, construction_event a (region this) = Some e
                            ∧ evs = e :: rest).
Proof.
  intros Hfit. unfold EmplaceWithRealloc.
  rewrite new_capacity_grown by done.
  pose proof (lt_grown (size_ this)) as Hg.
  unfold RawMemory_new, Allocate. (case_decide; [|lia]).
  destruct (operator_new _ _) as [w0 [|]]; cycle 1.
  { intros [= <-]. exists []. split_and!; [done | constructor | by left]. }
  set (m1 := emit _ w0 m).
  destruct (RawMemory_plus _ _); [|done].
  assert (Hrest : ∀ e w m2,
    construction_event a (region this) = Some e →
    log_grows (λ e, ¬ is_allocation e) (emit e w m1) m2 →
    ∃ evs, log m2 = log m ++ EvAlloc (grown (size_ this)) :: evs
      ∧ Forall (λ e, ¬ is_allocation e) evs
      ∧ (evs = [] ∨ ∃ e rest, construction_event a (region this) = Some e
                              ∧ evs = e :: rest)).
  { intros e w m2 He (evs & Hlog & Hall). exists (e :: evs). split_and!.
    - rewrite Hlog. cbn. by rewrite <- !app_assoc.
    - constructor; [|done].
      pose proof (construction_event_is_construction _ _ _ He).
      destruct e; simpl in *; tauto.
    - right. eauto. }
  destruct (construct _ _ _) as [[x b] m2|b m2|] eqn:Hc; [| |done]; cycle 1.
  { intros [= <-].
    destruct (construct_log a (region this) m1 m2) as (e & w & He & ->);
      [by rewrite Hc|].
    eapply Hrest; [done|]. unfold RawMemory_dtor.
    apply log_grows_Deallocate_r; [apply log_grows_refl|].
    intros ev; destruct ev; simpl; tauto. }
  destruct (construct_log a (region this) m1 m2) as (e & w & He & ->);
    [by rewrite Hc|].
  destruct (place _ _ _ _) as [[nb m3]|] eqn:Hp; [|done].
  assert (log_grows (λ e, ¬ is_allocation e) (emit e w m1) m3) as H3
    by (by eapply place_log).
  destruct (CopyOrMoveData b _ _ _ _ _) as [[b1 nb1] m4|[b1 nb1] m4|] eqn:Hc1;
    [| |done];
    (assert (log_grows (λ e, ¬ is_allocation e) m3 m4) as H4
       by (eapply log_grows_weaken;
           [|eapply CopyOrMoveData_log; by rewrite Hc1];
           intros ev; destruct ev; simpl; destruct relocates_by_move; tauto)); cycle 1.
  { destruct (destroy_n _ _ _ _) as [[nb2 m5]|] eqn:Hd; [|done]. intros [= <-].
    eapply Hrest; [done|]. unfold RawMemory_dtor.
    apply log_grows_Deallocate_r; [|intros ev; destruct ev; simpl; tauto].
    eapply log_grows_trans;
      [|eapply log_grows_weaken, destroy_n_log, Hd;
        intros ev; destruct ev; simpl; tauto].
    eapply log_grows_trans; [exact H3 | exact H4]. }
  destruct (ptr_diff _ _); [|done].
  destruct (CopyOrMoveData b1 _ _ _ _ _) as [[b2 nb2] m5|[b2 nb2] m5|] eqn:Hc2;
    [| |done];
    (assert (log_grows (λ e, ¬ is_allocation e) m4 m5) as H5
       by (eapply log_grows_weaken;
           [|eapply CopyOrMoveData_log; by rewrite Hc2];
           intros ev; destruct ev; simpl; destruct relocates_by_move; tauto)).
  - destruct (destroy_n _ _ _ _) as [[b3 m6]|] eqn:Hd; [|done]. cbn. intros [= <-].
    eapply Hrest; [done|].
    apply log_grows_Deallocate_r; [|intros ev; destruct ev; simpl; tauto].
    eapply log_grows_trans;
      [|eapply log_grows_weaken, destroy_n_log, Hd;
        intros ev; destruct ev; simpl; tauto].
    eapply log_grows_trans; [|exact H5].
    eapply log_grows_trans; [exact H3 | exact H4].
  - destruct (destroy_n _ _ _ _) as [[nb3 m6]|] eqn:Hd; [|done]. intros [= <-].
    eapply Hrest; [done|]. unfold RawMemory_dtor.
    apply log_grows_Deallocate_r; [|intros ev; destruct ev; simpl; tauto].
    eapply log_grows_trans;
      [|eapply log_grows_weaken, destroy_n_log, Hd;
        intros ev; destruct ev; simpl; tauto].
    eapply log_grows_trans; [|exact H5].
    eapply log_grows_trans; [exact H3 | exact H4].
Qed.


(** ** Emplace *)

Lemma Emplace_spec pos a xs cap m :
  length xs ≤ cap → pos ≤ length xs → valid_args a (length xs) →
  SizeT.fits cap → (length xs = cap → SizeT.fits (grown cap)) →
  match Emplace pos a (vector_of xs cap) m with
  | Ok (v, it) m' =>
      it = pos ∧ leaked m' = leaked m
      ∧ ∃ V zs, length zs = S (length xs)
          ∧ v = vector_of zs (if decide (length xs = cap)
                              then grown (length xs) else cap)
          ∧ (value_semantics →
             ∃ ys, supplies a xs V ys ∧ zs = take pos ys ++ V :: drop pos ys)
  | Exn v m' => True
  | Fault => False
  end.
Proof.
  intros Hcap Hpos Hv Hfit Hgrow. unfold Emplace, Capacity.
  cbn [vector_of size_ data_ capacity_]. fold (vector_of xs cap).
  case_decide as Hfull.
  - pose proof (EmplaceWithRealloc_spec pos a xs cap m Hcap Hpos Hv) as HE.
    specialize (Hgrow Hfull). rewrite <- Hfull in Hgrow. specialize (HE Hgrow).
    destruct (EmplaceWithRealloc _ _ _ _) as [[v it] m'|v m'|]; [|done|done].
    destruct HE as (-> & Hleak & V & zs & Hl & -> & Hval).
    split_and!; [done | done |]. exists V, zs. split_and!; [done | done |].
    intros (Hcc & Hmc & _). auto.
  - pose proof (EmplaceWithoutRealloc_spec pos a xs cap m) as HE.
    destruct (EmplaceWithoutRealloc _ _ _ _) as [[v it] m'|v m'|]; [|done|];
      apply HE; try done; lia.
Qed.

Lemma construct_invalid a xs k m :
  ¬ valid_args a (length xs) → construct a (cells xs ++ raw k) m = Fault.
Proof.
  assert (∀ i, ¬ i < length xs →
    (cells xs ++ raw (T:=T) k) !! i = Some None ∨ (cells xs ++ raw (T:=T) k) !! i = None)
    as Hlook.
  { intros i Hi. rewrite lookup_app_r by (rewrite length_cells; lia).
    destruct (raw k !! _) as [c|] eqn:Hc; [|by right].
    apply lookup_replicate_1 in Hc as [-> _]. by left. }
  destruct a as [mk|[x|i]|[x|i]]; simpl; try tauto;
    intros Hi; destruct (Hlook i Hi) as [-> | ->]; done.
Qed.

Lemma Emplace_Ok_valid pos a xs cap m r m' :
  Emplace pos a (vector_of xs cap) m = Ok r m' → valid_args a (length xs).
Proof.
  intros HE.
  assert (Decision (valid_args a (length xs))) as [Hv|Hv]
    by (destruct a as [mk|[x|i]|[x|i]]; simpl; apply _); [done|].
  exfalso. revert HE. unfold Emplace. case_decide.
  - unfold EmplaceWithRealloc. rewrite region_vector_of.
    destruct (RawMemory_new _ _) as [nd m1|[] m1|]; [|done|done].
    destruct (RawMemory_plus _ _); [|done].
    by rewrite construct_invalid.
  - unfold EmplaceWithoutRealloc. rewrite region_vector_of.
    case_decide.
    + destruct (RawMemory_plus _ _); [|done]. by rewrite construct_invalid.
    + by rewrite construct_invalid.
Qed.

(** ** The growth of the capacity *)

Lemma capacity_after_succ n :
  capacity_after (S n)
  = if decide (n = capacity_after n) then grown n else capacity_after n.
Proof.
  destruct n as [|n]; [done|]. unfold capacity_after, grown.
  set (k := S n). assert (0 < k) as Hk by lia. clearbody k.
  destruct (decide (k = 1)) as [->|Hk1]; [done|].
  pose proof (Nat.log2_up_spec k ltac:(lia)) as [Hlo Hhi].
  case_decide as Hpow.
  - rewrite Hpow at 1. rewrite Nat.log2_up_succ_pow2 by lia.
    rewrite Nat.pow_succ_r'. lia.
  - f_equal. apply Nat.log2_up_unique; [apply Nat.log2_up_pos; lia|]. lia.
Qed.

Lemma le_capacity_after n : n ≤ capacity_after n.
Proof.
  destruct n as [|n]; [done|]. unfold capacity_after.
  destruct (decide (S n = 1)) as [->|]; [done|].
  pose proof (Nat.log2_up_spec (S n) ltac:(lia)). lia.
Qed.

Lemma capacity_after_lt_double n : 0 < n → capacity_after n < 2 * n.
Proof.
  intros Hn. destruct n as [|n]; [lia|]. unfold capacity_after.
  destruct (decide (S n = 1)) as [->|]; [simpl; lia|].
  pose proof (Nat.log2_up_spec (S n) ltac:(lia)) as [Hlo _].
  assert (Nat.log2_up (S n) = S (pred (Nat.log2_up (S n)))) as ->.
  { pose proof (Nat.log2_up_pos (S n) ltac:(lia)). lia. }
  rewrite Nat.pow_succ_r'. lia.
Qed.

Lemma push_all_spec args xs m this' m' :
  SizeT.fits (2 * (length xs + length args)) →
  push_all args (vector_of xs (capacity_after (length xs))) m = Ok this' m' →
  ∃ zs, length zs = length xs + length args
    ∧ this' = vector_of zs (capacity_after (length xs + length args)).
Proof.
  revert xs m. induction args as [|a args IH]; intros xs m Hfit;
    cbn [push_all length] in *.
  - intros [= <- <-]. exists xs. by rewrite Nat.add_0_r.
  - unfold EmplaceBack, end_. cbn [vector_of size_].
    fold (vector_of xs (capacity_after (length xs))).
    destruct (Emplace _ _ _ _) as [[v it] m1|v m1|] eqn:HE; [|done|done].
    pose proof (Emplace_Ok_valid _ _ _ _ _ _ _ HE) as Hv.
    pose proof (Emplace_spec (length xs) a xs (capacity_after (length xs)) m
                  (le_capacity_after _) (le_n _) Hv) as HS.
    rewrite HE in HS.
    destruct HS as (_ & _ & V & zs & Hl & -> & _).
    { destruct (decide (length xs = 0)) as [Hz|Hz]; [by rewrite Hz|].
      pose proof (capacity_after_lt_double (length xs) ltac:(lia)).
      eapply fits_le; [|exact Hfit]. lia. }
    { intros <-. eapply fits_le; [|exact Hfit]. unfold grown. lia. }
    rewrite <- capacity_after_succ, <- Hl. intros Hpush.
    apply IH in Hpush as (zs' & Hl' & ->).
    + exists zs'. rewrite Hl', Hl. split; [lia|]. f_equal. f_equal. lia.
    + eapply fits_le; [|exact Hfit]. lia.
Qed.


(** ** Resize and PopBack *)

Lemma uninitialized_value_construct_loop_spec n done dpre dpost m :
  match uninitialized_value_construct_loop
          (dpre ++ cells done ++ raw n ++ dpost) (length dpre)
          (length dpre + length done) n m with
  | Ok d m' =>
      ∃ ys, length ys = n ∧ d = dpre ++ cells (done ++ ys) ++ dpost
        ∧ leaked m' = leaked m
  | Exn d m' =>
      d = dpre ++ raw (length done + n) ++ dpost ∧ leaked m' = leaked m
  | Fault => False
  end.
Proof.
  revert done m. induction n as [|n IH]; intros done m;
    cbn [uninitialized_value_construct_loop].
  - exists []. rewrite !app_nil_r. by split_and!.
  - rewrite raw_S. cbn [app]. unfold new_value.
    destruct (value_init (world m)) as [w [y|]].
    + assert (Hcur : length dpre + length done = length (dpre ++ cells done))
        by (by rewrite length_app, length_cells).
      rewrite Hcur, (app_assoc dpre), place_raw. rewrite <- Hcur.
      specialize (IH (done ++ [y]) (emit EvValueInit w m)).
      rewrite !length_app in IH. simpl in IH.
      replace (S (length dpre + length done))
        with (length dpre + (length done + 1)) by lia.
      replace ((dpre ++ cells done) ++ Some y :: raw n ++ dpost)
        with (dpre ++ cells (done ++ [y]) ++ raw n ++ dpost)
        by (by rewrite cells_app, <- !app_assoc).
      destruct (uninitialized_value_construct_loop _ _ _ _ _)
        as [d m'|d m'|]; [| |done].
      * destruct IH as (ys & Hlen & -> & Hleak).
        exists (y :: ys). simpl. rewrite <- app_assoc. simpl.
        split_and!; [lia | done | done].
      * destruct IH as [-> Hleak]. split; [|done]. f_equal. f_equal. f_equal. lia.
    + unfold rollback.
      replace (length dpre + length done - length dpre) with (length done) by lia.
      rewrite destroy_n_cells. split.
      * by rewrite raw_add, <- app_assoc.
      * by rewrite destroy_all_leaked.
Qed.

Lemma Resize_spec n xs cap m :
  length xs ≤ cap → SizeT.fits cap → SizeT.fits n →
  match Resize n (vector_of xs cap) m with
  | Ok v m' =>
      leaked m' = leaked m
      ∧ ∃ zs, length zs = n ∧ v = vector_of zs (n `max` cap)
          ∧ (n ≤ length xs → zs = take n xs)
          ∧ (copy_ctor_copies → move_ctor_moves → length xs ≤ n →
             take (length xs) zs = xs)
  | Exn v m' =>
      leaked m' = leaked m
      ∧ ∃ ws c, length ws = length xs ∧ v = vector_of ws c
                ∧ (c = cap ∨ c = n `max` cap)
  | Fault => False
  end.
Proof.
  intros Hcap Hfit Hn. unfold Resize. cbn [vector_of size_].
  fold (vector_of xs cap). case_decide as Hle.
  - rewrite size_t_sub by (first [lia | apply (fits_le _ cap); [lia|done]]).
    rewrite region_vector_of, (cells_take_drop xs n), <- app_assoc.
    rewrite (destroy_n_at (drop n xs)) by len.
    split; [by rewrite destroy_all_leaked|].
    exists (take n xs). split_and!; [len | | done |].
    + replace (n `max` cap) with cap by lia.
      vec. apply vector_of_eq; [|len].
      f_equal. rewrite <- raw_add. apply raw_eq. len.
    + intros _ _ Hge. assert (n = length xs) as -> by lia.
      by rewrite !take_ge by (rewrite ?take_ge; lia).
  - pose proof (Reserve_spec xs cap n m Hcap) as HR.
    destruct (Reserve n _ m) as [v m1|v m1|]; [| |done]; cycle 1.
    { destruct HR as (_ & Hleak & ws & Hl & -> & _). split; [done|].
      exists ws, cap. split_and!; [done | done | by left]. }
    destruct HR as [Hleak HR].
    assert (∃ ys, length ys = length xs ∧ v = vector_of ys (n `max` cap)
                  ∧ (copy_ctor_copies → move_ctor_moves → ys = xs))
      as (ys & Hl & -> & Hval).
    { destruct HR as [(Hle' & -> & _)|(Hlt & ys & Hl & -> & Hval)].
      - exists xs. by rewrite Nat.max_r by lia.
      - exists ys. by rewrite Nat.max_l by lia. }
    clear HR. set (c := n `max` cap) in *.
    cbn [vector_of size_]. fold (vector_of ys c).
    rewrite Hl, size_t_sub by (first [lia | done]).
    rewrite region_vector_of.
    pose proof (uninitialized_value_construct_loop_spec (n - length xs) []
                  (cells ys) (raw (c - n)) m1) as HU.
    rewrite length_cells, Hl in HU. cbn [length app cells] in HU.
    rewrite Nat.add_0_r in HU.
    unfold uninitialized_value_construct_n.
    replace (raw (c - length ys))
      with (raw (T:=T) (n - length xs) ++ raw (c - n))
      by (rewrite <- raw_add; apply raw_eq; lia).
    destruct (uninitialized_value_construct_loop _ _ _ _ _) as [d m2|d m2|]; [| |done].
    + destruct HU as (zs & Hlz & -> & Hleak2).
      split; [congruence|]. exists (ys ++ zs). split_and!; [len | | lia |].
      * vec. apply vector_of_eq; [|len].
        rewrite cells_app, <- app_assoc. do 2 f_equal. apply raw_eq. len.
      * intros Hcc Hmc _. rewrite <- Hl, take_app_length. auto.
    + destruct HU as [-> Hleak2]. split; [congruence|].
      exists ys, c. split_and!; [done | | by right].
      vec. apply vector_of_eq; [|done]. cbn [length]. rewrite Nat.add_0_l.
      f_equal. rewrite <- raw_add. apply raw_eq. lia.
Qed.

Lemma PopBack_spec xs cap m :
  0 < length xs ≤ cap → SizeT.fits cap →
  ∃ m', PopBack (vector_of xs cap) m
        = Some (vector_of (take (length xs - 1) xs) cap, m')
        ∧ leaked m' = leaked m.
Proof.
  intros [Hpos Hcap] Hfit. unfold PopBack, ptr_back. cbn [vector_of size_].
  fold (vector_of xs cap). rewrite decide_True by lia.
  destruct (snoc_inv xs Hpos) as (ys & x & ->).
  rewrite length_app in *. cbn [length] in *.
  rewrite region_vector_of, cells_app, cells_cons, cells_nil, <- app_assoc.
  cbn [app]. rewrite destroy_one by len.
  rewrite size_t_sub by (first [lia | apply (fits_le _ cap); [lia|done]]).
  exists (destroy x m). split; [|apply (destroy_all_leaked [x])]. do 2 f_equal.
  vec. apply vector_of_eq; [|len].
  replace (length ys + 1 - 1) with (length ys) by lia.
  rewrite take_app_length, <- raw_S. buf_eq.
Qed.

Lemma Vector_sized_spec n m :
  match Vector_sized n m with
  | Ok v m' => leaked m' = leaked m ∧ ∃ zs, length zs = n ∧ v = vector_of zs n
  | Exn _ m' => leaked m' = leaked m
  | Fault => False
  end.
Proof.
  unfold Vector_sized, RawMemory_new, Allocate, uninitialized_value_construct_n.
  assert (Hdst : ∀ m0,
    match uninitialized_value_construct_loop (raw n) 0 0 n m0 with
    | Ok d m' => ∃ zs, length zs = n ∧ d = cells zs ∧ leaked m' = leaked m0
    | Exn d m' => d = raw n ∧ leaked m' = leaked m0
    | Fault => False
    end).
  { intros m0.
    pose proof (uninitialized_value_construct_loop_spec n [] [] [] m0) as HU.
    cbn [app length cells] in HU. rewrite !app_nil_r in HU.
    destruct (uninitialized_value_construct_loop _ _ _ _ _) as [d m'|d m'|];
      [| |done].
    - destruct HU as (zs & ? & ? & ?). exists zs.
      rewrite app_nil_r in *. by split_and!.
    - done. }
  case_decide as Hn.
  - destruct (operator_new _ _) as [w [|]]; [|done]. cbn [buffer_].
    change (replicate n None) with (raw (T:=T) n).
    specialize (Hdst (emit (EvAlloc n) w m)).
    destruct (uninitialized_value_construct_loop _ _ _ _ _) as [d m'|d m'|];
      [| |done].
    + destruct Hdst as (zs & Hl & -> & Hleak).
      split; [done|]. exists zs. split; [done|].
      vec. apply vector_of_eq; [|done]. rewrite Hl, Nat.sub_diag.
      by rewrite app_nil_r.
    + destruct Hdst as [-> Hleak]. unfold RawMemory_dtor. vec.
      by rewrite Deallocate_raw.
  - assert (n = 0) as -> by lia. cbn. split; [done|]. by exists [].
Qed.

(** ** The invariant of the container *)

Lemma canonical_vector_of xs cap :
  length xs ≤ cap → SizeT.fits cap → canonical (vector_of xs cap).
Proof. intros. by exists xs, cap. Qed.

Lemma canonical_default : canonical (T:=T) Vector_default.
Proof. exists [], 0. split_and!; [done | cbn; lia | done]. Qed.

(** A stranded vector does not satisfy the invariant: the slot at its
    length is not raw memory. *)
Lemma stranded_not_canonical (this : Vector T) :
  stranded this → ¬ canonical this.
Proof.
  intros (ws & cap & -> & [Hpos Hcap] & _) (xs & cap' & Heq & _).
  destruct (snoc_inv ws Hpos) as (us & u & ->).
  assert (Hsz : length xs = length us).
  { apply (f_equal size_) in Heq. revert Heq. vec. len. }
  apply (f_equal (λ v, region v !! length us)) in Heq. revert Heq.
  rewrite region_vector_of. unfold set_size, region. cbn [vector_of data_ buffer_].
  rewrite cells_app, cells_cons, cells_nil, <- app_assoc.
  cbn [app]. rewrite lookup_at by len. rewrite lookup_app_r by len.
  intros Hl. symmetry in Hl. unfold raw in Hl. apply lookup_replicate in Hl.
  by destruct Hl.
Qed.

(** ** Element types that never throw

    With such a type no operation of the container is left by an
    exception. *)

Section NeverThrows.
Hypothesis Hnt : never_throws.

Lemma no_copy_throw x m : (new_copy x m).1 ≠ None.
Proof.
  unfold new_copy. destruct Hnt as (_ & Hc & _). specialize (Hc x (world m)).
  by destruct (copy_ctor x (world m)) as [w r].
Qed.

Lemma no_move_throw x m : (new_move x m).1.2 ≠ None.
Proof.
  unfold new_move. destruct Hnt as (_ & _ & Hc & _). specialize (Hc x (world m)).
  by destruct (move_ctor x (world m)) as [w [x' r]].
Qed.

Lemma no_value_throw m : (new_value m).1 ≠ None.
Proof.
  unfold new_value. destruct Hnt as (Hc & _). specialize (Hc (world m)).
  by destruct (value_init (world m)) as [w r].
Qed.

Lemma no_copy_assign_throw d x m : (assign_copy d x m).1.2 = true.
Proof.
  unfold assign_copy. destruct Hnt as (_ & _ & _ & Hc & _).
  specialize (Hc d x (world m)).
  by destruct (copy_assign d x (world m)) as [w [d' ok]].
Qed.

Lemma no_move_assign_throw d x m : (assign_move d x m).1.2 = true.
Proof.
  unfold assign_move. destruct Hnt as (_ & _ & _ & _ & Hc & _).
  specialize (Hc d x (world m)).
  by destruct (move_assign d x (world m)) as [w [[d' x'] ok]].
Qed.

Lemma uninitialized_copy_loop_returns src first n dst result cur m :
  no_exception (uninitialized_copy_loop src first n dst result cur m).
Proof.
  revert src first dst cur m. induction n as [|n IH]; intros src first dst cur m;
    simpl; [done|].
  destruct (src !! first) as [[x|]|]; [|done|done].
  pose proof (no_copy_throw x m) as Hc.
  destruct (new_copy x m) as [[y|] m1]; [|done].
  destruct (place _ _ _ _) as [[dst1 m2]|]; [apply IH | done].
Qed.

Lemma uninitialized_move_loop_returns src first n dst result cur m :
  no_exception (uninitialized_move_loop src first n dst result cur m).
Proof.
  revert src first dst cur m. induction n as [|n IH]; intros src first dst cur m;
    simpl; [done|].
  destruct (src !! first) as [[x|]|]; [|done|done].
  pose proof (no_move_throw x m) as Hc.
  destruct (new_move x m) as [[x' [y|]] m1]; [|done].
  destruct (place _ _ _ _) as [[dst1 m2]|]; [apply IH | done].
Qed.

Lemma uninitialized_value_construct_loop_returns dst first cur n m :
  no_exception (uninitialized_value_construct_loop dst first cur n m).
Proof.
  revert dst cur m. induction n as [|n IH]; intros dst cur m; simpl; [done|].
  pose proof (no_value_throw m) as Hc.
  destruct (new_value m) as [[y|] m1]; [|done].
  destruct (place _ _ _ _) as [[dst1 m2]|]; [apply IH | done].
Qed.

Lemma copy_n_returns src first n dst result m :
  no_exception (copy_n src first n dst result m).
Proof.
  revert src first dst result m. induction n as [|n IH];
    intros src first dst result m; simpl; [done|].
  destruct (src !! first) as [[x|]|]; [|done|done].
  destruct (dst !! result) as [[d|]|]; [|done|done].
  pose proof (no_copy_assign_throw d x m) as Hc.
  destruct (assign_copy d x m) as [[d' ok] m1]. simpl in Hc. subst ok. apply IH.
Qed.

Lemma move_assign_at_returns buf s d m : no_exception (move_assign_at buf s d m).
Proof.
  unfold move_assign_at. case_decide; [done|].
  destruct (buf !! s) as [[x|]|]; [|done|done].
  destruct (buf !! d) as [[y|]|]; [|done|done].
  pose proof (no_move_assign_throw y x m) as Hc.
  destruct (assign_move y x m) as [[[y' x'] ok] m1]. simpl in Hc. by subst ok.
Qed.

Lemma move_loop_returns buf first n d_first m :
  no_exception (move_loop buf first n d_first m).
Proof.
  revert buf first d_first m. induction n as [|n IH]; intros buf first d_first m;
    simpl; [done|].
  pose proof (move_assign_at_returns buf first d_first m) as Hs.
  destruct (move_assign_at _ _ _ _); [apply IH | done | done].
Qed.

Lemma move_backward_loop_returns buf n last d_last m :
  no_exception (move_backward_loop buf n last d_last m).
Proof.
  revert buf last d_last m. induction n as [|n IH]; intros buf last d_last m;
    simpl; [done|].
  destruct last as [|last]; [done|]. destruct d_last as [|d_last]; [done|].
  pose proof (move_assign_at_returns buf last d_last m) as Hs.
  destruct (move_assign_at _ _ _ _); [apply IH | done | done].
Qed.

Lemma CopyOrMoveData_returns src data count dst new_place m :
  no_exception (CopyOrMoveData src data count dst new_place m).
Proof.
  unfold CopyOrMoveData.
  destruct (is_nothrow_move_constructible || negb is_copy_constructible).
  - apply uninitialized_move_loop_returns.
  - pose proof (uninitialized_copy_loop_returns src data count dst new_place
                  new_place m) as Hc.
    unfold uninitialized_copy_n. by destruct (uninitialized_copy_loop _ _ _ _ _ _ _).
Qed.

Lemma RawMemory_new_returns n m : no_exception (RawMemory_new n m).
Proof.
  unfold RawMemory_new, Allocate. case_decide; [|done].
  destruct Hnt as (_ & _ & _ & _ & _ & Ha).
  specialize (Ha (SizeT.mul n sizeof_T) (world m)).
  destruct (operator_new _ (world m)) as [w ok]. simpl in Ha. by subst ok.
Qed.

Lemma construct_returns a buf m :
  args_never_throw a → no_exception (construct a buf m).
Proof.
  intros Ha. destruct a as [mk|[x|i]|[x|i]]; simpl.
  - specialize (Ha (world m)). by destruct (mk (world m)) as [w [y|]].
  - pose proof (no_copy_throw x m). by destruct (new_copy x m) as [[y|] m1].
  - destruct (buf !! i) as [[x|]|]; [|done|done].
    pose proof (no_copy_throw x m). by destruct (new_copy x m) as [[y|] m1].
  - pose proof (no_move_throw x m). by destruct (new_move x m) as [[x' [y|]] m1].
  - destruct (buf !! i) as [[x|]|]; [|done|done].
    pose proof (no_move_throw x m). by destruct (new_move x m) as [[x' [y|]] m1].
Qed.

Lemma Reserve_returns n this m : no_exception (Reserve n this m).
Proof.
  unfold Reserve. case_decide; [done|].
  pose proof (RawMemory_new_returns n m) as Hn.
  destruct (RawMemory_new n m) as [nd m1| |]; [|done|done].
  pose proof (CopyOrMoveData_returns (region this) 0 (size_ this) (buffer_ nd) 0 m1)
    as Hc.
  destruct (CopyOrMoveData _ _ _ _ _ _) as [[s d] m2|[s d] m2|]; [|done|done].
  by destruct (destroy_n _ _ _ _) as [[s1 m3]|].
Qed.

Lemma EmplaceWithRealloc_returns pos a this m :
  args_never_throw a → no_exception (EmplaceWithRealloc pos a this m).
Proof.
  intros Ha. unfold EmplaceWithRealloc.
  pose proof (RawMemory_new_returns
                (if decide (0 < size_ this) then SizeT.mul (size_ this) 2 else 1) m)
    as Hn.
  destruct (RawMemory_new _ m) as [nd m1| |]; [|done|done].
  destruct (RawMemory_plus _ _); [|done].
  pose proof (construct_returns a (region this) m1 Ha) as Hc.
  destruct (construct _ _ _) as [[x b] m2| |]; [|done|done].
  destruct (place _ _ _ _) as [[nb m3]|]; [|done].
  pose proof (CopyOrMoveData_returns b 0 (pos - begin this) nb 0 m3) as H1.
  destruct (CopyOrMoveData b _ _ _ _ _) as [[b1 nb1] m4| |]; [|done|done].
  destruct (ptr_diff _ _) as [count|]; [|done].
  pose proof (CopyOrMoveData_returns b1 (pos - begin this) count nb1
                (pos - begin this + 1) m4) as H2.
  destruct (CopyOrMoveData b1 _ _ _ _ _) as [[b2 nb2] m5| |]; [|done|done].
  by destruct (destroy_n _ _ _ _) as [[b3 m6]|].
Qed.

Lemma EmplaceWithoutRealloc_returns pos a this m :
  args_never_throw a → no_exception (EmplaceWithoutRealloc pos a this m).
Proof.
  intros Ha. unfold EmplaceWithoutRealloc.
  pose proof (construct_returns a (region this) m Ha) as Hc.
  case_decide.
  - destruct (RawMemory_plus _ _); [|done].
    destruct (construct _ _ _) as [[x b] m1| |]; [|done|done].
    by destruct (place _ _ _ _) as [[b1 m2]|].
  - destruct (construct _ _ _) as [[temp b] m1| |]; [|done|done].
    destruct (RawMemory_plus _ _); [|done].
    destruct (RawMemory_index _ _); [|done].
    destruct (b !! _) as [[x|]|]; [|done|done].
    pose proof (no_move_throw x m1) as Hm.
    destruct (new_move x m1) as [[x' [y|]] m2]; [|done].
    destruct (place _ _ _ _) as [[b1 m3]|]; [|done].
    assert (no_exception (std_move_backward b1 (begin this + (pos - begin this))
              (begin this + SizeT.sub (size_ this) 1) (end_ this) m3)) as Hs.
    { unfold std_move_backward. repeat case_decide; try done.
      apply move_backward_loop_returns. }
    destruct (std_move_backward _ _ _ _ _) as [b2 m4| |]; [|done|done].
    destruct (RawMemory_index _ _); [|done].
    destruct (b2 !! _) as [[d|]|]; [|done|done].
    pose proof (no_move_assign_throw d temp m4) as Hma.
    destruct (assign_move d temp m4) as [[[d' temp'] ok] m5].
    simpl in Hma. by subst ok.
Qed.

Lemma Emplace_returns pos a this m :
  args_never_throw a → no_exception (Emplace pos a this m).
Proof.
  intros Ha. unfold Emplace. case_decide;
    [by apply EmplaceWithRealloc_returns | by apply EmplaceWithoutRealloc_returns].
Qed.

Lemma Erase_returns pos this m : no_exception (Erase pos this m).
Proof.
  unfold Erase.
  assert (no_exception (std_move (region this)
            (begin this + (pos - begin this) + 1) (end_ this)
            (begin this + (pos - begin this)) m)) as Hs.
  { unfold std_move. repeat case_decide; try done. apply move_loop_returns. }
  destruct (std_move _ _ _ _ _) as [b m1| |]; [|done|done].
  destruct (ptr_back _ _); [|done].
  by destruct (destroy_n _ _ _ _) as [[b1 m2]|].
Qed.

Lemma Vector_copy_returns other m : no_exception (Vector_copy other m).
Proof.
  unfold Vector_copy.
  pose proof (RawMemory_new_returns (size_ other) m) as Hn.
  destruct (RawMemory_new _ m) as [nd m1| |]; [|done|done].
  pose proof (uninitialized_copy_loop_returns (region other) 0 (size_ other)
                (buffer_ nd) 0 0 m1) as Hc.
  unfold uninitialized_copy_n. by destruct (uninitialized_copy_loop _ _ _ _ _ _ _).
Qed.

Lemma copy_assign_distinct_returns this rhs m :
  no_exception (copy_assign_distinct this rhs m).
Proof.
  unfold copy_assign_distinct. case_decide.
  - pose proof (Vector_copy_returns rhs m) as Hc.
    destruct (Vector_copy rhs m) as [v m1| |]; [|done|done].
    destruct (Swap this v) as [t1 t2]. by destruct (Vector_dtor _ _).
  - pose proof (copy_n_returns (region rhs) 0 (size_ rhs `min` size_ this)
                  (region this) 0 m) as Hc.
    destruct (copy_n _ _ _ _ _ _) as [b m1| |]; [|done|done].
    case_decide.
    + destruct (RawMemory_plus _ _); [|done].
      by destruct (destroy_n _ _ _ _) as [[b1 m2]|].
    + pose proof (uninitialized_copy_loop_returns (region rhs) (size_ this)
                    (SizeT.sub (size_ rhs) (size_ this)) b (size_ this)
                    (size_ this) m1) as Hu.
      unfold uninitialized_copy_n.
      by destruct (uninitialized_copy_loop _ _ _ _ _ _ _).
Qed.

Lemma operator_assign_returns this rhs (s : gmap addr (Vector T)) m :
  no_exception (operator_assign this rhs s m).
Proof.
  unfold operator_assign.
  destruct (s !! this) as [v|]; [|done]. destruct (s !! rhs) as [r|]; [|done].
  case_decide; [|done].
  pose proof (copy_assign_distinct_returns v r m) as Hc.
  by destruct (copy_assign_distinct v r m).
Qed.

End NeverThrows.

Lemma returns_Ok {A E} (r : res T W A E) :
  r ≠ Fault → no_exception r → ∃ a m, r = Ok a m.
Proof. destruct r; [eauto | done | done]. Qed.

Lemma valid_args_mono (a : ctor_args T W) n k :
  n ≤ k → valid_args a n → valid_args a k.
Proof. destruct a as [mk|[x|i]|[x|i]]; simpl; try done; lia. Qed.

Lemma push_all_returns args xs m :
  SizeT.fits (2 * (length xs + length args)) → never_throws →
  Forall (λ a, args_never_throw a ∧ valid_args a 0) args →
  ∃ this' m',
    push_all args (vector_of xs (capacity_after (length xs))) m = Ok this' m'.
Proof.
  intros Hfit Hnt. revert xs m Hfit.
  induction args as [|a args IH]; intros xs m Hfit Hargs;
    cbn [push_all length] in *; [eauto|].
  apply Forall_cons in Hargs as [[Ha Hv] Hargs].
  unfold EmplaceBack, end_. cbn [vector_of size_].
  fold (vector_of xs (capacity_after (length xs))).
  pose proof (Emplace_spec (length xs) a xs (capacity_after (length xs)) m
                (le_capacity_after _) (le_n _)
                (valid_args_mono a 0 _ ltac:(lia) Hv)) as HS.
  pose proof (Emplace_returns Hnt (length xs) a
                (vector_of xs (capacity_after (length xs))) m Ha) as HR.
  destruct (Emplace _ _ _ _) as [[v it] m1|v m1|]; [|done|].
  - destruct HS as (_ & _ & V & zs & Hl & -> & _).
    { destruct (decide (length xs = 0)) as [Hz|Hz]; [by rewrite Hz|].
      pose proof (capacity_after_lt_double (length xs) ltac:(lia)).
      eapply fits_le; [|exact Hfit]. lia. }
    { intros <-. eapply fits_le; [|exact Hfit]. unfold grown. lia. }
    rewrite <- capacity_after_succ, <- Hl. apply IH; [|done].
    eapply fits_le; [|exact Hfit]. lia.
  - exfalso. apply HS.
    { destruct (decide (length xs = 0)) as [Hz|Hz]; [by rewrite Hz|].
      pose proof (capacity_after_lt_double (length xs) ltac:(lia)).
      eapply fits_le; [|exact Hfit]. lia. }
    { intros <-. eapply fits_le; [|exact Hfit]. unfold grown. lia. }
Qed.

(** ** Reading a vector in canonical form *)

Lemma elements_vector_of xs cap : elements (vector_of xs cap) = xs.
Proof.
  unfold elements. vec. rewrite take_app_length' by (by rewrite length_cells).
  apply live_objects_cells.
Qed.

Lemma operator_index_vector_of xs cap i :
  length xs ≤ cap → i < length xs →
  operator_index (vector_of xs cap) i = xs !! i.
Proof.
  intros Hcap Hi. unfold operator_index, RawMemory_index. vec.
  rewrite !decide_True by lia.
  destruct (lookup_lt_is_Some_2 xs i Hi) as [x Hx].
  by rewrite (lookup_cells _ _ _ _ Hx), Hx.
Qed.

Lemma lookup_inserted xs V pos :
  pos ≤ length xs → (take pos xs ++ V :: drop pos xs) !! pos = Some V.
Proof. intros Hpos. apply list_lookup_middle. rewrite length_take. lia. Qed.

(** * The properties of the specification *)

(** C1 (as amended).  Reserve, asked for a capacity whose size in bytes
    size_t can hold, gives the strong guarantee for every element type
    that is copy-constructible or whose move construction does not throw:
    when an exception leaves [Reserve], the vector is exactly the vector
    before the call and no object has been lost.  For a move-only type
    with a throwing move the length and the capacity are unchanged and
    every element is still alive, but the first [k] elements, those whose
    move was attempted, are as their move constructor left them; the
    others are untouched.  When [Reserve] returns, the vector holds the
    same elements in the requested capacity (or the old one, if that was
    enough).  Relocation calls the move constructor and never the copy
    constructor when [T] is nothrow-move-constructible or not
    copy-constructible, and the copy constructor and never the move
    constructor otherwise. *)
Theorem Reserve_strong_guarantee xs cap n m :
  length xs ≤ cap →
  (cap < n → allocatable n) →
  nothrow_move_sound →
  Reserve n (vector_of xs cap) m ≠ Fault
  ∧ (∀ this' m',
       Reserve n (vector_of xs cap) m = Exn this' m' →
       leaked m' = leaked m
       ∧ ∃ xs', length xs' = length xs ∧ this' = vector_of xs' cap
           ∧ (is_copy_constructible = true
              ∨ is_nothrow_move_constructible = true → xs' = xs)
           ∧ ∃ k, k ≤ length xs
               ∧ Forall2 moved_from (take k xs) (take k xs')
               ∧ drop k xs' = drop k xs)
  ∧ (∀ this' m',
       Reserve n (vector_of xs cap) m = Ok this' m' →
       leaked m' = leaked m
       ∧ ∃ ys, length ys = length xs ∧ this' = vector_of ys (n `max` cap)
           ∧ (copy_ctor_copies → move_ctor_moves → ys = xs))
  ∧ (∀ m',
       final (Reserve n (vector_of xs cap) m) = Some m' →
       log_grows (λ e, if relocates_by_move then ¬ is_copy_construction e
                       else ¬ is_move_construction e) m m')
  ∧ (never_throws →
     ∃ this' m', Reserve n (vector_of xs cap) m = Ok this' m').
Proof.
  intros Hcap _ Hsound.
  pose proof (Reserve_spec xs cap n m Hcap) as HR.
  assert (Reserve n (vector_of xs cap) m ≠ Fault) as Hdef
    by (intros Hf; by rewrite Hf in HR).
  split_and!; [done | | | |]; cycle 3.
  { intros Hnt. apply returns_Ok; [done | by apply Reserve_returns]. }
  - intros this' m' HE.
    destruct (Reserve_sources xs cap n m this' m' Hcap HE)
      as (k & xs' & Hk & Hl & -> & Hmoved & Hrest).
    rewrite HE in HR.
    destruct HR as (_ & Hleak & xs2 & _ & Heq & Hsame).
    assert (xs2 = xs') as ->.
    { by rewrite <- (elements_vector_of xs2 cap), <- Heq, elements_vector_of. }
    split; [done|]. exists xs'. split_and!; [done | done | |by exists k].
    intros Htrait. destruct Hsame as [->|[Hmove (x & w & Hthrow)]]; [done|].
    unfold relocates_by_move in Hmove.
    destruct is_nothrow_move_constructible eqn:Hnt.
    + by destruct (Hsound Hnt x w).
    + destruct Htrait as [Hcc|?]; [|done]. by rewrite Hcc in Hmove.
  - intros this' m' HE. rewrite HE in HR. destruct HR as [Hleak H].
    split; [done|].
    destruct H as [(Hn & -> & ->)|(Hn & ys & Hl & -> & Hval)].
    + exists xs. split_and!; [done | | done]. by rewrite Nat.max_r.
    + exists ys. split_and!; [done | | done]. rewrite Nat.max_l by lia. done.
  - intros m' Hf. eapply log_grows_weaken; [|by eapply Reserve_log].
    intros e. destruct relocates_by_move, e; simpl; tauto.
Qed.



(** C4.  An append reallocates exactly when the length equals the
    capacity (one more element would exceed it), and the capacity it then
    allocates is max(1, 2 * length); so [k] appends to a
    default-constructed vector leave it with length [k] and capacity
    [capacity_after k], the least power of two that is at least [k]: the
    capacities met are 1, 2, 4, 8, ...  (Lengths are below 2^63, as the
    address space demands, so that the doubling does not wrap.) *)
Theorem append_growth_law :
  (∀ a xs cap m this' it m',
     length xs ≤ cap → SizeT.fits cap →
     (length xs = cap → SizeT.fits (grown (length xs))) →
     EmplaceBack a (vector_of xs cap) m = Ok (this', it) m' →
     Capacity this'
     = (if decide (length xs = cap) then 1 `max` (2 * length xs) else cap)
     ∧ ∃ evs, log m' = log m ++ evs
         ∧ (Exists is_allocation evs ↔ length xs = cap))
  ∧ (∀ args m this' m',
       SizeT.fits (2 * length args) →
       push_all args Vector_default m = Ok this' m' →
       Size this' = length args
       ∧ Capacity this' = capacity_after (length args))
  ∧ (∀ j, capacity_after (S (2 ^ j)) = 2 ^ S j ∧ capacity_after (2 ^ j) = 2 ^ j)
  ∧ (∀ args m,
       SizeT.fits (2 * length args) → never_throws →
       Forall (λ a, args_never_throw a ∧ valid_args a 0) args →
       ∃ this' m', push_all args Vector_default m = Ok this' m').
Proof.
  split_and!; cycle 3.
  { intros args m Hfit Hnt Hargs.
    by apply (push_all_returns args [] m). }
  - intros a xs cap m this' it m' Hcap Hfit Hgrow HE.
    unfold EmplaceBack, end_ in HE. cbn [vector_of size_] in HE.
    fold (vector_of xs cap) in HE.
    pose proof (Emplace_Ok_valid _ _ _ _ _ _ _ HE) as Hv.
    pose proof (Emplace_spec (length xs) a xs cap m Hcap (le_n _) Hv Hfit) as HS.
    rewrite HE in HS. destruct HS as (_ & _ & V & zs & Hl & -> & _).
    { intros Hfull. rewrite <- Hfull. auto. }
    split; [done|].
    unfold Emplace, Capacity in HE. cbn [vector_of size_ data_ capacity_] in HE.
    fold (vector_of xs cap) in HE. case_decide as Hfull.
    + destruct (EmplaceWithRealloc_log (length xs) a (vector_of xs cap) m m')
        as (evs & Hlog & _); [by apply Hgrow | by rewrite HE |].
      eexists. split; [exact Hlog|]. split; [done|]. intros _. by left.
    + destruct (EmplaceWithoutRealloc_log (length xs) a (vector_of xs cap) m m')
        as (evs & Hlog & Hall); [by rewrite HE|].
      exists evs. split; [done|]. split; [|done].
      intros Hex. apply Exists_exists in Hex as (e & Hin & He).
      rewrite Forall_forall in Hall. specialize (Hall e Hin).
      destruct e; simpl in *; tauto.
  - intros args m this' m' Hfit Hpush.
    destruct (push_all_spec args [] m this' m') as (zs & Hl & ->); [done..|].
    cbn [vector_of Size Capacity size_ data_ capacity_]. by rewrite Hl.
  - intros j. unfold capacity_after. split.
    + by rewrite Nat.log2_up_succ_pow2 by lia.
    + destruct (2 ^ j) eqn:Hp; [by apply Nat.pow_nonzero in Hp|].
      by rewrite <- Hp, Nat.log2_up_pow2 by lia.
Qed.

(** C5.  Inserting at position [pos], with [0 <= pos <= n], into a vector
    of length [n], through Emplace (Insert is Emplace of a copy or of a
    move of its argument), with or without reallocation: the call never
    runs into undefined behaviour, and when it returns, the vector has
    length [n + 1], holds the new value [V] at [pos] with the other
    elements around it in their order, and the iterator returned refers to
    the new element. *)
Theorem Emplace_inserts pos a xs cap m :
  length xs ≤ cap → pos ≤ length xs → valid_args a (length xs) →
  SizeT.fits cap → (length xs = cap → SizeT.fits (grown (length xs))) →
  value_semantics →
  Emplace pos a (vector_of xs cap) m ≠ Fault
  ∧ (∀ this' it m',
       Emplace pos a (vector_of xs cap) m = Ok (this', it) m' →
       ∃ V ys,
         supplies a xs V ys
         ∧ this' = vector_of (take pos ys ++ V :: drop pos ys)
                     (if decide (length xs = cap)
                      then grown (length xs) else cap)
         ∧ it = pos
         ∧ Size this' = S (length xs)
         ∧ operator_index this' it = Some V
         ∧ elements this' = take pos ys ++ V :: drop pos ys)
  ∧ (∀ value this m0,
       Insert_copy pos value this m0 = Emplace pos (CopyOf value) this m0
       ∧ Insert_move pos value this m0 = Emplace pos (MoveOf value) this m0)
  ∧ (never_throws → args_never_throw a →
     ∃ this' it m', Emplace pos a (vector_of xs cap) m = Ok (this', it) m').
Proof.
  intros Hcap Hpos Hv Hfit Hgrow Hval.
  pose proof (Emplace_spec pos a xs cap m Hcap Hpos Hv Hfit) as HS.
  assert (Emplace pos a (vector_of xs cap) m ≠ Fault) as Hdef
    by (intros Hf; rewrite Hf in HS; apply HS; intros <-; auto).
  split_and!; [done | | done |]; cycle 1.
  { intros Hnt Ha.
    destruct (returns_Ok (Emplace pos a (vector_of xs cap) m) Hdef)
      as ([this' it] & m' & HE); [by apply Emplace_returns | eauto]. }
  - intros this' it m' HE. rewrite HE in HS.
    destruct HS as (-> & _ & V & zs & Hl & -> & Hzs); [intros <-; auto|].
    destruct (Hzs Hval) as (ys & Hsup & ->). exists V, ys.
    assert (length ys = length xs) as Hlys by len.
    split_and!; [done | done | done | by rewrite <- Hl | |].
    + rewrite operator_index_vector_of.
      * apply lookup_inserted. lia.
      * rewrite Hl. case_decide; [|lia]. pose proof (lt_grown (length xs)). lia.
      * lia.
    + apply elements_vector_of.
Qed.

(** C6.  Erasing position [pos] of a vector of length [n >= 1], with
    [pos < n]: the call never runs into undefined behaviour, and when it
    returns, the vector has length [n - 1], the elements before [pos] are
    unchanged, each later element has moved one position down (so the
    element formerly at [pos + 1] is at [pos]), and the iterator returned
    is [pos]: the slot of the following element, or the end when the last
    element was erased. *)
Theorem Erase_removes pos xs cap m :
  length xs ≤ cap → pos < length xs → SizeT.fits cap →
  move_assign_moves →
  Erase pos (vector_of xs cap) m ≠ Fault
  ∧ (∀ this' it m',
       Erase pos (vector_of xs cap) m = Ok (this', it) m' →
       this' = vector_of (take pos xs ++ drop (S pos) xs) cap
       ∧ it = pos
       ∧ S (Size this') = length xs
       ∧ elements this' = take pos xs ++ drop (S pos) xs
       ∧ (∀ i, i < pos → elements this' !! i = xs !! i)
       ∧ (∀ i, pos ≤ i → elements this' !! i = xs !! S i)
       ∧ (it = end_ this' ↔ S pos = length xs))
  ∧ (never_throws →
     ∃ this' it m', Erase pos (vector_of xs cap) m = Ok (this', it) m').
Proof.
  intros Hcap Hpos Hfit Hmove.
  pose proof (Erase_spec pos xs cap m Hcap Hpos Hfit) as HS.
  assert (Erase pos (vector_of xs cap) m ≠ Fault) as Hdef
    by (intros Hf; by rewrite Hf in HS).
  split_and!; [done | |]; cycle 1.
  { intros Hnt.
    destruct (returns_Ok (Erase pos (vector_of xs cap) m) Hdef)
      as ([this' it] & m' & HE); [by apply Erase_returns | eauto]. }
  - intros this' it m' HE. rewrite HE in HS.
    destruct HS as (-> & _ & zs & Hl & -> & Hzs). rewrite (Hzs Hmove) in *.
    rewrite elements_vector_of. unfold end_, Size. cbn [vector_of size_].
    split_and!; [done | done | done | done | | | ].
    + intros i Hi. rewrite lookup_app_l by (rewrite length_take; lia).
      by rewrite lookup_take_lt.
    + intros i Hi. rewrite lookup_app_r by (rewrite length_take; lia).
      rewrite length_take, lookup_drop. f_equal. lia.
    + rewrite length_app, length_take, length_drop in *. lia.
Qed.


(** C7.  Copy assignment between two distinct vectors never runs into
    undefined behaviour, leaves the source as it is, and when it returns
    the target holds the source's elements, with the source's length.
    When the source is longer than the target's capacity, a temporary
    copy is built in a new buffer of exactly the source's length and
    swapped in, the old elements being destroyed afterwards, and an
    exception leaves the target untouched.  Otherwise nothing is
    allocated: the common prefix is copy-assigned element by element, and
    then the surplus tail of the target is destroyed (the target is
    longer) or the remaining elements of the source are copy-constructed
    behind it; an exception on this path leaves the target with its
    length and capacity. *)
Theorem copy_assignment_copies (s : gmap addr (Vector T)) this rhs
    xs cap ys rcap m :
  this ≠ rhs →
  s !! this = Some (vector_of xs cap) → s !! rhs = Some (vector_of ys rcap) →
  length xs ≤ cap → length ys ≤ rcap → SizeT.fits cap → SizeT.fits rcap →
  operator_assign this rhs s m ≠ Fault
  ∧ (∀ s' m',
       operator_assign this rhs s m = Ok s' m' →
       s' !! rhs = Some (vector_of ys rcap)
       ∧ leaked m' = leaked m
       ∧ (copy_ctor_copies → copy_assign_copies →
          s' = <[this := vector_of ys (if decide (cap < length ys)
                                       then length ys else cap)]> s)
       ∧ ∃ evs, Forall is_release evs
           ∧ log m' = log m ++
               if decide (cap < length ys) then
                 EvAlloc (length ys) :: (EvCopyCtor <$> ys)
                   ++ (EvDtor <$> xs) ++ evs
               else
                 zip_with EvCopyAssign xs ys
                   ++ (if decide (length ys < length xs)
                       then EvDtor <$> drop (length ys) xs
                       else EvCopyCtor <$> drop (length xs) ys))
  ∧ (∀ s' m',
       operator_assign this rhs s m = Exn s' m' →
       s' !! rhs = Some (vector_of ys rcap)
       ∧ leaked m' = leaked m
       ∧ (cap < length ys → s' = s)
       ∧ ∃ ws, length ws = length xs ∧ s' = <[this := vector_of ws cap]> s)
  ∧ (never_throws → ∃ s' m', operator_assign this rhs s m = Ok s' m').
Proof.
  intros Hne Hthis Hrhs Hcap Hrcap Hfit Hrfit.
  assert (never_throws → no_exception (operator_assign this rhs s m)) as Hret
    by (intros Hnt; by apply operator_assign_returns).
  revert Hret.
  unfold operator_assign. rewrite Hthis, Hrhs, decide_True by done.
  pose proof (copy_assign_distinct_spec xs cap ys rcap m Hcap Hrcap Hfit Hrfit)
    as HS.
  destruct (copy_assign_distinct _ _ _) as [v m1|v m1|]; [| |done]; intros Hret.
  - destruct HS as (Hleak & zs & Hl & -> & Hzs & evs & Hrel & Hlog).
    split_and!; [done | | done | eauto].
    intros s' m' [= <- <-]. rewrite lookup_insert_ne by done.
    split_and!; [done | done | | by exists evs].
    intros Hcc Hca. by rewrite (Hzs Hcc Hca).
  - destruct HS as (Hleak & ws & Hl & -> & Hws).
    split_and!; [done | done | | intros Hnt; by destruct (Hret Hnt)].
    intros s' m' [= <- <-]. rewrite lookup_insert_ne by done.
    split_and!; [done | done | | by exists ws].
    intros Hlt. rewrite (Hws Hlt). by apply insert_id.
Qed.

(** C8.  Move-constructing a vector B, in storage that holds no object
    yet, from a vector A returns normally, with the machine state it
    started in: no operation of [T] and no allocation function is called
    (no element is copied, nothing can throw) and no object is lost.  B
    has the length, the capacity and the buffer A had, so it holds A's
    elements (the very objects); A is left equal to a default-constructed
    vector, of length 0 and capacity 0, which satisfies the invariant of
    the container, whose destruction does nothing and to which elements
    can be appended as to a new vector; no other object is touched. *)
Theorem move_construction_transfers (s : gmap addr (Vector T)) this other
    (A : Vector T) m :
  s !! this = None → s !! other = Some A →
  ∃ B s' m',
    Vector_move_at this other s m = Ok s' m'
    ∧ m' = m ∧ log m' = log m ∧ leaked m' = leaked m
    ∧ s' !! this = Some B
    ∧ Size B = Size A ∧ Capacity B = Capacity A
    ∧ region B = region A ∧ elements B = elements A
    ∧ s' !! other = Some Vector_default
    ∧ Size (Vector_default (T:=T)) = 0
    ∧ Capacity (Vector_default (T:=T)) = 0
    ∧ (∀ a, a ≠ this → a ≠ other → s' !! a = s !! a)
    ∧ canonical (T:=T) Vector_default
    ∧ (∀ m0 : mach T W, Vector_dtor Vector_default m0 = Some m0)
    ∧ (∀ a (m0 : mach T W),
         valid_args a 0 → never_throws → args_never_throw a →
         ∃ v it m1, EmplaceBack a Vector_default m0 = Ok (v, it) m1
                    ∧ Size v = 1).
Proof.
  intros Hthis Hother.
  assert (this ≠ other) as Hne by (intros ->; congruence).
  exists A, (<[this := A]> (<[other := Vector_default]> s)), m.
  split_and!; try done.
  - unfold Vector_move_at. rewrite Hthis.
    rewrite lookup_insert_ne, Hother by done.
    rewrite lookup_insert_ne, lookup_insert_eq by done.
    rewrite lookup_insert_ne, lookup_insert_eq by done.
    rewrite lookup_insert_ne, lookup_insert_eq by done.
    rewrite lookup_insert_ne, lookup_insert_eq by done.
    rewrite lookup_insert_ne, lookup_insert_eq by done.
    f_equal. apply map_eq. intros a.
    destruct (decide (a = this)) as [->|Ht].
    + rewrite !lookup_insert_eq. by destruct A as [[b c] n].
    + rewrite !(lookup_insert_ne _ this) by done.
      destruct (decide (a = other)) as [->|Ho].
      * by rewrite !lookup_insert_eq.
      * by rewrite !lookup_insert_ne.
  - by rewrite lookup_insert_eq.
  - by rewrite lookup_insert_ne, lookup_insert_eq.
  - intros a Ha1 Ha2. by rewrite !lookup_insert_ne.
  - apply canonical_default.
  - intros a m0 Hv Hnt Ha.
    assert (SizeT.fits 0 ∧ SizeT.fits (grown 0)) as [Hf0 Hf1]
      by (unfold SizeT.fits, SizeT.modulus, grown; split; cbn; lia).
    pose proof (Emplace_spec 0 a [] 0 m0 (le_n _) (le_n _) Hv Hf0 (λ _, Hf1))
      as HS.
    pose proof (Emplace_returns Hnt 0 a (vector_of [] 0) m0 Ha) as HR.
    change (vector_of [] 0) with (Vector_default (T:=T)) in HS, HR.
    unfold EmplaceBack, end_. cbn [Vector_default size_].
    destruct (Emplace 0 a Vector_default m0) as [[v it] m1|v m1|];
      [|done|done].
    destruct HS as (_ & _ & V & zs & Hl & -> & _).
    exists (vector_of zs (if decide (length (A:=T) [] = 0)
                          then grown (length (A:=T) []) else 0)), it, m1.
    split; [done|]. unfold Size. cbn [vector_of size_]. by rewrite Hl.
Qed.

(** C9.  Inserting, at a position before the end and without
    reallocation, a value given as a reference to an element of the vector
    itself: the new element is constructed into a temporary before any
    element is shifted, so that when the call returns, position [pos]
    holds the value element [i] had before the call, wherever [i] lies
    ([pos <= i] included).  After Insert(pos, v[i]) the other elements are
    the former ones in their order; after Insert(pos, std::move(v[i])) so
    they are, except that the element moved from is in its moved-from
    state. *)
Theorem Insert_own_element pos i V xs cap m :
  length xs < cap → pos < length xs → xs !! i = Some V → SizeT.fits cap →
  value_semantics →
  Insert_copy pos (Own i) (vector_of xs cap) m ≠ Fault
  ∧ Insert_move pos (Own i) (vector_of xs cap) m ≠ Fault
  ∧ (∀ this' it m',
       Insert_copy pos (Own i) (vector_of xs cap) m = Ok (this', it) m' →
       this' = vector_of (take pos xs ++ V :: drop pos xs) cap
       ∧ operator_index this' pos = Some V)
  ∧ (∀ this' it m',
       Insert_move pos (Own i) (vector_of xs cap) m = Ok (this', it) m' →
       operator_index this' pos = Some V
       ∧ ∃ ys, this' = vector_of (take pos ys ++ V :: drop pos ys) cap
               ∧ (ys = xs ∨ ∃ x', ys = <[i := x']> xs))
  ∧ (never_throws →
     (∃ this' it m',
        Insert_copy pos (Own i) (vector_of xs cap) m = Ok (this', it) m')
     ∧ (∃ this' it m',
          Insert_move pos (Own i) (vector_of xs cap) m = Ok (this', it) m')).
Proof.
  intros Hcap Hpos Hi Hfit Hval.
  assert (i < length xs) as Hlt by (by eapply lookup_lt_Some).
  unfold Insert_copy, Insert_move.
  pose proof (Emplace_spec pos (CopyOf (Own i)) xs cap m) as HC.
  pose proof (Emplace_spec pos (MoveOf (Own i)) xs cap m) as HM.
  assert (Emplace pos (CopyOf (Own i)) (vector_of xs cap) m ≠ Fault) as HdC
    by (intros Hf; rewrite Hf in HC; apply HC; try done; lia).
  assert (Emplace pos (MoveOf (Own i)) (vector_of xs cap) m ≠ Fault) as HdM
    by (intros Hf; rewrite Hf in HM; apply HM; try done; lia).
  split_and!; [done | done | | |]; cycle 2.
  { intros Hnt. split.
    - destruct (returns_Ok _ HdC) as ([this' it] & m' & HE);
        [by apply Emplace_returns | eauto].
    - destruct (returns_Ok _ HdM) as ([this' it] & m' & HE);
        [by apply Emplace_returns | eauto]. }
  - intros this' it m' HE. rewrite HE in HC.
    destruct HC as (-> & _ & V' & zs & Hl & -> & Hzs); try done; try lia.
    destruct (Hzs Hval) as (ys & [HV ->] & ->).
    assert (V' = V) as -> by congruence.
    rewrite decide_False by lia. split; [done|].
    rewrite operator_index_vector_of by (rewrite ?Hl; lia).
    apply lookup_inserted. lia.
  - intros this' it m' HE. rewrite HE in HM.
    destruct HM as (-> & _ & V' & zs & Hl & -> & Hzs); try done; try lia.
    destruct (Hzs Hval) as (ys & [HV Hys] & ->).
    assert (V' = V) as -> by congruence.
    rewrite decide_False by lia. split.
    + rewrite operator_index_vector_of by (rewrite ?Hl; lia).
      apply lookup_inserted. destruct Hys as (x' & ->). rewrite length_insert. lia.
    + exists ys. split; [done|]. by right.
Qed.

(** C10.  Assigning a vector to itself does nothing: the store (hence the
    vector's length, capacity and elements) and the machine state are the
    same afterwards; no operation of [T] is called. *)
Theorem self_assignment_is_noop (s : gmap addr (Vector T)) this v m :
  s !! this = Some v →
  operator_assign this this s m = Ok s m.
Proof.
  intros Hv. unfold operator_assign. rewrite Hv. by rewrite decide_False by tauto.
Qed.

End Proofs.

(** * The properties on concrete vectors *)

Lemma int_value_semantics : value_semantics (T:=nat) (W:=unit).
Proof.
  unfold value_semantics, copy_ctor_copies, move_ctor_moves,
    copy_assign_copies, move_assign_moves.
  repeat split; intros *; cbn; intros [=]; congruence.
Defined.

Lemma fragile_nothrow_move_sound : nothrow_move_sound (T:=nat) (W:=nat).
Proof. intros Hnt. discriminate Hnt. Defined.

Lemma small_fits n : n ≤ 1000 → SizeT.fits n.
Proof. unfold SizeT.fits, SizeT.modulus. lia. Defined.

(** The scenario of the specification, on [int]: append 1, 2, 3; resize
    to 5; resize to 2; insert 99 at position 1; erase position 0. *)
Example scenario :
  ∃ v1 m1 v2 m2 v3 m3 v4 it4 m4 v5 it5 m5,
    push_all [CopyOf (Outside 1); CopyOf (Outside 2); CopyOf (Outside 3)]
      Vector_default (start ()) = Ok v1 m1
    ∧ elements v1 = [1; 2; 3]
    ∧ Resize 5 v1 m1 = Ok v2 m2 ∧ elements v2 = [1; 2; 3; 0; 0]
    ∧ Resize 2 v2 m2 = Ok v3 m3 ∧ elements v3 = [1; 2]
    ∧ Insert_copy 1 (Outside 99) v3 m3 = Ok (v4, it4) m4
    ∧ elements v4 = [1; 99; 2] ∧ it4 = 1
    ∧ Erase 0 v4 m4 = Ok (v5, it5) m5
    ∧ elements v5 = [99; 2] ∧ it5 = 0
    ∧ leaked m5 = [].
Proof.
  do 12 eexists.
  repeat (split; [vm_compute; reflexivity|]). vm_compute; reflexivity.
Qed.

(** C1, on a move-only handle whose second move throws: the first
    element has been moved from, and what was moved out of it has been
    destroyed with the new buffer. *)
Lemma Reserve_move_only_counterexample :
  ∃ this' m',
    Reserve 4 (vector_of [Some 1; Some 2; Some 3] 3) (start 1) = Exn this' m'
    ∧ Size this' = 3
    ∧ elements this' = [None; Some 2; Some 3]
    ∧ elements this' ≠ elements (vector_of [Some 1; Some 2; Some 3] 3).
Proof.
  eexists _, _. split; [vm_compute; reflexivity|].
  split; [reflexivity|]. split; [reflexivity|]. discriminate.
Qed.

(** C1 on a copyable type whose third copy throws. *)
Lemma Reserve_strong_guarantee_witness :
  (length [1; 2; 3] ≤ 3 ∧ (3 < 4 → allocatable (T:=nat) (W:=nat) 4)
   ∧ nothrow_move_sound (T:=nat) (W:=nat))
  ∧ ∃ m',
      Reserve 4 (vector_of [1; 2; 3] 3) (start 2)
      = Exn (vector_of [1; 2; 3] 3) m'
      ∧ leaked m' = leaked (start (T:=nat) 2)
      ∧ ∃ xs', length xs' = length [1; 2; 3]
          ∧ vector_of [1; 2; 3] 3 = vector_of xs' 3
          ∧ (is_copy_constructible (T:=nat) (W:=nat) = true
             ∨ is_nothrow_move_constructible (T:=nat) (W:=nat) = true →
             xs' = [1; 2; 3])
          ∧ ∃ k, k ≤ length [1; 2; 3]
              ∧ Forall2 (moved_from (W:=nat)) (take k [1; 2; 3]) (take k xs')
              ∧ drop k xs' = drop k [1; 2; 3].
Proof.
  assert (length [1; 2; 3] ≤ 3) as H1 by (simpl; lia).
  assert (3 < 4 → allocatable (T:=nat) (W:=nat) 4) as H2
    by (intros _; apply small_fits; vm_compute; lia).
  split; [exact (conj H1 (conj H2 fragile_nothrow_move_sound))|].
  assert (∃ m', Reserve 4 (vector_of [1; 2; 3] 3) (start 2)
                = Exn (vector_of [1; 2; 3] 3) m') as [m' HE]
    by (eexists; vm_compute; reflexivity).
  exists m'. split; [exact HE|].
  exact (proj1 (proj2 (Reserve_strong_guarantee [1; 2; 3] 3 4 (start 2)
                         H1 H2 fragile_nothrow_move_sound)) _ _ HE).
Defined.



(** C8 on [int]: the vector at address 1 is moved into the free address
    0. *)
Lemma move_construction_transfers_witness :
  (({[1 := vector_of [1; 2; 3] 4]} : gmap addr (Vector nat)) !! 0 = None
   ∧ ({[1 := vector_of [1; 2; 3] 4]} : gmap addr (Vector nat)) !! 1
     = Some (vector_of [1; 2; 3] 4))
  ∧ ∃ B s' m',
      Vector_move_at 0 1 {[1 := vector_of [1; 2; 3] 4]} (start ()) = Ok s' m'
      ∧ m' = start ()
      ∧ s' !! 0 = Some B
      ∧ Size B = 3 ∧ Capacity B = 4 ∧ elements B = [1; 2; 3]
      ∧ s' !! 1 = Some Vector_default.
Proof.
  assert (({[1 := vector_of [1; 2; 3] 4]} : gmap addr (Vector nat)) !! 0 = None
          ∧ ({[1 := vector_of [1; 2; 3] 4]} : gmap addr (Vector nat)) !! 1
            = Some (vector_of [1; 2; 3] 4)) as Hyp
    by (split; vm_compute; reflexivity).
  split; [exact Hyp|]. destruct Hyp as [H0 H1].
  destruct (move_construction_transfers _ 0 1 _ (start ()) H0 H1)
    as (B & s' & m' & HE & Hm & _ & _ & HB & HS & HC & _ & HEl & HO & _).
  exists B, s', m'.
  split; [exact HE|]. split; [exact Hm|]. split; [exact HB|].
  split; [rewrite HS; reflexivity|]. split; [rewrite HC; reflexivity|].
  split; [rewrite HEl; reflexivity | exact HO].
Defined.

(** C3, on a copyable type whose fourth operation throws: the insertion
    at the front of [1; 2; 3] (capacity 4) has move-constructed the last
    element into slot 3 and is then left by the exception of a move
    assignment of the shift.  The length is still 3, but slot 3 holds a
    live object, so the vector no longer satisfies the invariant it had
    before the call; the next append reuses the storage of that object
    without destroying it. *)
Theorem Emplace_failed_shift_strands_element :
  canonical (vector_of [1; 2; 3] 4)
  ∧ ∃ this' m',
      Emplace 0 (CopyOf (Outside 9)) (vector_of [1; 2; 3] 4) (start 3)
      = Exn this' m'
      ∧ Size this' = 3 ∧ Capacity this' = 4
      ∧ region this' = [Some 1; Some 2; Some 2; Some 3]
      ∧ ¬ canonical this'
      ∧ leaked m' = []
      ∧ ∃ this'' m'',
          PushBack_copy (Outside 7) this' (start 5) = Ok this'' m''
          ∧ leaked m'' = [3].
Proof.
  split; [apply canonical_vector_of; [cbn; lia | by vm_compute]|].
  eexists _, _. split; [vm_compute; reflexivity|].
  do 3 (split; [reflexivity|]).
  split.
  { apply stranded_not_canonical. exists [1; 2; 2; 3], 4.
    split_and!; [reflexivity | cbn; lia | cbn; lia | by vm_compute]. }
  split; [reflexivity|].
  eexists _, _. split; vm_compute; reflexivity.
Qed.

Lemma append_growth_law_witness :
  SizeT.fits (2 * length [CopyOf (T:=nat) (W:=unit) (Outside 1);
                          CopyOf (Outside 2); CopyOf (Outside 3);
                          MoveOf (Outside 4); CopyOf (Own 0)])
  ∧ ∃ m',
      push_all [CopyOf (Outside 1); CopyOf (Outside 2); CopyOf (Outside 3);
                MoveOf (Outside 4); CopyOf (Own 0)]
        Vector_default (start ()) = Ok (vector_of [1; 2; 3; 4; 1] 8) m'
      ∧ Size (vector_of [1; 2; 3; 4; 1] 8) = 5
      ∧ Capacity (vector_of [1; 2; 3; 4; 1] 8) = capacity_after 5.
Proof.
  assert (SizeT.fits (2 * length [CopyOf (T:=nat) (W:=unit) (Outside 1);
                                  CopyOf (Outside 2); CopyOf (Outside 3);
                                  MoveOf (Outside 4); CopyOf (Own 0)])) as Hfit
    by (apply small_fits; vm_compute; lia).
  split; [exact Hfit|].
  assert (∃ m',
    push_all [CopyOf (Outside 1); CopyOf (Outside 2); CopyOf (Outside 3);
              MoveOf (Outside 4); CopyOf (Own 0)]
      Vector_default (start ()) = Ok (vector_of [1; 2; 3; 4; 1] 8) m')
    as [m' Hpush] by (eexists; vm_compute; reflexivity).
  exists m'. split; [exact Hpush|].
  exact (proj1 (proj2 append_growth_law) _ _ _ _ Hfit Hpush).
Defined.

Lemma Emplace_inserts_witness :
  (length [1; 2] ≤ 2 ∧ 1 ≤ length [1; 2]
   ∧ valid_args (T:=nat) (W:=unit) (CopyOf (Outside 99)) (length [1; 2])
   ∧ SizeT.fits 2
   ∧ (length [1; 2] = 2 → SizeT.fits (grown (length [1; 2])))
   ∧ value_semantics (T:=nat) (W:=unit))
  ∧ ∃ m',
      Emplace 1 (CopyOf (Outside 99)) (vector_of [1; 2] 2) (start ())
      = Ok (vector_of [1; 99; 2] 4, 1) m'
      ∧ ∃ V ys,
          supplies (W:=unit) (CopyOf (Outside 99)) [1; 2] V ys
          ∧ vector_of [1; 99; 2] 4
            = vector_of (take 1 ys ++ V :: drop 1 ys)
                (if decide (length [1; 2] = 2)
                 then grown (length [1; 2]) else 2)
          ∧ 1 = 1
          ∧ Size (vector_of [1; 99; 2] 4) = S (length [1; 2])
          ∧ operator_index (vector_of [1; 99; 2] 4) 1 = Some V
          ∧ elements (vector_of [1; 99; 2] 4) = take 1 ys ++ V :: drop 1 ys.
Proof.
  assert (length [1; 2] ≤ 2 ∧ 1 ≤ length [1; 2]
          ∧ valid_args (T:=nat) (W:=unit) (CopyOf (Outside 99)) (length [1; 2])
          ∧ SizeT.fits 2
          ∧ (length [1; 2] = 2 → SizeT.fits (grown (length [1; 2])))
          ∧ value_semantics (T:=nat) (W:=unit)) as Hyp.
  { split; [simpl; lia|]. split; [simpl; lia|]. split; [exact I|].
    split; [apply small_fits; lia|].
    split; [intros _; apply small_fits; vm_compute; lia
           | exact int_value_semantics]. }
  split; [exact Hyp|].
  destruct Hyp as (H1 & H2 & H3 & H4 & H5 & H6).
  assert (∃ m', Emplace 1 (CopyOf (Outside 99)) (vector_of [1; 2] 2) (start ())
                = Ok (vector_of [1; 99; 2] 4, 1) m') as [m' HE]
    by (eexists; vm_compute; reflexivity).
  exists m'. split; [exact HE|].
  exact (proj1 (proj2 (Emplace_inserts 1 (CopyOf (Outside 99)) [1; 2] 2
                         (start ()) H1 H2 H3 H4 H5 H6)) _ _ _ HE).
Defined.

Lemma Erase_removes_witness :
  (length [1; 99; 2] ≤ 4 ∧ 0 < length [1; 99; 2] ∧ SizeT.fits 4
   ∧ move_assign_moves (T:=nat) (W:=unit))
  ∧ ∃ m',
      Erase 0 (vector_of [1; 99; 2] 4) (start ())
      = Ok (vector_of [99; 2] 4, 0) m'
      ∧ vector_of [99; 2] 4
        = vector_of (take 0 [1; 99; 2] ++ drop 1 [1; 99; 2]) 4.
Proof.
  assert (length [1; 99; 2] ≤ 4 ∧ 0 < length [1; 99; 2] ∧ SizeT.fits 4
          ∧ move_assign_moves (T:=nat) (W:=unit)) as Hyp.
  { split; [simpl; lia|]. split; [simpl; lia|].
    split; [apply small_fits; lia|]. apply int_value_semantics. }
  split; [exact Hyp|].
  destruct Hyp as (H1 & H2 & H3 & H4).
  assert (∃ m', Erase 0 (vector_of [1; 99; 2] 4) (start ())
                = Ok (vector_of [99; 2] 4, 0) m') as [m' HE]
    by (eexists; vm_compute; reflexivity).
  exists m'. split; [exact HE|].
  exact (proj1 (proj1 (proj2 (Erase_removes 0 [1; 99; 2] 4 (start ())
                                H1 H2 H3 H4)) _ _ _ HE)).
Defined.

Lemma copy_assignment_copies_witness :
  (0 ≠ 1
   ∧ ({[0 := vector_of [1; 2; 3] 4; 1 := vector_of [7; 8] 2]}
        : gmap addr (Vector nat)) !! 0 = Some (vector_of [1; 2; 3] 4)
   ∧ ({[0 := vector_of [1; 2; 3] 4; 1 := vector_of [7; 8] 2]}
        : gmap addr (Vector nat)) !! 1 = Some (vector_of [7; 8] 2)
   ∧ length [1; 2; 3] ≤ 4 ∧ length [7; 8] ≤ 2
   ∧ SizeT.fits 4 ∧ SizeT.fits 2)
  ∧ ∃ s' m',
      operator_assign 0 1
        {[0 := vector_of [1; 2; 3] 4; 1 := vector_of [7; 8] 2]} (start ())
      = Ok s' m'
      ∧ s' !! 1 = Some (vector_of [7; 8] 2).
Proof.
  assert (0 ≠ 1
     ∧ ({[0 := vector_of [1; 2; 3] 4; 1 := vector_of [7; 8] 2]}
          : gmap addr (Vector nat)) !! 0 = Some (vector_of [1; 2; 3] 4)
     ∧ ({[0 := vector_of [1; 2; 3] 4; 1 := vector_of [7; 8] 2]}
          : gmap addr (Vector nat)) !! 1 = Some (vector_of [7; 8] 2)
     ∧ length [1; 2; 3] ≤ 4 ∧ length [7; 8] ≤ 2
     ∧ SizeT.fits 4 ∧ SizeT.fits 2) as Hyp.
  { split; [lia|]. split; [vm_compute; reflexivity|].
    split; [vm_compute; reflexivity|]. split; [simpl; lia|].
    split; [simpl; lia|]. split; apply small_fits; lia. }
  split; [exact Hyp|].
  destruct Hyp as (H1 & H2 & H3 & H4 & H5 & H6 & H7).
  assert (∃ s' m',
    operator_assign 0 1
      {[0 := vector_of [1; 2; 3] 4; 1 := vector_of [7; 8] 2]} (start ())
    = Ok s' m') as (s' & m' & HE) by (eexists _, _; vm_compute; reflexivity).
  exists s', m'. split; [exact HE|].
  exact (proj1 (proj1 (proj2 (copy_assignment_copies _ 0 1 [1; 2; 3] 4 [7; 8] 2
                                (start ()) H1 H2 H3 H4 H5 H6 H7)) _ _ HE)).
Defined.

Lemma Insert_own_element_witness :
  (length [1; 2; 3] < 4 ∧ 0 < length [1; 2; 3] ∧ [1; 2; 3] !! 2 = Some 3
   ∧ SizeT.fits 4 ∧ value_semantics (T:=nat) (W:=unit))
  ∧ ∃ m',
      Insert_copy 0 (Own 2) (vector_of [1; 2; 3] 4) (start ())
      = Ok (vector_of [3; 1; 2; 3] 4, 0) m'
      ∧ vector_of [3; 1; 2; 3] 4
        = vector_of (take 0 [1; 2; 3] ++ 3 :: drop 0 [1; 2; 3]) 4
      ∧ operator_index (vector_of [3; 1; 2; 3] 4) 0 = Some 3.
Proof.
  assert (length [1; 2; 3] < 4 ∧ 0 < length [1; 2; 3]
          ∧ [1; 2; 3] !! 2 = Some 3
          ∧ SizeT.fits 4 ∧ value_semantics (T:=nat) (W:=unit)) as Hyp.
  { split; [simpl; lia|]. split; [simpl; lia|]. split; [reflexivity|].
    split; [apply small_fits; lia | exact int_value_semantics]. }
  split; [exact Hyp|].
  destruct Hyp as (H1 & H2 & H3 & H4 & H5).
  assert (∃ m', Insert_copy 0 (Own 2) (vector_of [1; 2; 3] 4) (start ())
                = Ok (vector_of [3; 1; 2; 3] 4, 0) m') as [m' HE]
    by (eexists; vm_compute; reflexivity).
  exists m'. split; [exact HE|].
  exact (proj1 (proj2 (proj2
           (Insert_own_element 0 2 3 [1; 2; 3] 4 (start ()) H1 H2 H3 H4 H5)))
           _ _ _ HE).
Defined.

Lemma self_assignment_is_noop_witness :
  ({[5 := vector_of [1; 2; 3] 4]} : gmap addr (Vector nat)) !! 5
  = Some (vector_of [1; 2; 3] 4)
  ∧ operator_assign 5 5 {[5 := vector_of [1; 2; 3] 4]} (start ())
    = Ok {[5 := vector_of [1; 2; 3] 4]} (start ()).
Proof.
  assert (({[5 := vector_of [1; 2; 3] 4]} : gmap addr (Vector nat)) !! 5
          = Some (vector_of [1; 2; 3] 4)) as Hyp by (vm_compute; reflexivity).
  split; [exact Hyp|].
  exact (self_assignment_is_noop _ 5 _ (start ()) Hyp).
Defined.

(** * Further properties of the container *)

Section More.
Context {T W : Type} `{!Element T W}.
Implicit Types (xs ys zs us vs ws : list T) (m : mach T W).
Implicit Types (buf pre post : list (option T)).

(** ** The invariant *)

(** X1.  Reserve, Resize, PopBack, Erase, Emplace (hence Insert, PushBack
    and EmplaceBack), copy assignment and copy construction keep the
    invariant of the container (the length is at most the capacity, the
    slots below the length hold objects, the others are raw memory), when
    they return and when they throw, with one exception: an insertion before
    the end into spare capacity that throws may leave the vector stranded,
    with an object alive in the slot at its length.  For Reserve and
    Resize, which allocate a capacity chosen by the caller, this is proved
    for a capacity whose size in bytes size_t can hold. *)
Theorem invariant_preserved (this : Vector T) m :
  canonical this →
  (∀ n, SizeT.fits n → (Capacity this < n → allocatable n) →
     match Reserve n this m with
     | Ok v _ => canonical v
     | Exn v _ => canonical v
     | Fault => False
     end)
  ∧ (∀ n, SizeT.fits n → (Capacity this < n → allocatable n) →
     match Resize n this m with
     | Ok v _ => canonical v
     | Exn v _ => canonical v
     | Fault => False
     end)
  ∧ (0 < Size this → ∃ v m', PopBack this m = Some (v, m') ∧ canonical v)
  ∧ (∀ pos, pos < Size this →
     match Erase pos this m with
     | Ok (v, _) _ => canonical v
     | Exn v _ => canonical v
     | Fault => False
     end)
  ∧ (∀ pos a, pos ≤ Size this → valid_args a (Size this) →
     (Size this = Capacity this → SizeT.fits (grown (Size this))) →
     match Emplace pos a this m with
     | Ok (v, _) _ => canonical v
     | Exn v _ =>
         canonical v
         ∨ pos < Size this ∧ Size this < Capacity this ∧ stranded v
     | Fault => False
     end)
  ∧ (∀ rhs, canonical rhs →
     match copy_assign_distinct this rhs m with
     | Ok v _ => canonical v
     | Exn v _ => canonical v
     | Fault => False
     end)
  ∧ match Vector_copy this m with
    | Ok v _ => canonical v
    | Exn _ _ => True
    | Fault => False
    end.
Proof.
  intros (xs & cap & -> & Hcap & Hfit). unfold Size, Capacity.
  cbn [vector_of size_ data_ capacity_]. fold (vector_of xs cap).
  split_and!.
  - intros n Hn _. pose proof (Reserve_spec xs cap n m Hcap) as HR.
    destruct (Reserve _ _ _) as [v m'|v m'|]; [| |done].
    + destruct HR as [_ [(_ & -> & _)|(Hlt & ys & Hl & -> & _)]];
        apply canonical_vector_of; first [done | lia].
    + destruct HR as (_ & _ & ws & Hl & -> & _).
      apply canonical_vector_of; [lia | done].
  - intros n Hn _. pose proof (Resize_spec n xs cap m Hcap Hfit Hn) as HR.
    destruct (Resize _ _ _) as [v m'|v m'|]; [| |done].
    + destruct HR as (_ & zs & Hl & -> & _).
      apply canonical_vector_of; [lia|].
      destruct (Nat.max_dec n cap) as [-> | ->]; done.
    + destruct HR as (_ & ws & c & Hl & -> & [-> | ->]);
        apply canonical_vector_of; try lia; try done.
      destruct (Nat.max_dec n cap) as [-> | ->]; done.
  - intros Hpos. destruct (PopBack_spec xs cap m) as (m' & -> & _); [lia|done|].
    eexists _, _. split; [done|]. apply canonical_vector_of; [|done].
    rewrite length_take. lia.
  - intros pos Hpos. pose proof (Erase_spec pos xs cap m Hcap Hpos Hfit) as HE.
    destruct (Erase _ _ _) as [[v it] m'|v m'|]; [| |done].
    + destruct HE as (_ & _ & zs & Hl & -> & _).
      apply canonical_vector_of; [lia | done].
    + destruct HE as (_ & ws & Hl & -> & _).
      apply canonical_vector_of; [lia | done].
  - intros pos a Hpos Hv Hgrow. unfold Emplace, Capacity.
    cbn [vector_of size_ data_ capacity_]. fold (vector_of xs cap).
    case_decide as Hfull.
    + specialize (Hgrow Hfull).
      pose proof (EmplaceWithRealloc_spec pos a xs cap m Hcap Hpos Hv Hgrow) as HE.
      destruct (EmplaceWithRealloc _ _ _ _) as [[v it] m'|v m'|]; [| |done].
      * destruct HE as (_ & _ & V & zs & Hl & -> & _).
        apply canonical_vector_of; [unfold grown; lia | done].
      * destruct HE as [(ys & ys0 & Hl & -> & _) _]. left.
        apply canonical_vector_of; [lia | done].
    + assert (Hlt : length xs < cap) by lia.
      pose proof (EmplaceWithoutRealloc_spec pos a xs cap m Hlt Hpos Hv Hfit) as HE.
      destruct (EmplaceWithoutRealloc _ _ _ _) as [[v it] m'|v m'|]; [| |done].
      * destruct HE as (_ & _ & V & zs & Hl & -> & _).
        apply canonical_vector_of; [lia | done].
      * destruct HE as (_ & ws & [(Hl & ->)|(Hin & Hl & ->)]).
        -- left. apply canonical_vector_of; [lia | done].
        -- right. split_and!; [done | done |]. exists ws, cap.
           split_and!; [f_equal; lia | lia | lia | done].
  - intros rhs (ys & rcap & -> & Hrcap & Hrfit).
    pose proof (copy_assign_distinct_spec xs cap ys rcap m Hcap Hrcap Hfit Hrfit)
      as HA.
    destruct (copy_assign_distinct _ _ _) as [v m'|v m'|]; [| |done].
    + destruct HA as (_ & zs & Hl & -> & _). case_decide.
      * apply canonical_vector_of; [lia|]. apply (fits_le _ rcap); [lia | done].
      * apply canonical_vector_of; [lia | done].
    + destruct HA as (_ & ws & Hl & -> & _).
      apply canonical_vector_of; [lia | done].
  - pose proof (Vector_copy_spec xs cap m Hcap) as HC.
    destruct (Vector_copy _ _) as [v m'|v m'|]; [|done|done].
    destruct HC as (_ & zs & Hl & -> & _).
    apply canonical_vector_of; [lia|]. apply (fits_le _ cap); [lia | done].
Qed.

(** ** Resize, PopBack, Erase at the end, the destructor *)

(** X2.  Resize to a length [n] that is at most the current one runs the
    destructors of the elements from position [n] on, in their order, and
    nothing else: it cannot throw, allocates nothing and keeps the capacity. *)
Theorem Resize_truncates n xs cap m :
  n ≤ length xs → length xs ≤ cap → SizeT.fits cap →
  ∃ m', Resize n (vector_of xs cap) m = Ok (vector_of (take n xs) cap) m'
        ∧ log m' = log m ++ (EvDtor <$> drop n xs)
        ∧ leaked m' = leaked m.
Proof.
  intros Hn Hcap Hfit. exists (destroy_all (drop n xs) m).
  split_and!; [|apply destroy_all_log|apply destroy_all_leaked].
  unfold Resize. cbn [vector_of size_]. fold (vector_of xs cap).
  rewrite decide_True by done.
  rewrite size_t_sub by (first [lia | apply (fits_le _ cap); [lia|done]]).
  rewrite region_vector_of, (cells_take_drop xs n), <- app_assoc.
  rewrite (destroy_n_at (drop n xs)) by len.
  f_equal. vec. apply vector_of_eq; [|len].
  f_equal. rewrite <- raw_add. apply raw_eq. len.
Qed.

Lemma PopBack_snoc xs x cap m :
  length xs < cap → SizeT.fits cap →
  PopBack (vector_of (xs ++ [x]) cap) m = Some (vector_of xs cap, destroy x m).
Proof.
  intros Hcap Hfit.
  unfold PopBack, ptr_back. cbn [vector_of size_].
  fold (vector_of (xs ++ [x]) cap). rewrite length_app. cbn [length].
  rewrite decide_True by lia.
  rewrite region_vector_of, cells_app, cells_cons, cells_nil, <- app_assoc.
  cbn [app]. rewrite destroy_one by len.
  rewrite size_t_sub by (first [lia | apply (fits_le _ cap); [lia|done]]).
  do 2 f_equal. vec. apply vector_of_eq; [|lia].
  rewrite length_app. cbn [length]. f_equal. rewrite <- raw_S. apply raw_eq. lia.
Qed.

(** X3.  PopBack on a non-empty vector runs the destructor of the last
    element and nothing else, and keeps the capacity. On an empty vector it
    is undefined: the pointer data_ + size_ - 1 leaves the buffer. *)
Theorem PopBack_removes_last xs x cap m :
  length xs < cap → SizeT.fits cap →
  PopBack (vector_of (xs ++ [x]) cap) m
  = Some (vector_of xs cap, destroy x m)
  ∧ log (destroy x m) = log m ++ [EvDtor x]
  ∧ leaked (destroy x m) = leaked m
  ∧ PopBack (vector_of [] cap) m = None.
Proof.
  intros Hcap Hfit. split_and!; [by apply PopBack_snoc|done|done|done].
Qed.

(** X4.  Erasing the last element move-assigns nothing: it runs the
    destructor of that element and nothing else, cannot throw, and returns
    the new end. Erasing at the end or beyond it is undefined. *)
Theorem Erase_last xs x cap m :
  length xs < cap → SizeT.fits cap →
  Erase (length xs) (vector_of (xs ++ [x]) cap) m
  = Ok (vector_of xs cap, end_ (vector_of xs cap)) (destroy x m)
  ∧ ∀ pos, length xs < pos → Erase pos (vector_of (xs ++ [x]) cap) m = Fault.
Proof.
  intros Hcap Hfit. split.
  - unfold Erase, begin, end_, std_move. cbn [vector_of size_].
    fold (vector_of (xs ++ [x]) cap). cbn [Nat.add]. rewrite Nat.sub_0_r.
    rewrite length_app. cbn [length].
    rewrite decide_False by lia. rewrite decide_False by lia.
    replace (length xs + 1 - (length xs + 1)) with 0 by lia.
    cbn [move_loop]. unfold ptr_back. rewrite decide_True by lia.
    rewrite region_vector_of, cells_app, cells_cons, cells_nil, <- app_assoc.
    cbn [app]. rewrite destroy_one by len.
    rewrite size_t_sub by (first [lia | apply (fits_le _ cap); [lia|done]]).
    f_equal. f_equal. vec. apply vector_of_eq; [|lia].
    rewrite length_app. cbn [length]. f_equal. rewrite <- raw_S. apply raw_eq. lia.
  - intros pos Hpos. unfold Erase, begin, end_, std_move. cbn [vector_of size_].
    cbn [Nat.add]. rewrite Nat.sub_0_r, length_app. cbn [length].
    by rewrite decide_True by lia.
Qed.

(** X5.  The destructor runs the destructor of every element, once and in
    the order of the positions, and then releases the buffer (when there is
    one); no object is lost. *)
Theorem Vector_dtor_releases xs cap m :
  length xs ≤ cap →
  ∃ m', Vector_dtor (vector_of xs cap) m = Some m'
        ∧ log m' = log m ++ (EvDtor <$> xs)
                     ++ (if decide (cap = 0) then [] else [EvFree cap])
        ∧ leaked m' = leaked m.
Proof.
  intros Hcap. rewrite Vector_dtor_spec. eexists. split; [done|].
  rewrite <- raw_add. replace (length xs + (cap - length xs)) with cap by lia.
  split; [|by rewrite Deallocate_raw, destroy_all_leaked].
  unfold Deallocate, raw. destruct cap as [|cap]; cbn [replicate].
  - rewrite decide_True by done. by rewrite destroy_all_log, app_nil_r.
  - rewrite decide_False by done. cbn [leak emit log length].
    by rewrite length_replicate, destroy_all_log, <- app_assoc.
Qed.

(** ** Move assignment and Swap *)

Lemma leak_nil m : leak [] m = m.
Proof. destruct m. unfold leak. cbn. by rewrite app_nil_r. Qed.

(** X6.  Move assignment between two distinct vectors hands the buffer, the
    capacity and the length of the source over to the target and leaves the
    source empty, without any call to [T] or to the allocator. The buffer
    the target had is neither destroyed nor released: its elements are lost. *)
Theorem move_assignment_transfers (s : gmap addr (Vector T)) this rhs
    xs cap (B : Vector T) m :
  this ≠ rhs →
  s !! this = Some (vector_of xs cap) → s !! rhs = Some B →
  ∃ s' m',
    operator_assign_move this rhs s m = Some (s', m')
    ∧ s' !! this = Some B
    ∧ s' !! rhs = Some Vector_default
    ∧ (∀ a, a ≠ this → a ≠ rhs → s' !! a = s !! a)
    ∧ log m' = log m
    ∧ leaked m' = leaked m ++ xs.
Proof.
  intros Hne Hthis Hrhs. unfold operator_assign_move.
  rewrite Hrhs. cbn [mbind option_bind].
  rewrite lookup_insert_ne, Hthis by done. cbn [mbind option_bind].
  rewrite lookup_insert_ne, lookup_insert_eq by done. cbn [mbind option_bind].
  rewrite lookup_insert_ne, lookup_insert_eq by done. cbn [mbind option_bind].
  rewrite lookup_insert_ne, lookup_insert_eq by done. cbn [mbind option_bind].
  rewrite lookup_insert_ne, lookup_insert_eq by done. cbn [mbind option_bind].
  eexists _, _. split; [done|]. split_and!.
  - rewrite lookup_insert_eq. by destruct B as [[b c] n].
  - by rewrite lookup_insert_ne, lookup_insert_eq.
  - intros a Ha1 Ha2. by rewrite !lookup_insert_ne.
  - done.
  - cbn [leak leaked]. by rewrite region_vector_of, live_objects_app,
      live_objects_cells, live_objects_raw, app_nil_r.
Qed.

(** X7.  Move assignment of a vector to itself changes nothing: each
    std::exchange hands back the value it has just overwritten. *)
Theorem self_move_assignment_is_noop (s : gmap addr (Vector T)) this
    (A : Vector T) m :
  s !! this = Some A →
  operator_assign_move this this s m = Some (s, m).
Proof.
  intros Hthis. unfold operator_assign_move.
  rewrite Hthis. cbn [mbind option_bind].
  do 5 (rewrite lookup_insert_eq; cbn [mbind option_bind]).
  unfold set_buffer, set_region, region. cbn [data_ buffer_ live_objects omap].
  rewrite leak_nil. do 2 f_equal.
  rewrite !insert_insert_eq. apply insert_id.
  rewrite Hthis. by destruct A as [[b c] n].
Qed.

(** X8.  Swap exchanges the buffers, capacities and lengths of two vectors
    and touches nothing else; swapping twice restores the store, and
    swapping a vector with itself changes nothing. *)
Theorem Swap_exchanges (s : gmap addr (Vector T)) this other (A B : Vector T) :
  s !! this = Some A → s !! other = Some B →
  ∃ s',
    Swap_at this other s = Some s'
    ∧ s' !! this = Some B ∧ s' !! other = Some A
    ∧ (∀ a, a ≠ this → a ≠ other → s' !! a = s !! a)
    ∧ Swap_at this other s' = Some s
    ∧ (this = other → s' = s)
    ∧ (Swap A B).1 = B ∧ (Swap A B).2 = A.
Proof.
  intros Hthis Hother. unfold Swap_at. rewrite Hthis, Hother.
  cbn [mbind option_bind]. eexists. split; [done|].
  assert ((<[other:=A]> (<[this:=B]> s)) !! this = Some B) as H1.
  { destruct (decide (this = other)) as [->|Hne].
    - rewrite lookup_insert_eq. congruence.
    - by rewrite lookup_insert_ne, lookup_insert_eq. }
  split_and!.
  - done.
  - by rewrite lookup_insert_eq.
  - intros a Ha1 Ha2. by rewrite !lookup_insert_ne.
  - rewrite H1, lookup_insert_eq. cbn [mbind option_bind]. f_equal.
    apply map_eq. intros a.
    destruct (decide (a = other)) as [->|Ho]; [by rewrite lookup_insert_eq|].
    rewrite lookup_insert_ne by done.
    destruct (decide (a = this)) as [->|Ht]; [by rewrite lookup_insert_eq|].
    by rewrite !lookup_insert_ne.
  - intros ->. assert (A = B) as -> by congruence.
    rewrite insert_insert_eq. by apply insert_id.
  - by destruct A as [[a ca] na], B as [[b cb] nb].
  - by destruct A as [[a ca] na], B as [[b cb] nb].
Qed.

(** ** Construction of a vector with a length, and of a copy *)

Lemma uninitialized_value_construct_loop_full n got dpre dpost m :
  match uninitialized_value_construct_loop
          (dpre ++ cells got ++ raw n ++ dpost) (length dpre)
          (length dpre + length got) n m with
  | Ok d m' =>
      ∃ ys, length ys = n ∧ d = dpre ++ cells (got ++ ys) ++ dpost
        ∧ leaked m' = leaked m
        ∧ log m' = log m ++ replicate n EvValueInit
        ∧ Forall value_initialized ys
  | Exn d m' =>
      d = dpre ++ raw (length got + n) ++ dpost ∧ leaked m' = leaked m
      ∧ ∃ ys, length ys < n
          ∧ log m' = log m ++ replicate (S (length ys)) EvValueInit
                       ++ (EvDtor <$> (got ++ ys))
  | Fault => False
  end.
Proof.
  revert got m. induction n as [|n IH]; intros got m;
    cbn [uninitialized_value_construct_loop].
  - exists []. rewrite !app_nil_r. by split_and!.
  - rewrite raw_S. cbn [app]. unfold new_value.
    destruct (value_init (world m)) as [w [y|]] eqn:Hv.
    + assert (Hcur : length dpre + length got = length (dpre ++ cells got))
        by (by rewrite length_app, length_cells).
      rewrite Hcur, (app_assoc dpre), place_raw. rewrite <- Hcur.
      specialize (IH (got ++ [y]) (emit EvValueInit w m)).
      rewrite !length_app in IH. simpl in IH.
      replace (S (length dpre + length got))
        with (length dpre + (length got + 1)) by lia.
      replace ((dpre ++ cells got) ++ Some y :: raw n ++ dpost)
        with (dpre ++ cells (got ++ [y]) ++ raw n ++ dpost)
        by (by rewrite cells_app, <- !app_assoc).
      destruct (uninitialized_value_construct_loop _ _ _ _ _)
        as [d m'|d m'|]; [| |done].
      * destruct IH as (ys & Hlen & -> & Hleak & Hlog & Hall).
        exists (y :: ys). simpl. rewrite <- app_assoc. simpl.
        split_and!; [lia | done | done | |].
        -- rewrite Hlog. by rewrite <- app_assoc.
        -- constructor; [by exists (world m), w|done].
      * destruct IH as (-> & Hleak & ys & Hlen & Hlog). split_and!; [|done|].
        -- f_equal. f_equal. f_equal. lia.
        -- exists (y :: ys). split; [simpl; lia|].
           rewrite Hlog. simpl. by rewrite <- !app_assoc.
    + unfold rollback.
      replace (length dpre + length got - length dpre) with (length got) by lia.
      rewrite destroy_n_cells. split_and!.
      * by rewrite raw_add, <- app_assoc.
      * by rewrite destroy_all_leaked.
      * exists []. split; [simpl; lia|].
        rewrite destroy_all_log, app_nil_r. simpl. by rewrite <- app_assoc.
Qed.

(** X9.  Vector(size), for a size whose size in bytes size_t can hold,
    allocates room for exactly [size] elements (nothing when [size] is 0)
    and value-initializes them in order. When the allocation or a
    constructor throws, the elements constructed so far are destroyed in
    order and the buffer is released: nothing is lost. *)
Theorem Vector_sized_constructs n m :
  allocatable n →
  Vector_sized n m ≠ Fault
  ∧ (∀ v m',
       Vector_sized n m = Ok v m' →
       ∃ zs, v = vector_of zs n ∧ length zs = n
         ∧ Forall value_initialized zs
         ∧ leaked m' = leaked m
         ∧ log m' = log m ++ (if decide (n = 0) then [] else [EvAlloc n])
                      ++ replicate n EvValueInit)
  ∧ (∀ e m',
       Vector_sized n m = Exn e m' →
       n ≠ 0 ∧ leaked m' = leaked m
       ∧ (log m' = log m ++ [EvAlloc n]
          ∨ ∃ zs, length zs < n
              ∧ log m' = log m ++ EvAlloc n
                           :: replicate (S (length zs)) EvValueInit
                           ++ (EvDtor <$> zs) ++ [EvFree n]))
  ∧ (never_throws → ∃ v m', Vector_sized n m = Ok v m').
Proof.
  intros _.
  assert (Hnt : never_throws → no_exception (Vector_sized n m)).
  { intros Hnt. unfold Vector_sized.
    pose proof (RawMemory_new_returns Hnt n m) as Hn.
    destruct (RawMemory_new _ m) as [nd m1| |]; [|done|done].
    pose proof (uninitialized_value_construct_loop_returns Hnt (buffer_ nd) 0 0 n m1)
      as Hc.
    unfold uninitialized_value_construct_n.
    by destruct (uninitialized_value_construct_loop _ _ _ _ _). }
  revert Hnt.
  unfold Vector_sized, RawMemory_new, Allocate, uninitialized_value_construct_n.
  assert (Hdst : ∀ m0,
    match uninitialized_value_construct_loop (raw n) 0 0 n m0 with
    | Ok d m' =>
        ∃ zs, length zs = n ∧ d = cells zs ∧ leaked m' = leaked m0
          ∧ log m' = log m0 ++ replicate n EvValueInit
          ∧ Forall value_initialized zs
    | Exn d m' =>
        d = raw n ∧ leaked m' = leaked m0
        ∧ ∃ zs, length zs < n
            ∧ log m' = log m0 ++ replicate (S (length zs)) EvValueInit
                         ++ (EvDtor <$> zs)
    | Fault => False
    end).
  { intros m0.
    pose proof (uninitialized_value_construct_loop_full n [] [] [] m0) as HU.
    rewrite cells_nil in HU. cbn [app length] in HU. rewrite !app_nil_r in HU.
    destruct (uninitialized_value_construct_loop _ _ _ _ _) as [d m'|d m'|];
      [| |done].
    - destruct HU as (zs & ? & ? & ? & ? & ?). exists zs.
      rewrite app_nil_r in *. by split_and!.
    - done. }
  case_decide as Hn.
  - destruct (operator_new _ _) as [w [|]]; cbn [buffer_]; cycle 1.
    { intros Hnt. split_and!; [done | done | | intros H0; by destruct (Hnt H0)].
      intros e m' [= _ <-]. split_and!; [done | reflexivity | by left]. }
    change (replicate n None) with (raw (T:=T) n).
    specialize (Hdst (emit (EvAlloc n) w m)).
    destruct (uninitialized_value_construct_loop _ _ _ _ _) as [d m'|d m'|];
      [| |done]; intros Hnt.
    + destruct Hdst as (zs & Hl & -> & Hleak & Hlog & Hall).
      split_and!; [done | | done | eauto].
      intros v m0 [= <- <-]. exists zs. split_and!; [|done|done|done|].
      * vec. apply vector_of_eq; [|done]. rewrite Hl, Nat.sub_diag.
        by rewrite app_nil_r.
      * rewrite Hlog, decide_False by done. cbn [emit log].
        by rewrite <- !app_assoc.
    + destruct Hdst as (-> & Hleak & zs & Hl & Hlog).
      split_and!; [done | done | | intros H0; by destruct (Hnt H0)].
      intros e m0 [= _ <-]. unfold RawMemory_dtor. vec.
      split_and!; [done | by rewrite Deallocate_raw |].
      right. exists zs. split; [done|].
      rewrite Deallocate_raw_log, Hlog, decide_False by done. cbn [emit log].
      rewrite <- !app_assoc. cbn [app]. by rewrite <- ?app_assoc.
  - assert (n = 0) as -> by lia. cbn. intros _.
    split_and!; [done | | done | eauto].
    intros v m' [= <- <-]. exists []. by split_and!; [| | | |rewrite app_nil_r].
Qed.

(** X10.  Vector(other) allocates room for exactly as many elements as
    [other] holds (nothing when [other] is empty, whatever its capacity) and
    copy constructs them in order. When the allocation or a copy constructor
    throws, the copies made so far are destroyed in order and the buffer is
    released: nothing is lost. *)
Theorem Vector_copy_copies xs cap m :
  length xs ≤ cap →
  Vector_copy (vector_of xs cap) m ≠ Fault
  ∧ (∀ v m',
       Vector_copy (vector_of xs cap) m = Ok v m' →
       ∃ zs, v = vector_of zs (length xs) ∧ length zs = length xs
         ∧ (copy_ctor_copies → zs = xs)
         ∧ leaked m' = leaked m
         ∧ log m' = log m
             ++ (if decide (length xs = 0) then [] else [EvAlloc (length xs)])
             ++ (EvCopyCtor <$> xs))
  ∧ (∀ e m',
       Vector_copy (vector_of xs cap) m = Exn e m' →
       xs ≠ [] ∧ leaked m' = leaked m
       ∧ (log m' = log m ++ [EvAlloc (length xs)]
          ∨ ∃ zs, length zs < length xs
              ∧ (copy_ctor_copies → zs = take (length zs) xs)
              ∧ log m' = log m ++ EvAlloc (length xs)
                           :: (EvCopyCtor <$> take (S (length zs)) xs)
                           ++ (EvDtor <$> zs) ++ [EvFree (length xs)]))
  ∧ (never_throws → ∃ v m', Vector_copy (vector_of xs cap) m = Ok v m').
Proof.
  intros Hcap.
  assert (Hnt : never_throws → no_exception (Vector_copy (vector_of xs cap) m))
    by (intros Hnt; by apply Vector_copy_returns).
  pose proof (Vector_copy_spec xs cap m Hcap) as HS.
  revert Hnt HS.
  unfold Vector_copy, RawMemory_new, Allocate, uninitialized_copy_n. vec.
  assert (Hdst : ∀ m0,
    match uninitialized_copy_loop (cells xs ++ raw (cap - length xs)) 0
            (length xs) (raw (length xs)) 0 0 m0 with
    | Ok d m' => True
    | Exn d m' =>
        d = raw (length xs)
        ∧ ∃ zs, length zs < length xs
          ∧ log m' = log m0 ++ (EvCopyCtor <$> take (S (length zs)) xs)
                       ++ (EvDtor <$> zs)
          ∧ (copy_ctor_copies → zs = take (length zs) xs)
    | Fault => False
    end).
  { intros m0.
    pose proof (uninitialized_copy_loop_full xs [] (raw (cap - length xs)) [] []
                  [] m0) as HU.
    pose proof (uninitialized_copy_loop_spec xs [] (raw (cap - length xs)) [] []
                  [] m0) as HU0.
    rewrite cells_nil in HU, HU0. cbn [app length] in HU, HU0.
    rewrite !app_nil_r in HU, HU0.
    destruct (uninitialized_copy_loop _ _ _ _ _ _ _); [done| |done].
    destruct HU0 as [-> _]. by rewrite app_nil_r. }
  case_decide as Hn.
  - destruct (operator_new _ _) as [w [|]]; cbn [buffer_]; cycle 1.
    { intros Hnt _. split_and!; [done | done | | intros H0; by destruct (Hnt H0)].
      intros e m' [= _ <-]. split_and!; [by destruct xs | reflexivity | by left]. }
    change (replicate (length xs) None) with (raw (T:=T) (length xs)).
    specialize (Hdst (emit (EvAlloc (length xs)) w m)).
    destruct (uninitialized_copy_loop _ _ _ _ _ _ _) as [d m'|d m'|];
      [| |done]; intros Hnt HS.
    + destruct HS as (Hleak & zs & Hl & Hv & Hval & Hlog).
      split_and!; [done | | done | eauto].
      intros v m0 [= <- <-]. exists zs. split_and!; [done..|].
      rewrite Hlog, decide_False by done. done.
    + destruct Hdst as (-> & zs & Hl & Hlog & Hval).
      split_and!; [done | done | | intros H0; by destruct (Hnt H0)].
      intros e m0 [= _ <-]. split_and!; [by destruct xs | done |].
      right. exists zs. split_and!; [done | done |].
      unfold RawMemory_dtor. vec.
      rewrite Deallocate_raw_log, Hlog, decide_False by done. cbn [emit log].
      rewrite <- !app_assoc. cbn [app]. by rewrite <- ?app_assoc.
  - assert (length xs = 0) as Hz by lia. destruct xs; [|done]. cbn.
    intros _ _. split_and!; [done | | done | eauto].
    intros v m' [= <- <-]. exists []. by split_and!; [| | | |rewrite app_nil_r].
Qed.

(** ** Resize to a greater length *)

Lemma no_throwing_relocation :
  nothrow_move_sound →
  is_copy_constructible = true ∨ is_nothrow_move_constructible = true →
  relocates_by_move = true → ¬ ∃ x w, (move_ctor x w).2.2 = None.
Proof.
  intros Hsound Htrait Hmove (x & w & Hthrow). unfold relocates_by_move in Hmove.
  destruct is_nothrow_move_constructible eqn:Hnt.
  - by destruct (Hsound Hnt x w).
  - destruct Htrait as [Hcc|?]; [|done]. by rewrite Hcc in Hmove.
Qed.

Lemma Resize_grow_spec n xs cap m :
  length xs < n → length xs ≤ cap → SizeT.fits cap → SizeT.fits n →
  match Resize n (vector_of xs cap) m with
  | Ok v m' =>
      ∃ ys zs, v = vector_of (ys ++ zs) (n `max` cap)
        ∧ length ys = length xs ∧ length zs = n - length xs
        ∧ (copy_ctor_copies → move_ctor_moves → ys = xs)
        ∧ Forall value_initialized zs
        ∧ leaked m' = leaked m
        ∧ (n ≤ cap →
           ys = xs ∧ log m' = log m ++ replicate (n - length xs) EvValueInit)
  | Exn v m' =>
      leaked m' = leaked m
      ∧ ∃ ws, length ws = length xs
          ∧ (cap < n ∧ v = vector_of ws cap
               ∧ (ws = xs ∨ relocates_by_move = true
                             ∧ ∃ x w, (move_ctor x w).2.2 = None)
             ∨ v = vector_of ws (n `max` cap)
               ∧ (copy_ctor_copies → move_ctor_moves → ws = xs)
               ∧ (n ≤ cap → ws = xs))
  | Fault => False
  end.
Proof.
  intros Hlt Hcap Hfit Hn. unfold Resize. cbn [vector_of size_].
  fold (vector_of xs cap). rewrite decide_False by lia.
  pose proof (Reserve_spec xs cap n m Hcap) as HR.
  destruct (Reserve n _ m) as [v m1|v m1|]; [| |done]; cycle 1.
  { destruct HR as (Hc & Hleak & ws & Hl & -> & Hsame). split; [done|].
    exists ws. split; [done|]. left. by split_and!. }
  destruct HR as [Hleak HR].
  assert (∃ ys, length ys = length xs ∧ v = vector_of ys (n `max` cap)
                ∧ (copy_ctor_copies → move_ctor_moves → ys = xs)
                ∧ (n ≤ cap → ys = xs ∧ m1 = m))
    as (ys & Hl & -> & Hval & Hsame).
  { destruct HR as [(Hle' & -> & ->)|(Hgt & ys & Hl & -> & Hval)].
    - exists xs. by rewrite Nat.max_r by lia.
    - exists ys. rewrite Nat.max_l by lia. split_and!; [done..|lia]. }
  clear HR. set (c := n `max` cap) in *.
  cbn [vector_of size_]. fold (vector_of ys c).
  rewrite Hl, size_t_sub by (first [lia | done]).
  rewrite region_vector_of.
  pose proof (uninitialized_value_construct_loop_full (n - length xs) []
                (cells ys) (raw (c - n)) m1) as HU.
  rewrite length_cells, Hl in HU. rewrite cells_nil in HU.
  cbn [length app] in HU. rewrite Nat.add_0_r in HU.
  unfold uninitialized_value_construct_n.
  replace (raw (c - length ys))
    with (raw (T:=T) (n - length xs) ++ raw (c - n))
    by (rewrite <- raw_add; apply raw_eq; lia).
  destruct (uninitialized_value_construct_loop _ _ _ _ _) as [d m2|d m2|]; [| |done].
  - destruct HU as (zs & Hlz & -> & Hleak2 & Hlog & Hall).
    exists ys, zs. split_and!; [|done|done|done|done|congruence|].
    + vec. apply vector_of_eq; [|len].
      rewrite cells_app, <- app_assoc. do 2 f_equal. apply raw_eq. len.
    + intros Hle. destruct (Hsame Hle) as [-> ->]. by split.
  - destruct HU as (-> & Hleak2 & _). split; [congruence|].
    exists ys. split; [done|]. right. split_and!; [|done|].
    + vec. apply vector_of_eq; [|done]. cbn [length]. rewrite Nat.add_0_l.
      f_equal. rewrite <- raw_add. apply raw_eq. lia.
    + intros Hle. by destruct (Hsame Hle).
Qed.

(** X11.  Resize to a length [n] greater than the current one reserves room
    for [n] elements (when that needs a new buffer, [n] is a capacity whose
    size in bytes size_t can hold) and value-initializes the new ones behind
    the old ones, which keep their values (for an element type whose copy
    and move constructors transfer the value).  When the capacity suffices,
    nothing is allocated and no element is relocated: the only calls are the
    default constructions. *)
Theorem Resize_extends n xs cap m :
  length xs < n → length xs ≤ cap → SizeT.fits cap → SizeT.fits n →
  (cap < n → allocatable n) →
  Resize n (vector_of xs cap) m ≠ Fault
  ∧ (∀ v m',
       Resize n (vector_of xs cap) m = Ok v m' →
       ∃ ys zs, v = vector_of (ys ++ zs) (n `max` cap)
         ∧ length ys = length xs ∧ length zs = n - length xs
         ∧ (copy_ctor_copies → move_ctor_moves → ys = xs)
         ∧ Forall value_initialized zs
         ∧ leaked m' = leaked m
         ∧ (n ≤ cap →
            ys = xs ∧ log m' = log m ++ replicate (n - length xs) EvValueInit))
  ∧ (never_throws → ∃ v m', Resize n (vector_of xs cap) m = Ok v m').
Proof.
  intros Hlt Hcap Hfit Hn _.
  pose proof (Resize_grow_spec n xs cap m Hlt Hcap Hfit Hn) as HS.
  assert (Resize n (vector_of xs cap) m ≠ Fault) as Hdef
    by (intros Hf; by rewrite Hf in HS).
  split_and!; [done | |].
  - intros v m' HE. by rewrite HE in HS.
  - intros Hnt. apply returns_Ok; [done|].
    unfold Resize. case_decide; [by destruct (destroy_n _ _ _ _) as [[??]|]|].
    pose proof (Reserve_returns Hnt n (vector_of xs cap) m) as Hr.
    destruct (Reserve _ _ _) as [v1 m1| |]; [|done|done].
    pose proof (uninitialized_value_construct_loop_returns Hnt (region v1)
                  (size_ v1) (size_ v1) (SizeT.sub n (size_ v1)) m1) as Hc.
    unfold uninitialized_value_construct_n.
    by destruct (uninitialized_value_construct_loop _ _ _ _ _).
Qed.

(** X12.  When an exception leaves a growing Resize (to a length that, when
    it needs a new buffer, is a capacity whose size in bytes size_t can
    hold), the vector has its former length and no object is lost, and for
    an element type that is copy-constructible or whose move construction
    does not throw it holds its former elements. The capacity, however, is
    the former one only when the reallocation itself failed: when a default
    constructor throws after the reallocation, the vector keeps the new
    buffer. *)
Theorem Resize_exception n xs cap m v m' :
  length xs < n → length xs ≤ cap → SizeT.fits cap → SizeT.fits n →
  (cap < n → allocatable n) →
  nothrow_move_sound →
  is_copy_constructible = true ∨ is_nothrow_move_constructible = true →
  Resize n (vector_of xs cap) m = Exn v m' →
  leaked m' = leaked m
  ∧ Size v = length xs
  ∧ (v = vector_of xs cap ∧ cap < n
     ∨ ∃ ws, v = vector_of ws (n `max` cap) ∧ length ws = length xs
         ∧ (copy_ctor_copies → move_ctor_moves → ws = xs)
         ∧ (n ≤ cap → ws = xs)).
Proof.
  intros Hlt Hcap Hfit Hn _ Hsound Htrait HE.
  pose proof (Resize_grow_spec n xs cap m Hlt Hcap Hfit Hn) as HS.
  rewrite HE in HS. destruct HS as (Hleak & ws & Hl & HS).
  split; [done|].
  destruct HS as [(Hgt & -> & Hsame)|(-> & Hval & Hle)].
  - split; [done|]. left. split; [|done].
    destruct Hsame as [->|[Hmove Hthrow]]; [done|].
    by destruct (no_throwing_relocation Hsound Htrait Hmove).
  - split; [done|]. right. by exists ws.
Qed.

(** ** PushBack followed by operator[] and by PopBack; Insert followed by
    Erase *)

Lemma PushBack_copy_spec value xs cap m v m1 :
  length xs ≤ cap → SizeT.fits cap →
  (length xs = cap → SizeT.fits (grown (length xs))) →
  value_semantics →
  PushBack_copy value (vector_of xs cap) m = Ok v m1 →
  ∃ V, supplies (CopyOf (W:=W) value) xs V xs
    ∧ v = vector_of (xs ++ [V])
            (if decide (length xs = cap) then grown (length xs) else cap)
    ∧ leaked m1 = leaked m.
Proof.
  intros Hcap Hfit Hgrow Hval. unfold PushBack_copy, EmplaceBack, end_.
  cbn [vector_of size_]. fold (vector_of xs cap).
  destruct (Emplace _ _ _ _) as [[v' it] m'|v' m'|] eqn:HE; [|done|done].
  cbn [forget]. intros [= -> ->].
  pose proof (Emplace_Ok_valid _ _ _ _ _ _ _ HE) as Hv.
  pose proof (Emplace_spec (length xs) (CopyOf value) xs cap m Hcap (le_n _)
                Hv Hfit) as HS.
  rewrite HE in HS.
  destruct HS as (_ & Hleak & V & zs & Hl & -> & Hzs); [intros <-; auto|].
  destruct (Hzs Hval) as (ys & Hsup & ->).
  assert (ys = xs) as -> by (by destruct value; destruct Hsup).
  exists V. split_and!; [done | | done].
  by rewrite take_ge, drop_ge by lia.
Qed.

(** X13.  After PushBack(value), for an object outside the vector, has
    returned, operator[] yields the value pushed at the former length and
    the former elements below it; an index from the new length on fails the
    assertion, whatever the capacity. *)
Theorem PushBack_then_index x xs cap m v m1 :
  length xs ≤ cap → SizeT.fits cap →
  (length xs = cap → SizeT.fits (grown (length xs))) →
  value_semantics →
  PushBack_copy (Outside x) (vector_of xs cap) m = Ok v m1 →
  operator_index v (length xs) = Some x
  ∧ (∀ i, i < length xs → operator_index v i = xs !! i)
  ∧ (∀ i, length xs < i → operator_index v i = None)
  ∧ Size v = S (length xs).
Proof.
  intros Hcap Hfit Hgrow Hval HP.
  destruct (PushBack_copy_spec _ _ _ _ _ _ Hcap Hfit Hgrow Hval HP)
    as (V & [-> _] & -> & _).
  assert (length (xs ++ [x])
          ≤ (if decide (length xs = cap) then grown (length xs) else cap)) as Hc.
  { rewrite length_app. cbn [length]. case_decide; [|lia].
    pose proof (lt_grown (length xs)). lia. }
  split_and!.
  - rewrite operator_index_vector_of by (first [done | len]).
    by apply list_lookup_middle.
  - intros i Hi. rewrite operator_index_vector_of by (first [done | len]).
    by rewrite lookup_app_l.
  - intros i Hi. unfold operator_index. cbn [vector_of size_].
    rewrite length_app. cbn [length]. by rewrite decide_False by lia.
  - unfold Size. cbn [vector_of size_]. len.
Qed.

(** X14.  PopBack undoes PushBack(const T&): it leaves the vector with the
    elements it had before the PushBack (in the capacity the PushBack left),
    having run the destructor of the element pushed and nothing else. *)
Theorem PushBack_PopBack value xs cap m v m1 :
  length xs ≤ cap → SizeT.fits cap →
  (length xs = cap → SizeT.fits (grown (length xs))) →
  value_semantics →
  PushBack_copy value (vector_of xs cap) m = Ok v m1 →
  ∃ V, supplies (CopyOf (W:=W) value) xs V xs
    ∧ PopBack v m1 = Some (vector_of xs (Capacity v), destroy V m1)
    ∧ leaked (destroy V m1) = leaked m.
Proof.
  intros Hcap Hfit Hgrow Hval HP.
  destruct (PushBack_copy_spec _ _ _ _ _ _ Hcap Hfit Hgrow Hval HP)
    as (V & Hsup & -> & Hleak).
  exists V. split_and!; [done | | done].
  unfold Capacity. cbn [vector_of data_ capacity_].
  apply PopBack_snoc.
  - case_decide; [|lia]. apply lt_grown.
  - case_decide; auto.
Qed.

Lemma take_drop_inserted (x : T) xs pos :
  pos ≤ length xs →
  take pos (take pos xs ++ x :: drop pos xs)
    ++ drop (S pos) (take pos xs ++ x :: drop pos xs) = xs.
Proof.
  intros Hpos.
  rewrite take_app_length' by (rewrite length_take; lia).
  rewrite drop_app_ge by (rewrite length_take; lia).
  rewrite length_take. replace (S pos - pos `min` length xs) with 1 by lia.
  cbn [drop]. rewrite drop_0. apply take_drop.
Qed.

(** X15.  Erase undoes Insert: erasing at the iterator an Insert returned
    gives back the former elements (in the capacity the Insert left) and
    that same position. *)
Theorem Insert_Erase pos x xs cap m v it m1 :
  length xs ≤ cap → pos ≤ length xs → SizeT.fits cap →
  (length xs = cap → SizeT.fits (grown (length xs))) →
  value_semantics →
  Insert_copy pos (Outside x) (vector_of xs cap) m = Ok (v, it) m1 →
  Erase it v m1 ≠ Fault
  ∧ (∀ v2 it2 m2,
       Erase it v m1 = Ok (v2, it2) m2 →
       v2 = vector_of xs (Capacity v) ∧ it2 = pos ∧ leaked m2 = leaked m)
  ∧ (never_throws → ∃ v2 it2 m2, Erase it v m1 = Ok (v2, it2) m2).
Proof.
  intros Hcap Hpos Hfit Hgrow Hval HI. unfold Insert_copy in HI.
  pose proof (Emplace_spec pos (CopyOf (Outside x)) xs cap m Hcap Hpos I Hfit)
    as HS.
  rewrite HI in HS.
  destruct HS as (-> & Hleak & V & zs & Hl & -> & Hzs); [intros <-; auto|].
  destruct (Hzs Hval) as (ys & [-> ->] & ->).
  set (c := if decide (length xs = cap) then grown (length xs) else cap) in *.
  assert (S (length xs) ≤ c) as Hc.
  { subst c. case_decide; [|lia]. pose proof (lt_grown (length xs)). lia. }
  assert (SizeT.fits c) as Hfc by (subst c; case_decide; auto).
  pose proof (Erase_spec pos (take pos xs ++ x :: drop pos xs) c m1) as HE.
  assert (Erase pos (vector_of (take pos xs ++ x :: drop pos xs) c) m1 ≠ Fault)
    as Hdef.
  { intros Hf. rewrite Hf in HE. apply HE; [lia | lia | done]. }
  split_and!; [done | |].
  - intros v2 it2 m2 HE2. rewrite HE2 in HE.
    destruct HE as (-> & Hleak2 & ws & Hlw & -> & Hws); [lia | lia | done |].
    destruct Hval as (_ & _ & _ & Hma).
    rewrite (Hws Hma), take_drop_inserted by done.
    split_and!; [done | done | congruence].
  - intros Hnt.
    destruct (returns_Ok _ Hdef) as ([v2 it2] & m2 & HE2);
      [by apply Erase_returns | eauto].
Qed.

(** ** Appending into spare capacity *)

Lemma EmplaceBack_room a xs cap m :
  length xs < cap → SizeT.fits cap → valid_args a (length xs) →
  match EmplaceBack a (vector_of xs cap) m with
  | Ok (v, it) m' =>
      ∃ V ys e w, v = vector_of (ys ++ [V]) cap ∧ it = length xs
        ∧ length ys = length xs ∧ left_by a xs ys
        ∧ construction_event a (region (vector_of xs cap)) = Some e
        ∧ m' = emit e w m
        ∧ (copy_ctor_copies → move_ctor_moves → supplies a xs V ys)
  | Exn v m' =>
      ∃ ys e w, v = vector_of ys cap
        ∧ length ys = length xs ∧ left_by a xs ys
        ∧ construction_event a (region (vector_of xs cap)) = Some e
        ∧ m' = emit e w m
  | Fault => False
  end.
Proof.
  intros Hcap Hfit Hv. unfold EmplaceBack, Emplace, Capacity, end_.
  cbn [vector_of size_ data_ capacity_]. fold (vector_of xs cap).
  rewrite decide_False by lia.
  unfold EmplaceWithoutRealloc, begin, end_.
  cbn [vector_of size_]. fold (vector_of xs cap).
  rewrite decide_True by done. rewrite Nat.sub_0_r. cbn [Nat.add].
  rewrite size_t_add by (apply (fits_le _ cap); [lia|done]).
  unfold RawMemory_plus. cbn [vector_of data_ capacity_ size_].
  rewrite decide_True by lia. fold (vector_of xs cap).
  rewrite region_vector_of.
  pose proof (construct_spec a xs (raw (cap - length xs)) m Hv) as HC.
  destruct (construct _ _ _) as [[V b] m1|b m1|]; [| |done].
  - destruct HC as (ys & e & w & Hl & -> & He & -> & Hkeep & Hsup).
    rewrite (raw_pos (cap - length xs)) by lia.
    rewrite place_at by (by rewrite length_cells).
    exists V, ys, e, w. split_and!; try done.
    + vec. apply vector_of_eq; [|len]. buf_eq.
    + by rewrite <- (raw_pos (cap - length xs)) by lia.
  - destruct HC as (ys & e & w & Hl & -> & He & -> & Hkeep).
    exists ys, e, w. split_and!; try done.
    vec. apply vector_of_eq; [|done]. by rewrite Hl.
Qed.

Lemma EmplaceBack_Ok_valid a xs cap m r m' :
  EmplaceBack a (vector_of xs cap) m = Ok r m' → valid_args a (length xs).
Proof. apply Emplace_Ok_valid. Qed.

Lemma push_all_room args xs cap m :
  length xs + length args ≤ cap → SizeT.fits cap →
  match push_all args (vector_of xs cap) m with
  | Ok v m' =>
      ∃ zs evs, v = vector_of zs cap ∧ length zs = length xs + length args
        ∧ leaked m' = leaked m
        ∧ log m' = log m ++ evs ∧ Forall is_construction evs
        ∧ length evs = length args
  | Exn v m' =>
      ∃ zs evs, v = vector_of zs cap ∧ length zs < length xs + length args
        ∧ leaked m' = leaked m
        ∧ log m' = log m ++ evs ∧ Forall is_construction evs
        ∧ length evs ≤ length args
  | Fault => True
  end.
Proof.
  revert xs m. induction args as [|a args IH]; intros xs m Hroom Hfit;
    cbn [push_all length] in *.
  - exists xs, []. rewrite app_nil_r. by split_and!; [|lia| | | |].
  - destruct (EmplaceBack _ _ _) as [[v it] m1|v m1|] eqn:HE; [| |done].
    + pose proof (EmplaceBack_Ok_valid _ _ _ _ _ _ HE) as Hv.
      pose proof (EmplaceBack_room a xs cap m ltac:(lia) Hfit Hv) as HS.
      rewrite HE in HS.
      destruct HS as (V & ys & e & w & -> & _ & Hl & _ & He & -> & _).
      specialize (IH (ys ++ [V]) (emit e w m)).
      rewrite length_app in IH. cbn [length] in IH.
      specialize (IH ltac:(lia) Hfit).
      apply construction_event_is_construction in He.
      destruct (push_all _ _ _) as [v2 m2|v2 m2|]; [| |done].
      * destruct IH as (zs & evs & -> & Hlz & Hleak & Hlog & Hall & Hle).
        exists zs, (e :: evs). split_and!; [done | lia | done | | by constructor
                                            | simpl; lia].
        rewrite Hlog. cbn [emit log]. by rewrite <- app_assoc.
      * destruct IH as (zs & evs & -> & Hlz & Hleak & Hlog & Hall & Hle).
        exists zs, (e :: evs). split_and!; [done | lia | done | | by constructor
                                            | simpl; lia].
        rewrite Hlog. cbn [emit log]. by rewrite <- app_assoc.
    + assert (Decision (valid_args a (length xs))) as [Hv|Hv]
        by (destruct a as [mk|[x|i]|[x|i]]; simpl; apply _); cycle 1.
      { exfalso. revert HE. unfold EmplaceBack, Emplace. case_decide.
        - unfold Capacity in *. cbn [vector_of size_ data_ capacity_] in *. lia.
        - unfold EmplaceWithoutRealloc. rewrite region_vector_of.
          rewrite decide_True by done.
          destruct (RawMemory_plus _ _); [|done]. by rewrite construct_invalid. }
      pose proof (EmplaceBack_room a xs cap m ltac:(lia) Hfit Hv) as HS.
      rewrite HE in HS.
      destruct HS as (ys & e & w & -> & Hl & _ & He & ->).
      apply construction_event_is_construction in He.
      exists ys, [e]. split_and!; [done | lia | done | done | by constructor
                                   | simpl; lia].
Qed.

Lemma push_all_room_defined args xs cap m :
  length xs + length args ≤ cap → SizeT.fits cap →
  Forall (λ a, valid_args a (length xs)) args →
  push_all args (vector_of xs cap) m ≠ Fault.
Proof.
  revert xs m. induction args as [|a args IH]; intros xs m Hroom Hfit Hargs;
    cbn [push_all length] in *; [done|].
  apply Forall_cons in Hargs as [Hv Hargs].
  pose proof (EmplaceBack_room a xs cap m ltac:(lia) Hfit Hv) as HS.
  destruct (EmplaceBack _ _ _) as [[v it] m1|v m1|]; [|done|done].
  destruct HS as (V & ys & e & w & -> & _ & Hl & _).
  apply IH; [rewrite length_app; cbn [length]; lia | done |].
  eapply Forall_impl; [exact Hargs|]. intros a' Ha'.
  eapply valid_args_mono; [|exact Ha']. rewrite length_app. lia.
Qed.

(** X16.  After Reserve(n) has returned, for a capacity [n] whose size in
    bytes size_t can hold, appending elements up to the length [n] never
    reallocates: the capacity stays, and the only calls made are the
    constructions of the new elements, one per element; nothing is
    allocated, released, assigned or destroyed.  The appends are defined
    when each value appended is given from outside or as a reference to an
    element the vector had before the appends. *)
Theorem Reserve_prevents_reallocation n args xs cap m v1 m1 :
  length xs ≤ cap → SizeT.fits cap → SizeT.fits n →
  (cap < n → allocatable n) →
  length xs + length args ≤ n →
  Reserve n (vector_of xs cap) m = Ok v1 m1 →
  (Forall (λ a, valid_args a (length xs)) args →
   push_all args v1 m1 ≠ Fault)
  ∧ (∀ m2,
     final (push_all args v1 m1) = Some m2 →
     leaked m2 = leaked m
     ∧ ∃ evs, log m2 = log m1 ++ evs ∧ Forall is_construction evs
         ∧ length evs ≤ length args)
  ∧ (∀ v2 m2,
       push_all args v1 m1 = Exn v2 m2 → Capacity v2 = Capacity v1)
  ∧ (∀ v2 m2,
       push_all args v1 m1 = Ok v2 m2 →
       Capacity v2 = Capacity v1 ∧ Size v2 = length xs + length args
       ∧ ∃ evs, log m2 = log m1 ++ evs ∧ length evs = length args).
Proof.
  intros Hcap Hfit Hn _ Hroom HR.
  pose proof (Reserve_spec xs cap n m Hcap) as HS. rewrite HR in HS.
  destruct HS as [Hleak HS].
  assert (∃ ys c, v1 = vector_of ys c ∧ length ys = length xs ∧ n ≤ c
                  ∧ SizeT.fits c) as (ys & c & -> & Hl & Hc & Hfc).
  { destruct HS as [(Hle & -> & _)|(Hlt & ys & Hl & -> & _)].
    - by exists xs, cap.
    - by exists ys, n. }
  pose proof (push_all_room args ys c m1 ltac:(lia) Hfc) as HP.
  split.
  { rewrite <- Hl. by apply push_all_room_defined; [lia|]. }
  destruct (push_all _ _ _) as [v2 m2|v2 m2|].
  - destruct HP as (zs & evs & -> & Hlz & Hleak2 & Hlog & Hall & Hle).
    split_and!; [| done |].
    + intros m0 [= <-]. split; [congruence|]. exists evs. split_and!; [done..|lia].
    + intros v0 m0 [= <- <-]. split_and!; [done | cbn; lia | by exists evs].
  - destruct HP as (zs & evs & -> & Hlz & Hleak2 & Hlog & Hall & Hle).
    split_and!; [| | done].
    + intros m0 [= <-]. split; [congruence|]. by exists evs.
    + by intros v0 m0 [= <- <-].
  - by split_and!.
Qed.

(** X17.  EmplaceBack returns a reference to the element it has appended:
    the last element of the vector, which holds the value constructed from
    the arguments, behind the former elements. *)
Theorem EmplaceBack_returns_back a xs cap m v it m' :
  length xs ≤ cap → SizeT.fits cap →
  (length xs = cap → SizeT.fits (grown (length xs))) →
  value_semantics →
  EmplaceBack a (vector_of xs cap) m = Ok (v, it) m' →
  S it = Size v
  ∧ ∃ V ys, supplies a xs V ys
      ∧ operator_index v it = Some V
      ∧ elements v = ys ++ [V].
Proof.
  intros Hcap Hfit Hgrow Hval HE.
  pose proof (EmplaceBack_Ok_valid _ _ _ _ _ _ HE) as Hv.
  revert HE. unfold EmplaceBack, end_. cbn [vector_of size_].
  fold (vector_of xs cap). intros HE.
  pose proof (Emplace_spec (length xs) a xs cap m Hcap (le_n _) Hv Hfit) as HS.
  rewrite HE in HS.
  destruct HS as (-> & _ & V & zs & Hl & -> & Hzs); [intros <-; auto|].
  destruct (Hzs Hval) as (ys & Hsup & ->).
  assert (length ys = length xs) as Hly by len.
  rewrite take_ge, drop_ge by lia.
  split; [unfold Size; cbn [vector_of size_]; len|].
  exists V, ys. split_and!; [done | | apply elements_vector_of].
  rewrite operator_index_vector_of.
  - rewrite <- Hly. by apply list_lookup_middle.
  - rewrite length_app. cbn [length]. case_decide; [|lia].
    pose proof (lt_grown (length xs)). lia.
  - len.
Qed.

(** ** The calls made by Erase and by an insertion before the end *)

Lemma move_assign_at_events buf s d m :
  match move_assign_at buf s d m with
  | Ok _ m' | Exn _ m' => ∃ e, log m' = log m ++ [e] ∧ is_move_assignment e
  | Fault => True
  end.
Proof.
  unfold move_assign_at. case_decide; [done|].
  destruct (buf !! s) as [[x|]|]; [|done|done].
  destruct (buf !! d) as [[y|]|]; [|done|done]. unfold assign_move.
  destruct (move_assign y x (world m)) as [w [[y' x'] [|]]];
    by exists (EvMoveAssign y x).
Qed.

Lemma move_loop_events buf first n d_first m :
  match move_loop buf first n d_first m with
  | Ok _ m' =>
      ∃ evs, log m' = log m ++ evs ∧ Forall is_move_assignment evs
        ∧ length evs = n
  | Exn _ m' =>
      ∃ evs, log m' = log m ++ evs ∧ Forall is_move_assignment evs
        ∧ 1 ≤ length evs ≤ n
  | Fault => True
  end.
Proof.
  revert buf first d_first m. induction n as [|n IH]; intros buf first d_first m;
    cbn [move_loop].
  - exists []. by rewrite app_nil_r.
  - pose proof (move_assign_at_events buf first d_first m) as H1.
    destruct (move_assign_at _ _ _ _) as [b m1|b m1|]; [| |done].
    + destruct H1 as (e & Hlog & He).
      specialize (IH b (S first) (S d_first) m1).
      destruct (move_loop _ _ _ _ _) as [b2 m2|b2 m2|]; [| |done];
        destruct IH as (evs & Hlog2 & Hall & Hlen); exists (e :: evs);
        (split_and!; [by rewrite Hlog2, Hlog, <- app_assoc
                     | by constructor | simpl; lia..]).
    + destruct H1 as (e & Hlog & He). exists [e].
      split_and!; [done | by constructor | simpl; lia..].
Qed.

Lemma move_backward_loop_events buf n last d_last m :
  match move_backward_loop buf n last d_last m with
  | Ok _ m' =>
      ∃ evs, log m' = log m ++ evs ∧ Forall is_move_assignment evs
        ∧ length evs = n
  | Exn _ m' =>
      ∃ evs, log m' = log m ++ evs ∧ Forall is_move_assignment evs
        ∧ 1 ≤ length evs ≤ n
  | Fault => True
  end.
Proof.
  revert buf last d_last m. induction n as [|n IH]; intros buf last d_last m;
    cbn [move_backward_loop].
  - exists []. by rewrite app_nil_r.
  - destruct last as [|last]; [done|]. destruct d_last as [|d_last]; [done|].
    pose proof (move_assign_at_events buf last d_last m) as H1.
    destruct (move_assign_at _ _ _ _) as [b m1|b m1|]; [| |done].
    + destruct H1 as (e & Hlog & He).
      specialize (IH b last d_last m1).
      destruct (move_backward_loop _ _ _ _ _) as [b2 m2|b2 m2|]; [| |done];
        destruct IH as (evs & Hlog2 & Hall & Hlen); exists (e :: evs);
        (split_and!; [by rewrite Hlog2, Hlog, <- app_assoc
                     | by constructor | simpl; lia..]).
    + destruct H1 as (e & Hlog & He). exists [e].
      split_and!; [done | by constructor | simpl; lia..].
Qed.

Lemma destroy_one_event buf i m buf' m' :
  destroy_n buf i 1 m = Some (buf', m') → ∃ x, log m' = log m ++ [EvDtor x].
Proof.
  cbn [destroy_n]. unfold destroy_at.
  destruct (buf !! i) as [[x|]|]; [|done|done]. intros [= _ <-]. by exists x.
Qed.

Lemma Erase_events pos this m :
  match Erase pos this m with
  | Ok _ m' =>
      ∃ evs r, log m' = log m ++ evs ++ [EvDtor r]
        ∧ Forall is_move_assignment evs
        ∧ length evs = size_ this - (pos + 1)
  | Exn _ m' =>
      ∃ evs, log m' = log m ++ evs ∧ Forall is_move_assignment evs
        ∧ 1 ≤ length evs ≤ size_ this - (pos + 1)
  | Fault => True
  end.
Proof.
  unfold Erase, std_move, begin, end_. cbn [Nat.add]. rewrite Nat.sub_0_r.
  case_decide; [done|]. case_decide; [done|].
  pose proof (move_loop_events (region this) (pos + 1)
                (size_ this - (pos + 1)) pos m) as HM.
  destruct (move_loop _ _ _ _ _) as [b m1|b m1|]; [| |done]; [|done].
  destruct HM as (evs & Hlog & Hall & Hlen).
  destruct (ptr_back _ _) as [p|]; [|done].
  destruct (destroy_n b p 1 m1) as [[b1 m2]|] eqn:Hd; [|done].
  apply destroy_one_event in Hd as (r & Hlog2).
  exists evs, r. split_and!; [|done|done]. by rewrite Hlog2, Hlog, <- app_assoc.
Qed.

(** X18.  Erase(pos) on a vector of length [n], when it returns, has made
    exactly [n - pos - 1] move assignments, one for each element behind the
    position, and then run one destructor, on the last slot; it calls no
    constructor and no allocation function. *)
Theorem Erase_cost pos xs cap m v it m' :
  length xs ≤ cap → pos < length xs → SizeT.fits cap →
  Erase pos (vector_of xs cap) m = Ok (v, it) m' →
  ∃ evs r, log m' = log m ++ evs ++ [EvDtor r]
    ∧ Forall is_move_assignment evs
    ∧ length evs = length xs - pos - 1
    ∧ Capacity v = cap.
Proof.
  intros Hcap Hpos Hfit HE.
  pose proof (Erase_events pos (vector_of xs cap) m) as HL.
  pose proof (Erase_spec pos xs cap m Hcap Hpos Hfit) as HS.
  rewrite HE in HL, HS. destruct HL as (evs & r & Hlog & Hall & Hlen).
  destruct HS as (_ & _ & zs & _ & -> & _).
  exists evs, r. split_and!; [done | done | | done].
  cbn [vector_of size_] in Hlen. lia.
Qed.

(** X19.  When a move assignment throws during Erase(pos), the vector keeps
    its length and its capacity, every slot below the length still holds an
    object, and the elements before the position are untouched; no object is
    lost and none has been destroyed. *)
Theorem Erase_exception pos xs cap m v m' :
  length xs ≤ cap → pos < length xs → SizeT.fits cap →
  Erase pos (vector_of xs cap) m = Exn v m' →
  leaked m' = leaked m
  ∧ (∃ ws, v = vector_of ws cap ∧ length ws = length xs
       ∧ take pos ws = take pos xs)
  ∧ ∃ evs, log m' = log m ++ evs ∧ Forall is_move_assignment evs
      ∧ 1 ≤ length evs ≤ length xs - pos - 1.
Proof.
  intros Hcap Hpos Hfit HE.
  pose proof (Erase_events pos (vector_of xs cap) m) as HL.
  pose proof (Erase_spec pos xs cap m Hcap Hpos Hfit) as HS.
  rewrite HE in HL, HS. destruct HL as (evs & Hlog & Hall & Hlen).
  destruct HS as (Hleak & ws & Hl & -> & Hpre).
  split_and!; [done | by exists ws |].
  exists evs. split_and!; [done | done | lia |].
  cbn [vector_of size_] in Hlen. lia.
Qed.

Lemma EmplaceWithoutRealloc_events pos a this m :
  pos ≠ end_ this →
  match EmplaceWithoutRealloc pos a this m with
  | Ok _ m' =>
      ∃ e x evs d t t',
        construction_event a (region this) = Some e
        ∧ log m' = log m ++ e :: EvMoveCtor x :: evs
                     ++ [EvMoveAssign d t; EvDtor t']
        ∧ Forall is_move_assignment evs
        ∧ length evs = SizeT.sub (size_ this) 1 - pos
  | _ => True
  end.
Proof.
  intros Hend. unfold EmplaceWithoutRealloc. rewrite decide_False by done.
  destruct (construct _ _ _) as [[temp b] m1|b m1|] eqn:Hc; [|done|done].
  destruct (construct_log a (region this) m m1) as (e & w & He & ->);
    [by rewrite Hc|].
  destruct (RawMemory_plus _ _) as [p|]; [|done].
  destruct (RawMemory_index _ _) as [l|]; [|done].
  destruct (b !! l) as [[x|]|]; [|done|done]. unfold new_move.
  destruct (move_ctor x _) as [w2 [x' [y|]]]; [|done].
  destruct (place _ _ _ _) as [[b1 m3]|] eqn:Hp; [|done].
  apply place_same_log in Hp. unfold std_move_backward, begin, end_.
  cbn [Nat.add]. rewrite Nat.sub_0_r.
  case_decide; [done|]. case_decide; [done|].
  pose proof (move_backward_loop_events b1 (SizeT.sub (size_ this) 1 - pos)
                (SizeT.sub (size_ this) 1) (size_ this) m3) as HM.
  destruct (move_backward_loop _ _ _ _ _) as [b2 m4|b2 m4|]; [|done|done].
  destruct HM as (evs & Hlog & Hall & Hlen).
  destruct (RawMemory_index _ _) as [o|]; [|done].
  destruct (b2 !! o) as [[d|]|]; [|done|done]. unfold assign_move.
  destruct (move_assign d temp (world m4)) as [w5 [[d' temp'] [|]]]; [|done].
  exists e, x, evs, d, temp, temp'. split_and!; [done | | done | done].
  cbn [destroy emit log]. rewrite Hlog, Hp. cbn [emit log].
  rewrite <- !app_assoc. cbn [app]. by rewrite <- ?app_assoc.
Qed.

(** X20.  An insertion before the end into spare capacity, when it returns,
    has made exactly these calls, in this order: the construction of the new
    value in a temporary, the move construction of the last element into the
    first free slot, [n - pos - 1] move assignments shifting the elements
    behind the position, the move assignment of the temporary into the
    position, and the destruction of the temporary.  Nothing is allocated. *)
Theorem Emplace_before_end_cost pos a xs cap m v it m' :
  length xs < cap → pos < length xs → SizeT.fits cap →
  Emplace pos a (vector_of xs cap) m = Ok (v, it) m' →
  ∃ e x evs d t t',
    construction_event a (region (vector_of xs cap)) = Some e
    ∧ log m' = log m ++ e :: EvMoveCtor x :: evs
                 ++ [EvMoveAssign d t; EvDtor t']
    ∧ Forall is_move_assignment evs
    ∧ length evs = length xs - pos - 1.
Proof.
  intros Hcap Hpos Hfit. unfold Emplace, Capacity.
  cbn [vector_of size_ data_ capacity_]. fold (vector_of xs cap).
  rewrite decide_False by lia. intros HE.
  pose proof (EmplaceWithoutRealloc_events pos a (vector_of xs cap) m) as HL.
  rewrite HE in HL.
  destruct HL as (e & x & evs & d & t & t' & He & Hlog & Hall & Hlen).
  { unfold end_. cbn [vector_of size_]. lia. }
  exists e, x, evs, d, t, t'. split_and!; [done..|].
  cbn [vector_of size_] in Hlen.
  rewrite size_t_sub in Hlen
    by (first [lia | apply (fits_le _ cap); [lia|done]]).
  lia.
Qed.

(** ** Exceptions leaving an insertion *)

(** X21.  What a reallocating insertion that is left by an exception has
    lost.  Nothing, when the exception was thrown by the allocation, by the
    construction of the new element or by the relocation of the elements
    before the position (at most [pos + 1] constructor calls have been made,
    the one that threw included).  The new element, when it was thrown by
    the relocation of the elements from the position on (more than [pos + 1]
    constructor calls): the handler destroys the relocated prefix only, and
    the new buffer is released with the new element alive in it. *)
Theorem EmplaceWithRealloc_exception_loss pos a xs cap m v m' :
  length xs ≤ cap → pos ≤ length xs → valid_args a (length xs) →
  SizeT.fits (grown (length xs)) →
  EmplaceWithRealloc pos a (vector_of xs cap) m = Exn v m' →
  (constructions (log m') ≤ constructions (log m) + pos + 1 →
   leaked m' = leaked m)
  ∧ (constructions (log m) + pos + 1 < constructions (log m') →
     pos < length xs
     ∧ ∃ V, leaked m' = leaked m ++ [V]
         ∧ (copy_ctor_copies → move_ctor_moves → ∃ ys, supplies a xs V ys)).
Proof.
  intros Hcap Hpos Hv Hfit HE.
  pose proof (EmplaceWithRealloc_spec pos a xs cap m Hcap Hpos Hv Hfit) as HS.
  rewrite HE in HS. destruct HS as [_ [[Hleak Hc]|(Hlt & Hc & V & Hleak & HV)]].
  - split; [done|lia].
  - split; [lia|]. intros _. split; [done|]. by exists V.
Qed.

(** X22.  EmplaceBack (hence PushBack) gives the strong guarantee for every
    element type that is copy-constructible or whose move construction does
    not throw: when an exception leaves it, with or without reallocation,
    the vector has its buffer, its length and its elements (except that an
    own element the new one was moved from is in its moved-from state), and
    no object is lost. *)
Theorem EmplaceBack_strong_guarantee a xs cap m v m' :
  length xs ≤ cap → SizeT.fits cap →
  (length xs = cap → SizeT.fits (grown (length xs))) →
  valid_args a (length xs) →
  nothrow_move_sound →
  is_copy_constructible = true ∨ is_nothrow_move_constructible = true →
  EmplaceBack a (vector_of xs cap) m = Exn v m' →
  leaked m' = leaked m
  ∧ ∃ ys, v = vector_of ys cap ∧ left_by a xs ys.
Proof.
  intros Hcap Hfit Hgrow Hv Hsound Htrait HE.
  destruct (decide (length xs = cap)) as [Hfull|Hroom].
  - revert HE. unfold EmplaceBack, Emplace, Capacity, end_.
    cbn [vector_of size_ data_ capacity_]. fold (vector_of xs cap).
    rewrite decide_True by done. intros HE.
    pose proof (EmplaceWithRealloc_spec (length xs) a xs cap m Hcap (le_n _) Hv
                  (Hgrow Hfull)) as HS.
    rewrite HE in HS.
    destruct HS as [(ys & ys0 & Hl & -> & Hleft & Hsame) Hleak].
    split.
    + destruct Hleak as [[Hleak _]|(Hlt & _)]; [done|lia].
    + exists ys. split; [done|].
      destruct Hsame as [->|[Hmove Hthrow]]; [done|].
      by destruct (no_throwing_relocation Hsound Htrait Hmove).
  - pose proof (EmplaceBack_room a xs cap m ltac:(lia) Hfit Hv) as HS.
    rewrite HE in HS. destruct HS as (ys & e & w & -> & Hl & Hleft & _ & ->).
    split; [done|]. by exists ys.
Qed.

End More.

(** * The further properties on concrete vectors *)

Lemma Resize_truncates_witness :
  (1 ≤ length [1; 2; 3] ∧ length [1; 2; 3] ≤ 4 ∧ SizeT.fits 4)
  ∧ ∃ m', Resize 1 (vector_of [1; 2; 3] 4) (start ())
          = Ok (vector_of (take 1 [1; 2; 3]) 4) m'
        ∧ log m' = log (start (T:=nat) ()) ++ (EvDtor <$> drop 1 [1; 2; 3])
        ∧ leaked m' = leaked (start (T:=nat) ()).
Proof.
  assert (1 ≤ length [1; 2; 3] ∧ length [1; 2; 3] ≤ 4 ∧ SizeT.fits 4) as Hyp.
  { split; [simpl; lia|]. split; [simpl; lia|]. apply small_fits; lia. }
  split; [exact Hyp|]. destruct Hyp as (H1 & H2 & H3).
  exact (Resize_truncates 1 [1; 2; 3] 4 (start ()) H1 H2 H3).
Defined.

Lemma PopBack_removes_last_witness :
  (length [1; 2] < 4 ∧ SizeT.fits 4)
  ∧ PopBack (vector_of ([1; 2] ++ [3]) 4) (start ())
    = Some (vector_of [1; 2] 4, destroy 3 (start ()))
  ∧ log (destroy 3 (start ())) = log (start (T:=nat) ()) ++ [EvDtor 3]
  ∧ leaked (destroy 3 (start ())) = leaked (start (T:=nat) ())
  ∧ PopBack (vector_of [] 4) (start (T:=nat) ()) = None.
Proof.
  assert (length [1; 2] < 4 ∧ SizeT.fits 4) as Hyp.
  { split; [simpl; lia|]. apply small_fits; lia. }
  split; [exact Hyp|]. destruct Hyp as (H1 & H2).
  exact (PopBack_removes_last [1; 2] 3 4 (start ()) H1 H2).
Defined.

Lemma Erase_last_witness :
  (length [1; 2] < 4 ∧ SizeT.fits 4)
  ∧ Erase (length [1; 2]) (vector_of ([1; 2] ++ [3]) 4) (start ())
    = Ok (vector_of [1; 2] 4, end_ (vector_of [1; 2] 4)) (destroy 3 (start ()))
  ∧ ∀ pos, length [1; 2] < pos →
      Erase pos (vector_of ([1; 2] ++ [3]) 4) (start ()) = Fault.
Proof.
  assert (length [1; 2] < 4 ∧ SizeT.fits 4) as Hyp.
  { split; [simpl; lia|]. apply small_fits; lia. }
  split; [exact Hyp|]. destruct Hyp as (H1 & H2).
  exact (Erase_last [1; 2] 3 4 (start ()) H1 H2).
Defined.

Lemma Vector_dtor_releases_witness :
  length [1; 2; 3] ≤ 4
  ∧ ∃ m', Vector_dtor (vector_of [1; 2; 3] 4) (start ()) = Some m'
        ∧ log m' = log (start (T:=nat) ()) ++ (EvDtor <$> [1; 2; 3])
                     ++ (if decide (4 = 0) then [] else [EvFree 4])
        ∧ leaked m' = leaked (start (T:=nat) ()).
Proof.
  assert (length [1; 2; 3] ≤ 4) as H1 by (simpl; lia).
  split; [exact H1|].
  exact (Vector_dtor_releases [1; 2; 3] 4 (start ()) H1).
Defined.

Lemma Vector_copy_copies_witness :
  length [1; 2; 3] ≤ 4
  ∧ ∃ v m', Vector_copy (vector_of [1; 2; 3] 4) (start ()) = Ok v m'
      ∧ ∃ zs, v = vector_of zs (length [1; 2; 3])
          ∧ length zs = length [1; 2; 3]
          ∧ (copy_ctor_copies (T:=nat) (W:=unit) → zs = [1; 2; 3])
          ∧ leaked m' = leaked (start (T:=nat) ())
          ∧ log m' = log (start (T:=nat) ())
              ++ (if decide (length [1; 2; 3] = 0) then []
                  else [EvAlloc (length [1; 2; 3])])
              ++ (EvCopyCtor <$> [1; 2; 3]).
Proof.
  assert (length [1; 2; 3] ≤ 4) as H1 by (simpl; lia).
  split; [exact H1|].
  assert (∃ v m', Vector_copy (vector_of [1; 2; 3] 4) (start ()) = Ok v m')
    as (v & m' & HE) by (eexists _, _; vm_compute; reflexivity).
  exists v, m'. split; [exact HE|].
  exact (proj1 (proj2 (Vector_copy_copies [1; 2; 3] 4 (start ()) H1)) _ _ HE).
Defined.

Lemma Vector_sized_constructs_witness :
  allocatable (T:=nat) (W:=unit) 3
  ∧ ∃ v m',
      Vector_sized 3 (start ()) = Ok v m'
      ∧ ∃ zs, v = vector_of zs 3 ∧ length zs = 3
          ∧ Forall (value_initialized (W:=unit)) zs
          ∧ leaked m' = leaked (start (T:=nat) ())
          ∧ log m' = log (start (T:=nat) ())
                       ++ (if decide (3 = 0) then [] else [EvAlloc 3])
                       ++ replicate 3 EvValueInit.
Proof.
  assert (allocatable (T:=nat) (W:=unit) 3) as Hyp
    by (apply small_fits; vm_compute; lia).
  split; [exact Hyp|].
  assert (∃ v m', Vector_sized (T:=nat) 3 (start ()) = Ok v m')
    as (v & m' & HE) by (eexists _, _; vm_compute; reflexivity).
  exists v, m'. split; [exact HE|].
  exact (proj1 (proj2 (Vector_sized_constructs 3 (start ()) Hyp)) _ _ HE).
Defined.

Lemma Resize_extends_witness :
  (length [1; 2; 3] < 5 ∧ length [1; 2; 3] ≤ 4 ∧ SizeT.fits 4 ∧ SizeT.fits 5
   ∧ (4 < 5 → allocatable (T:=nat) (W:=unit) 5))
  ∧ ∃ v m', Resize 5 (vector_of [1; 2; 3] 4) (start ()) = Ok v m'
      ∧ ∃ ys zs, v = vector_of (ys ++ zs) (5 `max` 4)
          ∧ length ys = length [1; 2; 3] ∧ length zs = 5 - length [1; 2; 3]
          ∧ (copy_ctor_copies (T:=nat) (W:=unit) →
             move_ctor_moves (T:=nat) (W:=unit) → ys = [1; 2; 3])
          ∧ Forall (value_initialized (W:=unit)) zs
          ∧ leaked m' = leaked (start (T:=nat) ())
          ∧ (5 ≤ 4 →
             ys = [1; 2; 3]
             ∧ log m' = log (start (T:=nat) ())
                          ++ replicate (5 - length [1; 2; 3]) EvValueInit).
Proof.
  assert (length [1; 2; 3] < 5 ∧ length [1; 2; 3] ≤ 4 ∧ SizeT.fits 4
          ∧ SizeT.fits 5 ∧ (4 < 5 → allocatable (T:=nat) (W:=unit) 5)) as Hyp.
  { split; [simpl; lia|]. split; [simpl; lia|].
    split; [apply small_fits; lia|]. split; [apply small_fits; lia|].
    intros _. apply small_fits. vm_compute. lia. }
  split; [exact Hyp|]. destruct Hyp as (H1 & H2 & H3 & H4 & H5).
  assert (∃ v m', Resize 5 (vector_of [1; 2; 3] 4) (start ()) = Ok v m')
    as (v & m' & HE) by (eexists _, _; vm_compute; reflexivity).
  exists v, m'. split; [exact HE|].
  exact (proj1 (proj2 (Resize_extends 5 [1; 2; 3] 4 (start ()) H1 H2 H3 H4 H5))
           _ _ HE).
Defined.

(** On a copyable type whose fifth operation throws: the three elements
    have been copied into a buffer of capacity 5 and one element has been
    value-initialized in it when the second default construction throws;
    the vector keeps the new buffer. *)
Lemma Resize_exception_witness :
  (length [1; 2; 3] < 5 ∧ length [1; 2; 3] ≤ 4 ∧ SizeT.fits 4 ∧ SizeT.fits 5
   ∧ (4 < 5 → allocatable (T:=nat) (W:=nat) 5)
   ∧ nothrow_move_sound (T:=nat) (W:=nat)
   ∧ (is_copy_constructible (T:=nat) (W:=nat) = true
      ∨ is_nothrow_move_constructible (T:=nat) (W:=nat) = true))
  ∧ ∃ m', Resize 5 (vector_of [1; 2; 3] 4) (start 4)
          = Exn (vector_of [1; 2; 3] 5) m'
      ∧ leaked m' = leaked (start (T:=nat) 4)
      ∧ Size (vector_of [1; 2; 3] 5) = length [1; 2; 3]
      ∧ (vector_of [1; 2; 3] 5 = vector_of [1; 2; 3] 4 ∧ 4 < 5
         ∨ ∃ ws, vector_of [1; 2; 3] 5 = vector_of ws (5 `max` 4)
             ∧ length ws = length [1; 2; 3]
             ∧ (copy_ctor_copies (T:=nat) (W:=nat) →
                move_ctor_moves (T:=nat) (W:=nat) → ws = [1; 2; 3])
             ∧ (5 ≤ 4 → ws = [1; 2; 3])).
Proof.
  assert (length [1; 2; 3] < 5 ∧ length [1; 2; 3] ≤ 4 ∧ SizeT.fits 4
          ∧ SizeT.fits 5
          ∧ (4 < 5 → allocatable (T:=nat) (W:=nat) 5)
          ∧ nothrow_move_sound (T:=nat) (W:=nat)
          ∧ (is_copy_constructible (T:=nat) (W:=nat) = true
             ∨ is_nothrow_move_constructible (T:=nat) (W:=nat) = true)) as Hyp.
  { split; [simpl; lia|]. split; [simpl; lia|].
    split; [apply small_fits; lia|]. split; [apply small_fits; lia|].
    split; [intros _; apply small_fits; vm_compute; lia|].
    split; [exact fragile_nothrow_move_sound|]. left. reflexivity. }
  split; [exact Hyp|]. destruct Hyp as (H1 & H2 & H3 & H4 & Ha & H5 & H6).
  assert (∃ m', Resize 5 (vector_of [1; 2; 3] 4) (start 4)
                = Exn (vector_of [1; 2; 3] 5) m') as (m' & HE)
    by (eexists; vm_compute; reflexivity).
  exists m'. split; [exact HE|].
  exact (Resize_exception 5 [1; 2; 3] 4 (start 4) _ m' H1 H2 H3 H4 Ha H5 H6 HE).
Defined.

Lemma move_assignment_transfers_witness :
  (0 ≠ 1
   ∧ ({[0 := vector_of [1; 2] 2; 1 := vector_of [7] 1]}
        : gmap addr (Vector nat)) !! 0 = Some (vector_of [1; 2] 2)
   ∧ ({[0 := vector_of [1; 2] 2; 1 := vector_of [7] 1]}
        : gmap addr (Vector nat)) !! 1 = Some (vector_of [7] 1))
  ∧ ∃ s' m',
      operator_assign_move 0 1
        {[0 := vector_of [1; 2] 2; 1 := vector_of [7] 1]} (start ())
      = Some (s', m')
      ∧ s' !! 0 = Some (vector_of [7] 1)
      ∧ s' !! 1 = Some Vector_default
      ∧ (∀ a, a ≠ 0 → a ≠ 1 →
         s' !! a = ({[0 := vector_of [1; 2] 2; 1 := vector_of [7] 1]}
                      : gmap addr (Vector nat)) !! a)
      ∧ log m' = log (start (T:=nat) ())
      ∧ leaked m' = leaked (start (T:=nat) ()) ++ [1; 2].
Proof.
  assert (0 ≠ 1
     ∧ ({[0 := vector_of [1; 2] 2; 1 := vector_of [7] 1]}
          : gmap addr (Vector nat)) !! 0 = Some (vector_of [1; 2] 2)
     ∧ ({[0 := vector_of [1; 2] 2; 1 := vector_of [7] 1]}
          : gmap addr (Vector nat)) !! 1 = Some (vector_of [7] 1)) as Hyp.
  { split; [lia|]. split; vm_compute; reflexivity. }
  split; [exact Hyp|]. destruct Hyp as (H1 & H2 & H3).
  exact (move_assignment_transfers _ 0 1 [1; 2] 2 (vector_of [7] 1) (start ())
           H1 H2 H3).
Defined.

Lemma self_move_assignment_is_noop_witness :
  ({[0 := vector_of [1; 2] 2]} : gmap addr (Vector nat)) !! 0
  = Some (vector_of [1; 2] 2)
  ∧ operator_assign_move 0 0 {[0 := vector_of [1; 2] 2]} (start ())
    = Some ({[0 := vector_of [1; 2] 2]}, start ()).
Proof.
  assert (({[0 := vector_of [1; 2] 2]} : gmap addr (Vector nat)) !! 0
          = Some (vector_of [1; 2] 2)) as H1 by (vm_compute; reflexivity).
  split; [exact H1|].
  exact (self_move_assignment_is_noop _ 0 (vector_of [1; 2] 2) (start ()) H1).
Defined.

Lemma Swap_exchanges_witness :
  (({[0 := vector_of [1; 2] 2; 1 := vector_of [7] 4]}
      : gmap addr (Vector nat)) !! 0 = Some (vector_of [1; 2] 2)
   ∧ ({[0 := vector_of [1; 2] 2; 1 := vector_of [7] 4]}
        : gmap addr (Vector nat)) !! 1 = Some (vector_of [7] 4))
  ∧ ∃ s',
      Swap_at 0 1 {[0 := vector_of [1; 2] 2; 1 := vector_of [7] 4]} = Some s'
      ∧ s' !! 0 = Some (vector_of [7] 4) ∧ s' !! 1 = Some (vector_of [1; 2] 2)
      ∧ (∀ a, a ≠ 0 → a ≠ 1 →
         s' !! a = ({[0 := vector_of [1; 2] 2; 1 := vector_of [7] 4]}
                      : gmap addr (Vector nat)) !! a)
      ∧ Swap_at 0 1 s'
        = Some {[0 := vector_of [1; 2] 2; 1 := vector_of [7] 4]}
      ∧ (0 = 1 → s' = {[0 := vector_of [1; 2] 2; 1 := vector_of [7] 4]})
      ∧ (Swap (vector_of [1; 2] 2) (vector_of [7] 4)).1 = vector_of [7] 4
      ∧ (Swap (vector_of [1; 2] 2) (vector_of [7] 4)).2 = vector_of [1; 2] 2.
Proof.
  assert (({[0 := vector_of [1; 2] 2; 1 := vector_of [7] 4]}
            : gmap addr (Vector nat)) !! 0 = Some (vector_of [1; 2] 2)
          ∧ ({[0 := vector_of [1; 2] 2; 1 := vector_of [7] 4]}
               : gmap addr (Vector nat)) !! 1 = Some (vector_of [7] 4)) as Hyp.
  { split; vm_compute; reflexivity. }
  split; [exact Hyp|]. destruct Hyp as (H1 & H2).
  exact (Swap_exchanges _ 0 1 (vector_of [1; 2] 2) (vector_of [7] 4) H1 H2).
Defined.

Lemma PushBack_then_index_witness :
  (length [1; 2; 3] ≤ 3 ∧ SizeT.fits 3
   ∧ (length [1; 2; 3] = 3 → SizeT.fits (grown (length [1; 2; 3])))
   ∧ value_semantics (T:=nat) (W:=unit))
  ∧ ∃ v m1,
      PushBack_copy (Outside 4) (vector_of [1; 2; 3] 3) (start ()) = Ok v m1
      ∧ operator_index v (length [1; 2; 3]) = Some 4
      ∧ (∀ i, i < length [1; 2; 3] → operator_index v i = [1; 2; 3] !! i)
      ∧ (∀ i, length [1; 2; 3] < i → operator_index v i = None)
      ∧ Size v = S (length [1; 2; 3]).
Proof.
  assert (length [1; 2; 3] ≤ 3 ∧ SizeT.fits 3
          ∧ (length [1; 2; 3] = 3 → SizeT.fits (grown (length [1; 2; 3])))
          ∧ value_semantics (T:=nat) (W:=unit)) as Hyp.
  { split; [simpl; lia|]. split; [apply small_fits; lia|].
    split; [intros _; apply small_fits; vm_compute; lia|].
    exact int_value_semantics. }
  split; [exact Hyp|]. destruct Hyp as (H1 & H2 & H3 & H4).
  assert (∃ v m1, PushBack_copy (Outside 4) (vector_of [1; 2; 3] 3) (start ())
                  = Ok v m1) as (v & m1 & HE)
    by (eexists _, _; vm_compute; reflexivity).
  exists v, m1. split; [exact HE|].
  exact (PushBack_then_index 4 [1; 2; 3] 3 (start ()) v m1 H1 H2 H3 H4 HE).
Defined.

Lemma PushBack_PopBack_witness :
  (length [1; 2; 3] ≤ 3 ∧ SizeT.fits 3
   ∧ (length [1; 2; 3] = 3 → SizeT.fits (grown (length [1; 2; 3])))
   ∧ value_semantics (T:=nat) (W:=unit))
  ∧ ∃ v m1,
      PushBack_copy (Own 0) (vector_of [1; 2; 3] 3) (start ()) = Ok v m1
      ∧ ∃ V, supplies (CopyOf (W:=unit) (Own 0)) [1; 2; 3] V [1; 2; 3]
          ∧ PopBack v m1
            = Some (vector_of [1; 2; 3] (Capacity v), destroy V m1)
          ∧ leaked (destroy V m1) = leaked (start (T:=nat) ()).
Proof.
  assert (length [1; 2; 3] ≤ 3 ∧ SizeT.fits 3
          ∧ (length [1; 2; 3] = 3 → SizeT.fits (grown (length [1; 2; 3])))
          ∧ value_semantics (T:=nat) (W:=unit)) as Hyp.
  { split; [simpl; lia|]. split; [apply small_fits; lia|].
    split; [intros _; apply small_fits; vm_compute; lia|].
    exact int_value_semantics. }
  split; [exact Hyp|]. destruct Hyp as (H1 & H2 & H3 & H4).
  assert (∃ v m1, PushBack_copy (Own 0) (vector_of [1; 2; 3] 3) (start ())
                  = Ok v m1) as (v & m1 & HE)
    by (eexists _, _; vm_compute; reflexivity).
  exists v, m1. split; [exact HE|].
  exact (PushBack_PopBack (Own 0) [1; 2; 3] 3 (start ()) v m1 H1 H2 H3 H4 HE).
Defined.

Lemma Insert_Erase_witness :
  (length [1; 2] ≤ 4 ∧ 1 ≤ length [1; 2] ∧ SizeT.fits 4
   ∧ (length [1; 2] = 4 → SizeT.fits (grown (length [1; 2])))
   ∧ value_semantics (T:=nat) (W:=unit))
  ∧ ∃ v it m1,
      Insert_copy 1 (Outside 99) (vector_of [1; 2] 4) (start ()) = Ok (v, it) m1
      ∧ ∃ v2 it2 m2,
          Erase it v m1 = Ok (v2, it2) m2
          ∧ v2 = vector_of [1; 2] (Capacity v) ∧ it2 = 1
          ∧ leaked m2 = leaked (start (T:=nat) ()).
Proof.
  assert (length [1; 2] ≤ 4 ∧ 1 ≤ length [1; 2] ∧ SizeT.fits 4
          ∧ (length [1; 2] = 4 → SizeT.fits (grown (length [1; 2])))
          ∧ value_semantics (T:=nat) (W:=unit)) as Hyp.
  { split; [simpl; lia|]. split; [simpl; lia|]. split; [apply small_fits; lia|].
    split; [intros _; apply small_fits; vm_compute; lia|].
    exact int_value_semantics. }
  split; [exact Hyp|]. destruct Hyp as (H1 & H2 & H3 & H4 & H5).
  assert (∃ v it m1 v2 it2 m2,
            Insert_copy 1 (Outside 99) (vector_of [1; 2] 4) (start ())
            = Ok (v, it) m1
            ∧ Erase it v m1 = Ok (v2, it2) m2)
    as (v & it & m1 & v2 & it2 & m2 & HI & HE)
    by (do 6 eexists; split; vm_compute; reflexivity).
  exists v, it, m1. split; [exact HI|]. exists v2, it2, m2. split; [exact HE|].
  exact (proj1 (proj2 (Insert_Erase 1 99 [1; 2] 4 (start ()) v it m1
                         H1 H2 H3 H4 H5 HI)) _ _ _ HE).
Defined.

Lemma Reserve_prevents_reallocation_witness :
  (length [1; 2; 3] ≤ 3 ∧ SizeT.fits 3 ∧ SizeT.fits 8
   ∧ (3 < 8 → allocatable (T:=nat) (W:=unit) 8)
   ∧ length [1; 2; 3]
       + length [CopyOf (T:=nat) (W:=unit) (Outside 4); CopyOf (Outside 5)] ≤ 8)
  ∧ ∃ v1 m1 v2 m2,
      Reserve 8 (vector_of [1; 2; 3] 3) (start ()) = Ok v1 m1
      ∧ push_all [CopyOf (Outside 4); CopyOf (Outside 5)] v1 m1 = Ok v2 m2
      ∧ Capacity v2 = Capacity v1
      ∧ Size v2
        = length [1; 2; 3]
            + length [CopyOf (T:=nat) (W:=unit) (Outside 4); CopyOf (Outside 5)]
      ∧ ∃ evs, log m2 = log m1 ++ evs
          ∧ length evs
            = length [CopyOf (T:=nat) (W:=unit) (Outside 4); CopyOf (Outside 5)].
Proof.
  assert (length [1; 2; 3] ≤ 3 ∧ SizeT.fits 3 ∧ SizeT.fits 8
     ∧ (3 < 8 → allocatable (T:=nat) (W:=unit) 8)
     ∧ length [1; 2; 3]
         + length [CopyOf (T:=nat) (W:=unit) (Outside 4); CopyOf (Outside 5)]
       ≤ 8) as Hyp.
  { split; [simpl; lia|]. split; [apply small_fits; lia|].
    split; [apply small_fits; lia|].
    split; [intros _; apply small_fits; vm_compute; lia|]. simpl; lia. }
  split; [exact Hyp|]. destruct Hyp as (H1 & H2 & H3 & Ha & H4).
  assert (∃ v1 m1 v2 m2,
            Reserve 8 (vector_of [1; 2; 3] 3) (start ()) = Ok v1 m1
            ∧ push_all [CopyOf (Outside 4); CopyOf (Outside 5)] v1 m1 = Ok v2 m2)
    as (v1 & m1 & v2 & m2 & HR & HP)
    by (do 4 eexists; split; vm_compute; reflexivity).
  exists v1, m1, v2, m2. split; [exact HR|]. split; [exact HP|].
  exact (proj2 (proj2 (proj2 (Reserve_prevents_reallocation 8
                         [CopyOf (Outside 4); CopyOf (Outside 5)] [1; 2; 3] 3
                         (start ()) v1 m1 H1 H2 H3 Ha H4 HR))) _ _ HP).
Defined.

(** On a copyable type whose fourth operation throws: the new element 9
    and the element before the position have been constructed in the new
    buffer when the copy of the third element throws; the handler
    destroys the prefix, and 9 is lost. *)
Lemma EmplaceWithRealloc_exception_loss_witness :
  (length [1; 2; 3] ≤ 3 ∧ 1 ≤ length [1; 2; 3]
   ∧ valid_args (CopyOf (T:=nat) (W:=nat) (Outside 9)) (length [1; 2; 3])
   ∧ SizeT.fits (grown (length [1; 2; 3])))
  ∧ ∃ v m',
      EmplaceWithRealloc 1 (CopyOf (Outside 9)) (vector_of [1; 2; 3] 3) (start 3)
      = Exn v m'
      ∧ constructions (log (start (T:=nat) 3)) + 1 + 1 < constructions (log m')
      ∧ leaked m' = [9]
      ∧ 1 < length [1; 2; 3]
      ∧ ∃ V, leaked m' = leaked (start (T:=nat) 3) ++ [V]
          ∧ (copy_ctor_copies (T:=nat) (W:=nat) →
             move_ctor_moves (T:=nat) (W:=nat) →
             ∃ ys, supplies (CopyOf (W:=nat) (Outside 9)) [1; 2; 3] V ys).
Proof.
  assert (length [1; 2; 3] ≤ 3 ∧ 1 ≤ length [1; 2; 3]
     ∧ valid_args (CopyOf (T:=nat) (W:=nat) (Outside 9)) (length [1; 2; 3])
     ∧ SizeT.fits (grown (length [1; 2; 3]))) as Hyp.
  { split; [simpl; lia|]. split; [simpl; lia|]. split; [exact I|].
    apply small_fits. vm_compute. lia. }
  split; [exact Hyp|]. destruct Hyp as (H1 & H2 & H3 & H4).
  assert (∃ v m',
    EmplaceWithRealloc 1 (CopyOf (Outside 9)) (vector_of [1; 2; 3] 3) (start 3)
    = Exn v m'
    ∧ constructions (log (start (T:=nat) 3)) + 1 + 1 < constructions (log m')
    ∧ leaked m' = [9]) as (v & m' & HE & Hc & Hl)
    by (eexists _, _; split; [vm_compute; reflexivity|];
        split; [vm_compute; lia | vm_compute; reflexivity]).
  exists v, m'. split; [exact HE|]. split; [exact Hc|]. split; [exact Hl|].
  exact (proj2 (EmplaceWithRealloc_exception_loss 1 (CopyOf (Outside 9))
                  [1; 2; 3] 3 (start 3) v m' H1 H2 H3 H4 HE) Hc).
Defined.

(** On a copyable type whose third operation throws: PushBack(9) on a
    full vector fails while the elements are copied into the new buffer,
    and leaves the vector as it was. *)
Lemma EmplaceBack_strong_guarantee_witness :
  (length [1; 2; 3] ≤ 3 ∧ SizeT.fits 3
   ∧ (length [1; 2; 3] = 3 → SizeT.fits (grown (length [1; 2; 3])))
   ∧ valid_args (CopyOf (T:=nat) (W:=nat) (Outside 9)) (length [1; 2; 3])
   ∧ nothrow_move_sound (T:=nat) (W:=nat)
   ∧ (is_copy_constructible (T:=nat) (W:=nat) = true
      ∨ is_nothrow_move_constructible (T:=nat) (W:=nat) = true))
  ∧ ∃ v m',
      EmplaceBack (CopyOf (Outside 9)) (vector_of [1; 2; 3] 3) (start 2)
      = Exn v m'
      ∧ leaked m' = leaked (start (T:=nat) 2)
      ∧ ∃ ys, v = vector_of ys 3
          ∧ left_by (CopyOf (W:=nat) (Outside 9)) [1; 2; 3] ys.
Proof.
  assert (length [1; 2; 3] ≤ 3 ∧ SizeT.fits 3
     ∧ (length [1; 2; 3] = 3 → SizeT.fits (grown (length [1; 2; 3])))
     ∧ valid_args (CopyOf (T:=nat) (W:=nat) (Outside 9)) (length [1; 2; 3])
     ∧ nothrow_move_sound (T:=nat) (W:=nat)
     ∧ (is_copy_constructible (T:=nat) (W:=nat) = true
        ∨ is_nothrow_move_constructible (T:=nat) (W:=nat) = true)) as Hyp.
  { split; [simpl; lia|]. split; [apply small_fits; lia|].
    split; [intros _; apply small_fits; vm_compute; lia|]. split; [exact I|].
    split; [exact fragile_nothrow_move_sound|]. left. reflexivity. }
  split; [exact Hyp|]. destruct Hyp as (H1 & H2 & H3 & H4 & H5 & H6).
  assert (∃ v m',
    EmplaceBack (CopyOf (Outside 9)) (vector_of [1; 2; 3] 3) (start 2)
    = Exn v m') as (v & m' & HE) by (eexists _, _; vm_compute; reflexivity).
  exists v, m'. split; [exact HE|].
  exact (EmplaceBack_strong_guarantee (CopyOf (Outside 9)) [1; 2; 3] 3 (start 2)
           v m' H1 H2 H3 H4 H5 H6 HE).
Defined.

(** On a copyable type whose fourth operation throws, for the insertion
    at the front that strands an element, and for Reserve on [int]. *)
Lemma invariant_preserved_witness :
  canonical (vector_of [1; 2; 3] 4)
  ∧ (SizeT.fits 8
     ∧ (Capacity (vector_of [1; 2; 3] 4) < 8 → allocatable (T:=nat) (W:=unit) 8)
     ∧ match Reserve 8 (vector_of [1; 2; 3] 4) (start (W:=unit) ()) with
       | Ok v _ => canonical v
       | Exn v _ => canonical v
       | Fault => False
       end)
  ∧ ∃ v m',
      Emplace 0 (CopyOf (Outside 9)) (vector_of [1; 2; 3] 4) (start 3)
      = Exn v m'
      ∧ (canonical v
         ∨ 0 < Size (vector_of [1; 2; 3] 4)
           ∧ Size (vector_of [1; 2; 3] 4) < Capacity (vector_of [1; 2; 3] 4)
           ∧ stranded v).
Proof.
  assert (canonical (vector_of [1; 2; 3] 4)) as H1.
  { exists [1; 2; 3], 4. split; [reflexivity|]. split; [simpl; lia|].
    apply small_fits; lia. }
  split; [exact H1|].
  assert (SizeT.fits 8) as H2 by (apply small_fits; lia).
  assert (Capacity (vector_of [1; 2; 3] 4) < 8
          → allocatable (T:=nat) (W:=unit) 8) as H3
    by (intros _; apply small_fits; vm_compute; lia).
  split; [exact (conj H2 (conj H3
            (proj1 (invariant_preserved (vector_of [1; 2; 3] 4)
                      (start (W:=unit) ()) H1) 8 H2 H3)))|].
  assert (∃ v m',
    Emplace 0 (CopyOf (Outside 9)) (vector_of [1; 2; 3] 4) (start 3)
    = Exn v m') as (v & m' & HE) by (eexists _, _; vm_compute; reflexivity).
  exists v, m'. split; [exact HE|].
  pose proof (proj1 (proj2 (proj2 (proj2 (proj2
                (invariant_preserved (vector_of [1; 2; 3] 4) (start 3) H1)))))
                0 (CopyOf (Outside 9))) as HI.
  rewrite HE in HI. apply HI.
  - simpl; lia.
  - exact I.
  - intros Hf. discriminate Hf.
Defined.

Lemma EmplaceBack_returns_back_witness :
  (length [1; 2; 3] ≤ 3 ∧ SizeT.fits 3
   ∧ (length [1; 2; 3] = 3 → SizeT.fits (grown (length [1; 2; 3])))
   ∧ value_semantics (T:=nat) (W:=unit))
  ∧ ∃ v it m',
      EmplaceBack (MoveOf (Outside 4)) (vector_of [1; 2; 3] 3) (start ())
      = Ok (v, it) m'
      ∧ S it = Size v
      ∧ ∃ V ys, supplies (MoveOf (W:=unit) (Outside 4)) [1; 2; 3] V ys
          ∧ operator_index v it = Some V
          ∧ elements v = ys ++ [V].
Proof.
  assert (length [1; 2; 3] ≤ 3 ∧ SizeT.fits 3
          ∧ (length [1; 2; 3] = 3 → SizeT.fits (grown (length [1; 2; 3])))
          ∧ value_semantics (T:=nat) (W:=unit)) as Hyp.
  { split; [simpl; lia|]. split; [apply small_fits; lia|].
    split; [intros _; apply small_fits; vm_compute; lia|].
    exact int_value_semantics. }
  split; [exact Hyp|]. destruct Hyp as (H1 & H2 & H3 & H4).
  assert (∃ v it m',
    EmplaceBack (MoveOf (Outside 4)) (vector_of [1; 2; 3] 3) (start ())
    = Ok (v, it) m') as (v & it & m' & HE)
    by (eexists _, _, _; vm_compute; reflexivity).
  exists v, it, m'. split; [exact HE|].
  exact (EmplaceBack_returns_back (MoveOf (Outside 4)) [1; 2; 3] 3 (start ())
           v it m' H1 H2 H3 H4 HE).
Defined.

Lemma Erase_cost_witness :
  (length [1; 99; 2] ≤ 4 ∧ 0 < length [1; 99; 2] ∧ SizeT.fits 4)
  ∧ ∃ v it m',
      Erase 0 (vector_of [1; 99; 2] 4) (start ()) = Ok (v, it) m'
      ∧ ∃ evs r, log m' = log (start (T:=nat) ()) ++ evs ++ [EvDtor r]
          ∧ Forall is_move_assignment evs
          ∧ length evs = length [1; 99; 2] - 0 - 1
          ∧ Capacity v = 4.
Proof.
  assert (length [1; 99; 2] ≤ 4 ∧ 0 < length [1; 99; 2] ∧ SizeT.fits 4) as Hyp.
  { split; [simpl; lia|]. split; [simpl; lia|]. apply small_fits; lia. }
  split; [exact Hyp|]. destruct Hyp as (H1 & H2 & H3).
  assert (∃ v it m', Erase 0 (vector_of [1; 99; 2] 4) (start ()) = Ok (v, it) m')
    as (v & it & m' & HE) by (eexists _, _, _; vm_compute; reflexivity).
  exists v, it, m'. split; [exact HE|].
  exact (Erase_cost 0 [1; 99; 2] 4 (start ()) v it m' H1 H2 H3 HE).
Defined.

(** On a type whose second operation throws: erasing position 1 of
    [1; 2; 3; 4] has assigned 3 to position 1 when the assignment to
    position 2 throws. *)
Lemma Erase_exception_witness :
  (length [1; 2; 3; 4] ≤ 4 ∧ 1 < length [1; 2; 3; 4] ∧ SizeT.fits 4)
  ∧ ∃ m',
      Erase 1 (vector_of [1; 2; 3; 4] 4) (start 1)
      = Exn (vector_of [1; 3; 3; 4] 4) m'
      ∧ leaked m' = leaked (start (T:=nat) 1)
      ∧ (∃ ws, vector_of [1; 3; 3; 4] 4 = vector_of ws 4
           ∧ length ws = length [1; 2; 3; 4]
           ∧ take 1 ws = take 1 [1; 2; 3; 4])
      ∧ ∃ evs, log m' = log (start (T:=nat) 1) ++ evs
          ∧ Forall is_move_assignment evs
          ∧ 1 ≤ length evs ≤ length [1; 2; 3; 4] - 1 - 1.
Proof.
  assert (length [1; 2; 3; 4] ≤ 4 ∧ 1 < length [1; 2; 3; 4] ∧ SizeT.fits 4)
    as Hyp.
  { split; [simpl; lia|]. split; [simpl; lia|]. apply small_fits; lia. }
  split; [exact Hyp|]. destruct Hyp as (H1 & H2 & H3).
  assert (∃ m', Erase 1 (vector_of [1; 2; 3; 4] 4) (start 1)
                = Exn (vector_of [1; 3; 3; 4] 4) m') as (m' & HE)
    by (eexists; vm_compute; reflexivity).
  exists m'. split; [exact HE|].
  exact (Erase_exception 1 [1; 2; 3; 4] 4 (start 1) _ m' H1 H2 H3 HE).
Defined.

Lemma Emplace_before_end_cost_witness :
  (length [1; 2; 3] < 4 ∧ 1 < length [1; 2; 3] ∧ SizeT.fits 4)
  ∧ ∃ v it m',
      Emplace 1 (CopyOf (Outside 9)) (vector_of [1; 2; 3] 4) (start ())
      = Ok (v, it) m'
      ∧ ∃ e x evs d t t',
          construction_event (CopyOf (W:=unit) (Outside 9))
            (region (vector_of [1; 2; 3] 4)) = Some e
          ∧ log m' = log (start (T:=nat) ()) ++ e :: EvMoveCtor x :: evs
                       ++ [EvMoveAssign d t; EvDtor t']
          ∧ Forall is_move_assignment evs
          ∧ length evs = length [1; 2; 3] - 1 - 1.
Proof.
  assert (length [1; 2; 3] < 4 ∧ 1 < length [1; 2; 3] ∧ SizeT.fits 4) as Hyp.
  { split; [simpl; lia|]. split; [simpl; lia|]. apply small_fits; lia. }
  split; [exact Hyp|]. destruct Hyp as (H1 & H2 & H3).
  assert (∃ v it m',
    Emplace 1 (CopyOf (Outside 9)) (vector_of [1; 2; 3] 4) (start ())
    = Ok (v, it) m') as (v & it & m' & HE)
    by (eexists _, _, _; vm_compute; reflexivity).
  exists v, it, m'. split; [exact HE|].
  exact (Emplace_before_end_cost 1 (CopyOf (Outside 9)) [1; 2; 3] 4 (start ())
           v it m' H1 H2 H3 HE).
Defined.
